(** * Binaural Pathfinder: the evolutionary path search of [main.js]

    A shallow embedding of the path generation and evolutionary search of
    [src/main.js] (the Three.js scene, shaders, camera and DOM wiring are
    left out), and the properties of the specification checked against it.

    JavaScript numbers are kept behind the interface [Number], which has
    two interpretations:
    - [float]: IEEE 754 binary64 with round-to-nearest-even, which is what a
      JavaScript engine computes; every definition runs on it;
    - [R]: the real numbers, without rounding, overflow or NaN, used for
      the geometric statements whose proof needs the laws of arithmetic. *)

From Stdlib Require Import String.
From Stdlib Require Import ZArith List Bool Lia.
From Stdlib Require Import Permutation Sorted.
From Stdlib Require Import Reals Lra.
From Stdlib Require Import Floats.
Import ListNotations.

(** ** JavaScript numbers *)

Declare Scope js_scope.
Delimit Scope js_scope with js.

Class Number (F : Type) : Type := {
  of_Z : Z -> F;             (* an integer literal or integer-valued number *)
  nadd : F -> F -> F;
  nsub : F -> F -> F;
  nmul : F -> F -> F;
  ndiv : F -> F -> F;
  nsqrt : F -> F;            (* Math.sqrt *)
  nltb : F -> F -> bool;     (* a < b *)
  nleb : F -> F -> bool;     (* a <= b *)
  neqb : F -> F -> bool;     (* a === b on numbers *)
  nmax : F -> F -> F;        (* Math.max(a, b) *)
  to_int32 : F -> Z;         (* ToInt32, as in x|0 *)
  nan : F;                   (* what arithmetic on undefined gives *)
  neg_infinity : F           (* -Infinity *)
}.

Notation "a + b" := (nadd a b) : js_scope.
Notation "a - b" := (nsub a b) : js_scope.
Notation "a * b" := (nmul a b) : js_scope.
Notation "a / b" := (ndiv a b) : js_scope.
Notation "a <? b" := (nltb a b) (at level 70, no associativity) : js_scope.
Notation "a <=? b" := (nleb a b) (at level 70, no associativity) : js_scope.
Notation "a >? b" := (nltb b a) (at level 70, no associativity) : js_scope.
Notation "a >=? b" := (nleb b a) (at level 70, no associativity) : js_scope.
Notation "a =? b" := (neqb a b) (at level 70, no associativity) : js_scope.

(** The decimal literal [n/d], for literals that are not integers: the
    division of two exactly represented integers is correctly rounded, so
    on [float] this is the double the literal denotes. *)
Definition lit {F} `{Number F} (n d : Z) : F := (of_Z n / of_Z d)%js.

Definition of_nat {F} `{Number F} (n : nat) : F := of_Z (Z.of_nat n).

(** *** 32-bit integer conversions *)

Definition two32 : Z := 4294967296.

Definition toUint32 (z : Z) : Z := (z mod two32)%Z.

Definition toInt32 (z : Z) : Z :=
  let u := (z mod two32)%Z in
  if (u <? 2147483648)%Z then u else (u - two32)%Z.

(** [a << n], [a >>> n] and [a ^ b] on numbers holding integers. *)
Definition shl32 (a n : Z) : Z := toInt32 (Z.shiftl (toInt32 a) n).
Definition ushr32 (a n : Z) : Z := Z.shiftr (toUint32 a) n.
Definition xor32 (a b : Z) : Z := toInt32 (Z.lxor (toInt32 a) (toInt32 b)).

(** *** The binary64 interpretation *)

Definition float_of_Z (z : Z) : float :=
  if (z <? 0)%Z then PrimFloat.opp (PrimFloat.of_uint63 (Uint63.of_Z (- z)))
  else PrimFloat.of_uint63 (Uint63.of_Z z).

(** Math.max: NaN if an argument is NaN, and +0 above -0. *)
Definition float_max (a b : float) : float :=
  if PrimFloat.ltb a b then b
  else if PrimFloat.ltb b a then a
  else if PrimFloat.is_nan a then a
  else if PrimFloat.is_nan b then b
  else if PrimFloat.get_sign a then b else a.

(** ToInt32: truncate toward zero, then wrap to 32 bits; NaN and the
    infinities give 0. *)
Definition float_to_int32 (x : float) : Z :=
  match Prim2SF x with
  | S754_finite s m e =>
      let mag := if (0 <=? e)%Z then Z.shiftl (Z.pos m) e
                 else Z.shiftr (Z.pos m) (- e) in
      toInt32 (if s then (- mag)%Z else mag)
  | _ => 0%Z
  end.

#[export] Instance Number_float : Number float := {
  of_Z := float_of_Z;
  nadd := PrimFloat.add;
  nsub := PrimFloat.sub;
  nmul := PrimFloat.mul;
  ndiv := PrimFloat.div;
  nsqrt := PrimFloat.sqrt;
  nltb := PrimFloat.ltb;
  nleb := PrimFloat.leb;
  neqb := PrimFloat.eqb;
  nmax := float_max;
  to_int32 := float_to_int32;
  nan := PrimFloat.nan;
  neg_infinity := PrimFloat.neg_infinity
}.

(** *** The real interpretation

    There is no NaN and no infinity among the reals: [nan] and
    [neg_infinity] are placeholders there, and the statements made over [R]
    are about computations that do not read them. *)

Definition R_ltb (a b : R) : bool := if Rlt_dec a b then true else false.
Definition R_leb (a b : R) : bool := if Rle_dec a b then true else false.
Definition R_eqb (a b : R) : bool := if Req_dec_T a b then true else false.

Definition R_trunc (r : R) : Z :=
  if Rle_dec 0 r then Int_part r else (- Int_part (- r))%Z.

#[export] Instance Number_R : Number R := {
  of_Z := IZR;
  nadd := Rplus;
  nsub := Rminus;
  nmul := Rmult;
  ndiv := Rdiv;
  nsqrt := R_sqrt.sqrt;
  nltb := R_ltb;
  nleb := R_leb;
  neqb := R_eqb;
  nmax := Rmax;
  to_int32 := fun r => toInt32 (R_trunc r);
  nan := 0%R;
  neg_infinity := 0%R
}.

(** ** Utilities (main.js, lines 10-20) *)

Section Utilities.
Context {F : Type} `{Number F}.
Local Open Scope js_scope.

(** [const lerp = (a, b, t) => a + (b - a) * t] *)
Definition lerp (a b t : F) : F := a + (b - a) * t.

(** One call of the closure returned by [seedRandom]: the state [s] after
    the three xorshift updates, and the number returned. *)
Definition xorshift32 (s : Z) : Z :=
  let s := xor32 s (shl32 s 13) in
  let s := xor32 s (ushr32 s 17) in
  let s := xor32 s (shl32 s 5) in
  s.

Definition rand_output (s : Z) : F := of_Z (ushr32 s 0) / of_Z two32.

Definition rand_call (s : Z) : F * Z :=
  let s' := xorshift32 s in (rand_output s', s').

(** [seedRandom(seed)]: the closure is represented by its captured [s]. *)
Definition seedRandom (seed : Z) : Z := ushr32 seed 0.

(** The state after [n] calls, and the number the [n]-th call returns
    (calls are numbered from 1). *)
Definition rand_state (s : Z) (n : nat) : Z := Nat.iter n xorshift32 s.

Definition rand_nth (s : Z) (n : nat) : F := rand_output (rand_state s n).
End Utilities.

(** ** The Three.js classes used by main.js

    [Vector3], [CubicBezierCurve3], [Curve] and [CurvePath] belong to the
    Three.js library, which main.js calls; they are transcribed from the
    library (src/math/Vector3.js, src/extras/core/Interpolations.js,
    Curve.js and CurvePath.js). A curve is not modified after its
    construction, so the arc lengths that [Curve] and [CurvePath] cache in
    [cacheArcLengths] and [cacheLengths] are computed once and passed along. *)

Module THREE.

Record Vector3 (F : Type) : Type := mkVector3 { x : F; y : F; z : F }.
Arguments mkVector3 {F} _ _ _.
Arguments x {F} _.
Arguments y {F} _.
Arguments z {F} _.

Record CubicBezierCurve3 (F : Type) : Type :=
  mkCurve { v0 : Vector3 F; v1 : Vector3 F; v2 : Vector3 F; v3 : Vector3 F }.
Arguments mkCurve {F} _ _ _ _.
Arguments v0 {F} _.
Arguments v1 {F} _.
Arguments v2 {F} _.
Arguments v3 {F} _.

Section Three.
Context {F : Type} `{Number F}.
Local Open Scope js_scope.

(** *** Vector3 *)

Definition addVectors (a b : Vector3 F) : Vector3 F :=
  mkVector3 (x a + x b) (y a + y b) (z a + z b).

Definition subVectors (a b : Vector3 F) : Vector3 F :=
  mkVector3 (x a - x b) (y a - y b) (z a - z b).

Definition multiplyScalar (v : Vector3 F) (s : F) : Vector3 F :=
  mkVector3 (x v * s) (y v * s) (z v * s).

(** [this.distanceToSquared(v)] and [this.distanceTo(v)] *)
Definition distanceToSquared (this v : Vector3 F) : F :=
  let dx := x this - x v in
  let dy := y this - y v in
  let dz := z this - z v in
  dx * dx + dy * dy + dz * dz.

Definition distanceTo (this v : Vector3 F) : F :=
  nsqrt (distanceToSquared this v).

(** *** Interpolations.js *)

Definition CubicBezierP0 (t p : F) : F :=
  let k := of_Z 1 - t in k * k * k * p.
Definition CubicBezierP1 (t p : F) : F :=
  let k := of_Z 1 - t in of_Z 3 * k * k * t * p.
Definition CubicBezierP2 (t p : F) : F :=
  of_Z 3 * (of_Z 1 - t) * t * t * p.
Definition CubicBezierP3 (t p : F) : F := t * t * t * p.

Definition CubicBezier (t p0 p1 p2 p3 : F) : F :=
  CubicBezierP0 t p0 + CubicBezierP1 t p1 + CubicBezierP2 t p2
  + CubicBezierP3 t p3.

(** *** CubicBezierCurve3 and Curve *)

Definition getPoint (c : CubicBezierCurve3 F) (t : F) : Vector3 F :=
  mkVector3
    (CubicBezier t (x (v0 c)) (x (v1 c)) (x (v2 c)) (x (v3 c)))
    (CubicBezier t (y (v0 c)) (y (v1 c)) (y (v2 c)) (y (v3 c)))
    (CubicBezier t (z (v0 c)) (z (v1 c)) (z (v2 c)) (z (v3 c))).

Definition arcLengthDivisions : nat := 200.

(** The loop of [Curve.getLengths], from [p] for [n] more rounds:
    the sums pushed on [cache], in order. *)
Fixpoint getLengths_loop (c : CubicBezierCurve3 F) (n p : nat)
    (last : Vector3 F) (sum : F) : list F :=
  match n with
  | O => []
  | S n' =>
      let current := getPoint c (of_nat p / of_nat arcLengthDivisions) in
      let sum := sum + distanceTo current last in
      sum :: getLengths_loop c n' (S p) current sum
  end.

Definition getLengths (c : CubicBezierCurve3 F) : list F :=
  of_Z 0 :: getLengths_loop c arcLengthDivisions 1 (getPoint c (of_Z 0))
              (of_Z 0).

(** [a[i]] on an array of numbers where the result is used as a
    number: an index outside the array reads [undefined]. *)
Definition index (a : list F) (i : Z) : F :=
  if (i <? 0)%Z then nan else nth (Z.to_nat i) a nan.

(** [lengths[lengths.length - 1]] *)
Definition lastLength (lengths : list F) : F :=
  index lengths (Z.of_nat (length lengths) - 1).

(** The binary search of [Curve.getUtoTmapping]: the value of [high]
    when the loop [while (low <= high)] is left. Every round shrinks
    the interval, so [fuel] rounds are enough once [fuel] is at least
    [high - low + 1] ([bsearch_fuel] below). *)
Fixpoint bsearch (fuel : nat) (arcLengths : list F) (target : F)
    (low high : Z) : Z :=
  match fuel with
  | O => high
  | S fuel' =>
      if (low <=? high)%Z then
        let i := (low + (high - low) / 2)%Z in
        let comparison := index arcLengths i - target in
        if comparison <? of_Z 0 then
          bsearch fuel' arcLengths target (i + 1)%Z high
        else if comparison >? of_Z 0 then
          bsearch fuel' arcLengths target low (i - 1)%Z
        else i
      else high
  end.

Definition getUtoTmapping (arcLengths : list F) (u : F) : F :=
  let il := Z.of_nat (length arcLengths) in
  let targetArcLength := u * index arcLengths (il - 1) in
  let i := bsearch (length arcLengths) arcLengths targetArcLength
             0%Z (il - 1)%Z in
  if index arcLengths i =? targetArcLength then
    of_Z i / of_Z (il - 1)
  else
    let lengthBefore := index arcLengths i in
    let lengthAfter := index arcLengths (i + 1) in
    let segmentLength := lengthAfter - lengthBefore in
    let segmentFraction :=
      (targetArcLength - lengthBefore) / segmentLength in
    (of_Z i + segmentFraction) / of_Z (il - 1).

(** [curve.getPointAt(u)], with the curve's arc lengths *)
Definition getPointAt (c : CubicBezierCurve3 F) (arcLengths : list F)
    (u : F) : Vector3 F :=
  getPoint c (getUtoTmapping arcLengths u).

(** *** CurvePath *)

(** [getCurveLengths]: the running sums of the curves' lengths. *)
Fixpoint getCurveLengths_loop (arcs : list (list F)) (sums : F)
    : list F :=
  match arcs with
  | [] => []
  | arc :: rest =>
      let sums := sums + lastLength arc in
      sums :: getCurveLengths_loop rest sums
  end.

Definition getCurveLengths (arcs : list (list F)) : list F :=
  getCurveLengths_loop arcs (of_Z 0).

(** The loop of [CurvePath.getPoint] over the curves, each with its arc
    lengths and its entry of [curveLengths]; [None] is the [null]
    returned when no entry reaches [d]. *)
Fixpoint getPoint_loop (d : F)
    (cs : list (CubicBezierCurve3 F * (list F * F)))
    : option (Vector3 F) :=
  match cs with
  | [] => None
  | (curve, (arc, curveLength)) :: rest =>
      if curveLength >=? d then
        let diff := curveLength - d in
        let segmentLength := lastLength arc in
        let u := if segmentLength =? of_Z 0 then of_Z 0
                 else of_Z 1 - diff / segmentLength in
        Some (getPointAt curve arc u)
      else getPoint_loop d rest
  end.

Definition CurvePath_getPoint (curves : list (CubicBezierCurve3 F))
    (arcs : list (list F)) (curveLengths : list F) (t : F)
    : option (Vector3 F) :=
  let d := t * lastLength curveLengths in
  getPoint_loop d (combine curves (combine arcs curveLengths)).

(** [path.getSpacedPoints(divisions)] of a path that is not closed:
    the points at [i / divisions] for [i = 0 .. divisions]. *)
Definition getSpacedPoints (curves : list (CubicBezierCurve3 F))
    (divisions : nat) : list (option (Vector3 F)) :=
  let arcs := map getLengths curves in
  let curveLengths := getCurveLengths arcs in
  map (fun i => CurvePath_getPoint curves arcs curveLengths
                  (of_nat i / of_nat divisions))
      (seq 0 (S divisions)).
End Three.
End THREE.

Import THREE.

(** ** World and genomes (main.js, lines 550-578 and 833-872) *)

Record World (F : Type) : Type := mkWorld {
  A : Vector3 F;                          (* start *)
  B : Vector3 F;                          (* goal *)
  speakerL : Vector3 F;
  speakerR : Vector3 F;
  baseSpeakerL : option (Vector3 F);      (* set by init *)
  baseSpeakerR : option (Vector3 F)
}.
Arguments mkWorld {F} _ _ _ _ _ _.
Arguments A {F} _.
Arguments B {F} _.
Arguments speakerL {F} _.
Arguments speakerR {F} _.
Arguments baseSpeakerL {F} _.
Arguments baseSpeakerR {F} _.

Record Params (F : Type) : Type := mkParams {
  popSize : nat;
  ctrlCount : nat;
  mutationProb : F;
  mutationScale : F;
  crossProb : F;
  stepsPerPath : nat;
  generations : nat
}.
Arguments mkParams {F} _ _ _ _ _ _ _.
Arguments popSize {F} _.
Arguments ctrlCount {F} _.
Arguments mutationProb {F} _.
Arguments mutationScale {F} _.
Arguments crossProb {F} _.
Arguments stepsPerPath {F} _.
Arguments generations {F} _.

Record Genome (F : Type) : Type := mkGenome {
  ctrl : list (Vector3 F);
  fitness : F
}.
Arguments mkGenome {F} _ _.
Arguments ctrl {F} _.
Arguments fitness {F} _.

Section Paths.
Context {F : Type} `{Number F}.
Local Open Scope js_scope.

(** The constants of main.js. *)
Definition WORLD0 : World F :=
  mkWorld (mkVector3 (of_Z (-16)) (of_Z 0) (of_Z 10))
          (mkVector3 (of_Z 16) (of_Z 0) (of_Z (-8)))
          (mkVector3 (of_Z (-10)) (of_Z 0) (of_Z (-6)))
          (mkVector3 (of_Z 12) (of_Z 0) (of_Z 6))
          None None.

Definition PARAMS0 : Params F :=
  mkParams 28 4 (lit 25 100) (of_Z 4) (lit 8 10) 140 45.

(** [pts[i]]: the loop of [pathPoints] only reads inside the array. *)
Definition undefinedVector : Vector3 F := mkVector3 nan nan nan.
Definition at_index (pts : list (Vector3 F)) (i : nat) : Vector3 F :=
  nth i pts undefinedVector.

(** The body of the loop of [pathPoints] for index [i]. *)
Definition segmentCurve (pts : list (Vector3 F)) (i : nat)
    : CubicBezierCurve3 F :=
  let p0 := at_index pts (Nat.max 0 (i - 1)) in
  let p1 := at_index pts i in
  let p2 := at_index pts (i + 1) in
  let p3 := at_index pts (Nat.min (length pts - 1) (i + 2)) in
  let t := lit 5 10 in
  let cp1 := addVectors p1 (multiplyScalar (subVectors p2 p0) (t / of_Z 3)) in
  let cp2 := addVectors p2 (multiplyScalar (subVectors p1 p3) (t / of_Z 3)) in
  mkCurve p1 cp1 cp2 p2.

Definition pathCurves (world : World F) (genome : Genome F)
    : list (CubicBezierCurve3 F) :=
  let pts := A world :: ctrl genome ++ [B world] in
  map (segmentCurve pts) (seq 0 (length pts - 1)).

(** [pathPoints(genome, steps)] *)
Definition pathPoints (world : World F) (genome : Genome F) (steps : nat)
    : list (option (Vector3 F)) :=
  getSpacedPoints (pathCurves world genome) steps.
End Paths.

Arguments pathPoints : simpl never.


(** ** Module-level state (main.js, lines 550-578 and 933-936)

    [rand] holds the state [s] captured by the closure of [seedRandom];
    [log] records, newest first, what the run shows: the calls of
    [updateHUD] and of [showBest]. *)

Inductive Event (F : Type) : Type :=
| HUD (gen : nat) (best : F) (target : String.string)
| ShowBest (genome : Genome F).
Arguments HUD {F} _ _ _.
Arguments ShowBest {F} _.

Record Globals (F : Type) : Type := mkGlobals {
  population : list (Genome F);
  gen : nat;
  rand : Z;
  TARGET : String.string;
  WORLD : World F;
  running : bool;
  animPath : list (Vector3 F);
  headVisible : bool;                    (* bestPathHead.visible *)
  lastBest : option (Genome F);
  log : list (Event F)
}.
Arguments mkGlobals {F} _ _ _ _ _ _ _ _ _ _.
Arguments population {F} _.
Arguments gen {F} _.
Arguments rand {F} _.
Arguments TARGET {F} _.
Arguments WORLD {F} _.
Arguments running {F} _.
Arguments animPath {F} _.
Arguments headVisible {F} _.
Arguments lastBest {F} _.
Arguments log {F} _.

(** A computation over the module-level state that may throw: [None] is an
    uncaught TypeError (a property read on [undefined] or [null]). *)
Definition M (F A : Type) : Type := Globals F -> option (A * Globals F).

Definition ret {F A} (a : A) : M F A := fun g => Some (a, g).
Definition bind {F A B} (c : M F A) (k : A -> M F B) : M F B :=
  fun g => match c g with
           | Some (a, g') => k a g'
           | None => None
           end.
Definition throw {F A} : M F A := fun _ => None.
(** Reads a global. *)
Definition gets {F A} (f : Globals F -> A) : M F A := fun g => Some (f g, g).
Definition modify {F} (f : Globals F -> Globals F) : M F unit :=
  fun g => Some (tt, f g).
(** [o] must be an object *)
Definition defined {F A} (o : option A) : M F A :=
  match o with Some a => ret a | None => throw end.

Declare Scope monad_scope.
Delimit Scope monad_scope with monad.
Notation "x <- c ;; k" := (bind c (fun x => k))
  (at level 61, c at next level, right associativity) : monad_scope.
Notation "c ;;; k" := (bind c (fun _ => k))
  (at level 61, right associativity) : monad_scope.

Section Setters.
Context {F : Type}.
Definition set_population (v : list (Genome F)) (g : Globals F) :=
  mkGlobals v (gen g) (rand g) (TARGET g) (WORLD g) (running g)
    (animPath g) (headVisible g) (lastBest g) (log g).
Definition set_gen (v : nat) (g : Globals F) :=
  mkGlobals (population g) v (rand g) (TARGET g) (WORLD g) (running g)
    (animPath g) (headVisible g) (lastBest g) (log g).
Definition set_rand (v : Z) (g : Globals F) :=
  mkGlobals (population g) (gen g) v (TARGET g) (WORLD g) (running g)
    (animPath g) (headVisible g) (lastBest g) (log g).
Definition set_TARGET (v : String.string) (g : Globals F) :=
  mkGlobals (population g) (gen g) (rand g) v (WORLD g) (running g)
    (animPath g) (headVisible g) (lastBest g) (log g).
Definition set_WORLD (v : World F) (g : Globals F) :=
  mkGlobals (population g) (gen g) (rand g) (TARGET g) v (running g)
    (animPath g) (headVisible g) (lastBest g) (log g).
Definition set_running (v : bool) (g : Globals F) :=
  mkGlobals (population g) (gen g) (rand g) (TARGET g) (WORLD g) v
    (animPath g) (headVisible g) (lastBest g) (log g).
Definition set_animPath (v : list (Vector3 F)) (g : Globals F) :=
  mkGlobals (population g) (gen g) (rand g) (TARGET g) (WORLD g) (running g)
    v (headVisible g) (lastBest g) (log g).
Definition set_headVisible (v : bool) (g : Globals F) :=
  mkGlobals (population g) (gen g) (rand g) (TARGET g) (WORLD g) (running g)
    (animPath g) v (lastBest g) (log g).
Definition set_lastBest (v : option (Genome F)) (g : Globals F) :=
  mkGlobals (population g) (gen g) (rand g) (TARGET g) (WORLD g) (running g)
    (animPath g) (headVisible g) v (log g).
Definition emit (e : Event F) (g : Globals F) :=
  mkGlobals (population g) (gen g) (rand g) (TARGET g) (WORLD g) (running g)
    (animPath g) (headVisible g) (lastBest g) (e :: log g).
Definition set_speakers (l r : Vector3 F) (w : World F) :=
  mkWorld (A w) (B w) l r (baseSpeakerL w) (baseSpeakerR w).
End Setters.

(** ** Paths and fitness (main.js, lines 17-27 and 833-930) *)

Section Fitness.
Context {F : Type} `{Number F}.
Local Open Scope js_scope.

(** [intensityAtPoint(point, speakerPos, power)] *)
Definition intensityAtPoint (point speakerPos : Vector3 F) (power : F) : F :=
  let d := distanceTo point speakerPos + lit 2 10 in
  let I := power / (d * d) in
  I.

(** The choice of [loud] in the enhanced [evaluateFitness] (line 883). *)
Definition loudness (TARGET : String.string) (Il Ir : F) : F :=
  if String.eqb TARGET "left"%string then Il
  else if String.eqb TARGET "right"%string then Ir
  else nmax Il Ir.

(** The loop of [evaluateFitness] from some index on: [prev] is
    [pts[i-1]], absent at [i = 0]; a [null] point throws. *)
Fixpoint fitness_loop (loud : F -> F -> F) (world : World F)
    (pts : list (option (Vector3 F))) (prev : option (Vector3 F))
    (sum len : F) : option (F * F) :=
  match pts with
  | [] => Some (sum, len)
  | None :: _ => None
  | Some p :: rest =>
      let Il := intensityAtPoint p (speakerL world) (of_Z 1) in
      let Ir := intensityAtPoint p (speakerR world) (of_Z 1) in
      let sum := sum + loud Il Ir in
      let len := match prev with
                 | Some q => len + distanceTo q p
                 | None => len
                 end in
      fitness_loop loud world rest (Some p) sum len
  end.

(** [evaluateFitness(genome)] with the choice of [loud] left open: the
    number returned and the genome after the call. *)
Definition evaluateFitness_with (loud : F -> F -> F) (world : World F)
    (genome : Genome F) : option (F * Genome F) :=
  let pts := pathPoints world genome 80 in
  match fitness_loop loud world pts None (of_Z 0) (of_Z 0) with
  | None => None
  | Some (sum, len) =>
      let distanceCost := len / of_Z 80 in
      let goalBonus := of_Z 1 in
      let fitness := sum - lit 25 100 * distanceCost + goalBonus in
      Some (fitness, mkGenome (ctrl genome) fitness)
  end.

(** [evaluateFitness] of the enhanced version (lines 874-892) reads the
    globals [WORLD] and [TARGET]; the first version (lines 282-299) always
    takes [Math.max(Il, Ir)]. *)
Definition evaluateFitness (world : World F) (TARGET : String.string)
    (genome : Genome F) : option (F * Genome F) :=
  evaluateFitness_with (loudness TARGET) world genome.

Definition evaluateFitness_v1 (world : World F) (genome : Genome F)
    : option (F * Genome F) :=
  evaluateFitness_with nmax world genome.

(** [population.forEach(evaluateFitness)] *)
Fixpoint forEach_evaluateFitness (world : World F) (TARGET : String.string)
    (pop : list (Genome F)) : option (list (Genome F)) :=
  match pop with
  | [] => Some []
  | g :: rest =>
      match evaluateFitness world TARGET g with
      | None => None
      | Some (_, g') =>
          match forEach_evaluateFitness world TARGET rest with
          | None => None
          | Some rest' => Some (g' :: rest')
          end
      end
  end.

(** [pop.sort((a,b) => b.fitness - a.fitness)]: the sort of an array is
    stable; an element goes before the first one the comparator puts
    after it. *)
Definition compareFitness (a b : Genome F) : F := fitness b - fitness a.

Fixpoint insertSorted (g : Genome F) (sorted : list (Genome F))
    : list (Genome F) :=
  match sorted with
  | [] => [g]
  | h :: rest =>
      if compareFitness h g >? of_Z 0 then g :: h :: rest
      else h :: insertSorted g rest
  end.

Definition sortByFitness (pop : list (Genome F)) : list (Genome F) :=
  fold_left (fun sorted g => insertSorted g sorted) pop [].

(** [p.clone()] and [cloneGenome(g)] *)
Definition clone (p : Vector3 F) : Vector3 F := mkVector3 (x p) (y p) (z p).
Definition cloneGenome (g : Genome F) : Genome F :=
  mkGenome (map clone (ctrl g)) (fitness g).
End Fitness.


(** ** Genomes and operators (main.js, lines 833-851 and 894-930) *)

Section Evolution.
Context {F : Type} `{Number F}.
Variable PARAMS : Params F.
Local Open Scope js_scope.
Local Open Scope monad_scope.

(** [rand()]: one call of the closure held by the global [rand]. *)
Definition rand_ : M F F :=
  fun g => let (v, s) := rand_call (rand g) in Some (v, set_rand s g).

(** The loop of [makeGenome] from index [i], for [n] more rounds. *)
Fixpoint makeGenome_loop (n i : nat) : M F (list (Vector3 F)) :=
  match n with
  | O => ret []
  | S n' =>
      world <- gets WORLD ;;
      let t := of_nat (i + 1) / of_nat (ctrlCount PARAMS + 1) in
      r1 <- rand_ ;;
      r2 <- rand_ ;;
      let p := mkVector3
                 (lerp (x (A world)) (x (B world)) t
                  + (r1 * of_Z 2 - of_Z 1) * of_Z 8)
                 (of_Z 0)
                 (lerp (z (A world)) (z (B world)) t
                  + (r2 * of_Z 2 - of_Z 1) * of_Z 6) in
      pts <- makeGenome_loop n' (S i) ;;
      ret (p :: pts)
  end.

Definition makeGenome : M F (Genome F) :=
  pts <- makeGenome_loop (ctrlCount PARAMS) 0 ;;
  ret (mkGenome pts neg_infinity).

Fixpoint makeInitialPopulation_loop (n : nat) : M F (list (Genome F)) :=
  match n with
  | O => ret []
  | S n' =>
      g <- makeGenome ;;
      pop <- makeInitialPopulation_loop n' ;;
      ret (g :: pop)
  end.

Definition makeInitialPopulation : M F (list (Genome F)) :=
  makeInitialPopulation_loop (popSize PARAMS).

(** [a[i]] for an index that is a number: [undefined] outside the array. *)
Definition element {T} (a : list T) (i : Z) : option T :=
  if (i <? 0)%Z then None else nth_error a (Z.to_nat i).

(** The loop of [tournamentSelect] for [k] more rounds. *)
Fixpoint tournament_loop (pop : list (Genome F)) (k : nat)
    (best : option (Genome F)) : M F (option (Genome F)) :=
  match k with
  | O => ret best
  | S k' =>
      r <- rand_ ;;
      g <- defined (element pop (to_int32 (r * of_nat (length pop)))) ;;
      let best := match best with
                  | None => Some g
                  | Some b => if fitness g >? fitness b then Some g
                              else Some b
                  end in
      tournament_loop pop k' best
  end.

Definition tournamentSelect (pop : list (Genome F)) : M F (Genome F) :=
  best <- tournament_loop pop 3 None ;;
  best <- defined best ;;
  ret (cloneGenome best).

(** The loop of [crossover] from index [i], for [n] more rounds. *)
Fixpoint crossover_loop (a b : Genome F) (n i : nat)
    : M F (list (Vector3 F)) :=
  match n with
  | O => ret []
  | S n' =>
      r <- rand_ ;;
      let pickA := r <? lit 5 10 in
      t <- rand_ ;;
      pa <- defined (nth_error (ctrl a) i) ;;
      pb <- defined (nth_error (ctrl b) i) ;;
      let x' := if pickA then lerp (x pa) (x pb) t
                else lerp (x pb) (x pa) t in
      let z' := if pickA then lerp (z pa) (z pb) t
                else lerp (z pb) (z pa) t in
      rest <- crossover_loop a b n' (S i) ;;
      ret (mkVector3 x' (of_Z 0) z' :: rest)
  end.

Definition crossover (a b : Genome F) : M F (Genome F) :=
  pts <- crossover_loop a b (ctrlCount PARAMS) 0 ;;
  ret (mkGenome pts neg_infinity).

(** The loop of [mutate] over the control points of the clone. *)
Fixpoint mutate_loop (pts : list (Vector3 F)) : M F (list (Vector3 F)) :=
  match pts with
  | [] => ret []
  | p :: rest =>
      r <- rand_ ;;
      p' <- (if r <? mutationProb PARAMS then
               r1 <- rand_ ;;
               let x' := x p + (r1 * of_Z 2 - of_Z 1) * mutationScale PARAMS in
               r2 <- rand_ ;;
               let z' := z p + (r2 * of_Z 2 - of_Z 1) * mutationScale PARAMS
                               * lit 8 10 in
               ret (mkVector3 x' (y p) z')
             else ret p) ;;
      rest' <- mutate_loop rest ;;
      ret (p' :: rest')
  end.

Definition mutate (g : Genome F) : M F (Genome F) :=
  let m := cloneGenome g in
  pts <- mutate_loop (ctrl m) ;;
  ret (mkGenome pts (fitness m)).

(** ** Evolution loop (main.js, lines 932-1054) *)

(** The first loop of [showBest] reads [p.x] of every point. *)
Fixpoint allPoints (pts : list (option (Vector3 F)))
    : option (list (Vector3 F)) :=
  match pts with
  | [] => Some []
  | None :: _ => None
  | Some p :: rest =>
      match allPoints rest with
      | None => None
      | Some rest' => Some (p :: rest')
      end
  end.

Definition showBest (genome : Genome F) : M F unit :=
  world <- gets WORLD ;;
  pts <- defined (allPoints (pathPoints world genome 180)) ;;
  modify (set_animPath pts) ;;;
  modify (emit (ShowBest genome)) ;;;
  modify (set_headVisible false).

Definition playBestPath : M F unit := modify (set_headVisible true).

Definition updateHUD : M F unit :=
  n <- gets gen ;;
  pop <- gets population ;;
  let best := match pop with
              | g0 :: _ => fitness g0
              | [] => of_Z 0
              end in
  target <- gets TARGET ;;
  let tgt := if String.eqb target "left"%string then "Left"%string
             else if String.eqb target "right"%string then "Right"%string
             else "Either"%string in
  modify (emit (HUD n best tgt)).

(** [population.forEach(evaluateFitness)] on a given array. *)
Definition evaluateAll (pop : list (Genome F)) : M F (list (Genome F)) :=
  world <- gets WORLD ;;
  target <- gets TARGET ;;
  defined (forEach_evaluateFitness world target pop).

(** The loop [while (newPop.length < PARAMS.popSize)] of [stepGen]. Each
    round pushes one genome, so [fuel] rounds are enough once [fuel] is at
    least [popSize - newPop.length] ([breed_loop_fuel] below). *)
Fixpoint breed_loop (fuel : nat) (newPop : list (Genome F))
    : M F (list (Genome F)) :=
  match fuel with
  | O => ret newPop
  | S fuel' =>
      if (length newPop <? popSize PARAMS)%nat then
        pop <- gets population ;;
        p1 <- tournamentSelect pop ;;
        p2 <- tournamentSelect pop ;;
        r <- rand_ ;;
        c <- (if r <? crossProb PARAMS then crossover p1 p2
              else r' <- rand_ ;;
                   ret (if r' <? lit 5 10 then cloneGenome p1
                        else cloneGenome p2)) ;;
        c <- mutate c ;;
        breed_loop fuel' (newPop ++ [c])
      else ret newPop
  end.

(** One call of the closure [stepGen], whose counter is [i]: [Some] of
    the counter for the call that [setTimeout] schedules, [None] when
    the run is over. *)
Definition stepGen (play : bool) (i : nat) : M F (option nat) :=
  if (generations PARAMS <=? i)%nat then
    modify (set_running false) ;;;
    (if play then playBestPath else ret tt) ;;;
    ret None
  else
    modify (fun g => set_gen (gen g + 1) g) ;;;
    (* elitism *)
    pop <- gets population ;;
    elite <- defined (nth_error pop 0) ;;
    newPop <- breed_loop (popSize PARAMS) [cloneGenome elite] ;;
    newPop <- evaluateAll newPop ;;
    let newPop := sortByFitness newPop in
    modify (set_population newPop) ;;;
    first <- defined (nth_error newPop 0) ;;
    best <- gets lastBest ;;
    (match best with
     | Some b =>
         if fitness first >? fitness b then
           modify (set_lastBest (Some (cloneGenome first))) ;;;
           showBest (cloneGenome first)
         else ret tt
     | None =>
         modify (set_lastBest (Some (cloneGenome first))) ;;;
         showBest (cloneGenome first)
     end) ;;;
    updateHUD ;;;
    ret (Some (i + 1)%nat).

(** [jitterSpeakers(amount)] (lines 1126-1151), without the camera. *)
Definition jitterSpeakers (amount : F) : M F unit :=
  w <- gets WORLD ;;
  let baseL := match baseSpeakerL w with
               | Some b => b
               | None => clone (speakerL w)
               end in
  let baseR := match baseSpeakerR w with
               | Some b => b
               | None => clone (speakerR w)
               end in
  let j := (r <- rand_ ;; ret ((r * of_Z 2 - of_Z 1) * amount)) in
  j1 <- j ;; j2 <- j ;;
  let L := mkVector3 (x baseL + j1) (of_Z 0) (z baseL + j2) in
  j3 <- j ;; j4 <- j ;;
  let R := mkVector3 (x baseR + j3) (of_Z 0) (z baseR + j4) in
  (* keep them separate (min distance) *)
  let minDist := of_Z 6 in
  let R := if distanceTo L R <? minDist then
             (* push R away from L along x *)
             if x R <=? x L then mkVector3 (x L + minDist) (y R) (z R)
             else mkVector3 (x L - minDist) (y R) (z R)
           else R in
  modify (fun g => set_WORLD (set_speakers L R (WORLD g)) g).

(** What [runEvolution] does after the PRNG, the speakers and the target
    are set (lines 946-953, and 350-357 of the first version). *)
Definition evolveInitial : M F unit :=
  pop <- makeInitialPopulation ;;
  (* evaluate initial *)
  pop <- evaluateAll pop ;;
  let pop := sortByFitness pop in
  modify (set_population pop) ;;;
  first <- defined (nth_error pop 0) ;;
  modify (set_lastBest (Some (cloneGenome first))) ;;;
  showBest (cloneGenome first) ;;;
  updateHUD.

(** [runEvolution(play, target)] up to the declaration of the counter
    [i] of its closure [stepGen]: [Some 0], the counter, or [None] when
    a run is in progress and [runEvolution] returns at once. [random] is
    the number [Math.random()] returns. *)
Definition runEvolution_begin (play : bool) (target : String.string)
    (random : F) : M F (option nat) :=
  busy <- gets running ;;
  if busy then ret None
  else
    modify (set_running true) ;;;
    modify (set_gen 0) ;;;
    modify (set_rand
              (seedRandom (to_int32 (random * of_Z 1000000000)))) ;;;
    (* jitter speaker positions only on reseed (not on autoplay) *)
    (if play then ret tt else jitterSpeakers (lit 25 10)) ;;;
    (* TARGET = target || TARGET *)
    modify (fun g => set_TARGET
                       (if String.eqb target ""%string then TARGET g else target)
                       g) ;;;
    evolveInitial ;;;
    ret (Some 0%nat).

(** [runEvolution(play, target)], which ends with a first call of
    [stepGen]. *)
Definition runEvolution (play : bool) (target : String.string) (random : F)
    : M F (option nat) :=
  next <- runEvolution_begin play target random ;;
  match next with
  | Some i => stepGen play i
  | None => ret None
  end.

(** [runEvolution(play)] of the first version (lines 345-401): no jitter
    and no target. *)
Definition runEvolution_v1_begin (play : bool) (random : F)
    : M F (option nat) :=
  busy <- gets running ;;
  if busy then ret None
  else
    modify (set_running true) ;;;
    modify (set_gen 0) ;;;
    modify (set_rand
              (seedRandom (to_int32 (random * of_Z 1000000000)))) ;;;
    evolveInitial ;;;
    ret (Some 0%nat).

Definition runEvolution_v1 (play : bool) (random : F) : M F (option nat) :=
  next <- runEvolution_v1_begin play random ;;
  match next with
  | Some i => stepGen play i
  | None => ret None
  end.

(** The timers: at most [n] further calls of [stepGen], each scheduled
    by the one before. *)
Fixpoint timers (n : nat) (play : bool) (next : option nat)
    : M F (option nat) :=
  match n, next with
  | S n', Some i => next' <- stepGen play i ;; timers n' play next'
  | _, _ => ret next
  end.

(** A whole run: [runEvolution] and the timers it sets off; the run
    makes [generations + 1] calls of [stepGen], the first one inside
    [runEvolution]. *)
Definition run (play : bool) (target : String.string) (random : F)
    : M F (option nat) :=
  next <- runEvolution play target random ;;
  timers (generations PARAMS) play next.

(** The module-level state when the script is loaded (lines 554-558
    and 933-936), with the base positions of the speakers that [init]
    caches (lines 659-660). *)
Definition blank : Globals F :=
  mkGlobals [] 0 (seedRandom 12345) "either"%string
    (mkWorld (A WORLD0) (B WORLD0) (speakerL WORLD0) (speakerR WORLD0)
       (Some (clone (speakerL WORLD0))) (Some (clone (speakerR WORLD0))))
    false [] false None [].

(** What [init] does to it (lines 656-661): a first population, from the
    seed 12345, and the HUD. *)
Definition init : M F unit :=
  pop <- makeInitialPopulation ;;
  modify (set_population pop) ;;;
  updateHUD.
End Evolution.

(** What a run shows, oldest first. *)
Definition trace {F} (g : Globals F) : list (Event F) := rev (log g).

(** The (generation, best fitness) pairs of the HUD, oldest first. *)
Fixpoint hudPairs {F} (events : list (Event F)) : list (nat * F) :=
  match events with
  | [] => []
  | HUD n best _ :: rest => (n, best) :: hudPairs rest
  | ShowBest _ :: rest => hudPairs rest
  end.

(** ** The fitness of the specification

    The reward of a point, the sum of a list of numbers taken from left to
    right, and the lengths of the segments between consecutive points. *)

Section SpecFitness.
Context {F : Type} `{Number F}.
Local Open Scope js_scope.

Definition reward (TARGET : String.string) (world : World F)
    (p : Vector3 F) : F :=
  loudness TARGET (intensityAtPoint p (speakerL world) (of_Z 1))
                  (intensityAtPoint p (speakerR world) (of_Z 1)).

Definition sumFrom (start : F) (l : list F) : F := fold_left nadd l start.
Definition sum (l : list F) : F := sumFrom (of_Z 0) l.

Fixpoint segmentLengths (pts : list (Vector3 F)) : list F :=
  match pts with
  | p :: (q :: _) as rest => distanceTo p q :: segmentLengths rest
  | _ => []
  end.

(** [S - lambda * (len / sampleSteps) + goalBonus] *)
Definition fitnessFormula (TARGET : String.string) (world : World F)
    (pts : list (Vector3 F)) : F :=
  let S := sum (map (reward TARGET world) pts) in
  let len := sum (segmentLengths pts) in
  S - lit 25 100 * (len / of_Z 80) + of_Z 1.
End SpecFitness.

(** A sequence in which every element is the one before it or strictly
    greater than it. *)
Definition stays_or_rises {F} `{Number F} (a b : F) : Prop :=
  a = b \/ nltb a b = true.

(** The genome tracked as best so far after the first [k] calls of
    [stepGen] of a run; for [k = 0], after the initial population is
    evaluated. *)
Definition bestEverAfter {F} `{Number F} (PARAMS : Params F) (play : bool)
    (target : String.string) (random : F) (k : nat) (g : Globals F)
    : option (Genome F) :=
  match bind (runEvolution_begin PARAMS play target random)
             (timers PARAMS k play) g with
  | Some (_, g') => lastBest g'
  | None => None
  end.

(** The state [g] with nothing shown yet. *)
Definition clearLog {F} (g : Globals F) : Globals F :=
  mkGlobals (population g) (gen g) (rand g) (TARGET g) (WORLD g) (running g)
    (animPath g) (headVisible g) (lastBest g) [].

(** ** Notions used in the statements and in the proofs *)

Section Notions.
Context {F : Type} `{Number F}.
Local Open Scope js_scope.

(** The points the loop of [evaluateFitness] has yet to measure between:
    [pts], after [pts[i-1]] when there is one. *)
Definition withPrev (prev : option (Vector3 F)) (pts : list (Vector3 F))
    : list (Vector3 F) :=
  match prev with Some q => q :: pts | None => pts end.

(** Two states that agree on what the operators read. *)
Definition reads_same (g1 g2 : Globals F) : Prop :=
  rand g1 = rand g2 /\ WORLD g1 = WORLD g2 /\ TARGET g1 = TARGET g2.

(** A computation that reads [rand], [WORLD] and [TARGET] at most, and
    writes [rand] at most. *)
Definition rand_only {A} (c : M F A) : Prop :=
  forall g1 g2, reads_same g1 g2 ->
    match c g1, c g2 with
    | Some (a1, g1'), Some (a2, g2') =>
        a1 = a2 /\ exists s, g1' = set_rand s g1 /\ g2' = set_rand s g2
    | None, None => True
    | _, _ => False
    end.

(** What holds between two calls of [stepGen]: [next] is the counter of
    the call to come, if there is one. *)
Definition between_steps (PARAMS : Params F) (next : option nat)
    (g : Globals F) : Prop :=
  length (population g) = popSize PARAMS
  /\ match next with
     | Some i => gen g = i /\ (i <= generations PARAMS)%nat
     | None => (gen g <= generations PARAMS)%nat
     end.

(** Two states that differ at most in what a run overwrites before it
    reads it: the population, the best genome, the points of the shown
    path and the visibility of the head; and, for [agree_but_target],
    the target. *)
Definition agree_but_target (g1 g2 : Globals F) : Prop :=
  gen g1 = gen g2 /\ rand g1 = rand g2 /\ WORLD g1 = WORLD g2
  /\ running g1 = running g2 /\ log g1 = log g2.

Definition agree (g1 g2 : Globals F) : Prop :=
  agree_but_target g1 g2 /\ TARGET g1 = TARGET g2.

(** A computation that gives the same result on two such states and
    leaves two such states. *)
Definition respects {A} (c : M F A) : Prop :=
  forall g1 g2, agree_but_target g1 g2 ->
    match c g1, c g2 with
    | Some (a1, g1'), Some (a2, g2') =>
        a1 = a2 /\ agree_but_target g1' g2' /\ TARGET g1' = TARGET g1
        /\ TARGET g2' = TARGET g2
    | None, None => True
    | _, _ => False
    end.

(** The base position of a speaker: [WORLD.baseSpeakerL ||
    WORLD.speakerL.clone()]. *)
Definition basePosition (base : option (Vector3 F)) (speaker : Vector3 F)
    : Vector3 F :=
  match base with Some b => b | None => clone speaker end.

(** The [k]-th jitter that [jitterSpeakers] draws from the state [s] of
    the PRNG. *)
Definition jitter (amount : F) (s : Z) (k : nat) : F :=
  (rand_nth s k * of_Z 2 - of_Z 1) * amount.

(** The positions [jitterSpeakers] gives the two speakers before it
    looks at their distance. *)
Definition jitteredL (amount : F) (g : Globals F) : Vector3 F :=
  let b := basePosition (baseSpeakerL (WORLD g)) (speakerL (WORLD g)) in
  mkVector3 (x b + jitter amount (rand g) 1) (of_Z 0)
            (z b + jitter amount (rand g) 2).

Definition jitteredR (amount : F) (g : Globals F) : Vector3 F :=
  let b := basePosition (baseSpeakerR (WORLD g)) (speakerR (WORLD g)) in
  mkVector3 (x b + jitter amount (rand g) 3) (of_Z 0)
            (z b + jitter amount (rand g) 4).

Definition separated (L R : Vector3 F) : Vector3 F :=
  if distanceTo L R <? of_Z 6 then
    if x R <=? x L then mkVector3 (x L + of_Z 6) (y R) (z R)
    else mkVector3 (x L - of_Z 6) (y R) (z R)
  else R.
End Notions.

Section RealNotions.
Local Open Scope R_scope.

(** The point [getLengths] samples at round [p]. *)
Definition sample (c : CubicBezierCurve3 R) (p : nat) : Vector3 R :=
  getPoint c (of_nat p / of_nat arcLengthDivisions)%js.

(** Curves that start at [a], each one where the one before ends, and
    end at [b]. *)
Fixpoint chained (a : Vector3 R) (cs : list (CubicBezierCurve3 R))
    (b : Vector3 R) : Prop :=
  match cs with
  | [] => a = b
  | c :: rest => v0 c = a /\ chained (v3 c) rest b
  end.

(** The length of the path after the curves [cs], from the length
    [sums] before them. *)
Fixpoint totalLength (cs : list (CubicBezierCurve3 R)) (sums : R) : R :=
  match cs with
  | [] => sums
  | c :: rest => totalLength rest (sums + lastLength (getLengths c))
  end.

(** The loop of [CurvePath.getPoint] over the curves [cs] that come
    after a length of [sums]. *)
Definition getPoint_from (cs : list (CubicBezierCurve3 R)) (sums d : R)
    : option (Vector3 R) :=
  getPoint_loop d
    (combine cs (combine (map getLengths cs)
                   (getCurveLengths_loop (map getLengths cs) sums))).
End RealNotions.

(** ** Concrete inputs

    A genome, a small set of parameters (6 genomes, 3 generations) and
    runs on binary64 numbers. *)

Definition sampleGenome : Genome float :=
  mkGenome [mkVector3 (-9)%float 0%float 7%float;
            mkVector3 (-3)%float 0%float 1%float;
            mkVector3 3%float 0%float (-2)%float;
            mkVector3 10%float 0%float (-5)%float]
           neg_infinity.

Definition sampleFitness : float :=
  Eval vm_compute in
    match evaluateFitness WORLD0 "either"%string sampleGenome with
    | Some (f, _) => f
    | None => nan
    end.

Definition P1 : Params float :=
  mkParams 6 4 (lit 25 100) (of_Z 4) (lit 8 10) 140 3.

(** The state after [init] with the small parameters. *)
Definition loaded : Globals float :=
  Eval vm_compute in
    match init P1 blank with Some (_, g) => g | None => blank end.

(** Another state a run can start from: the one an earlier run left. *)
Definition afterRun : Globals float :=
  Eval vm_compute in
    match run P1 true "left" 0.25%float loaded with
    | Some (_, g) => g
    | None => blank
    end.

(** Two numbers [Math.random()] can return that give the same seed,
    500000000. *)
Definition random1 : float := 0.5%float.
Definition random2 : float := Eval vm_compute in (0.5 + 0x1p-40)%float.

(** The end of a whole run drawn from [random], started in [g] with
    nothing shown yet. *)

Definition runFrom (random : float) (g : Globals float)
    : option nat * Globals float :=
  match run P1 true "either" random (clearLog g) with
  | Some r => r
  | None => (None, blank)
  end.

Definition endOfRun1 : option nat * Globals float :=
  Eval vm_compute in runFrom random1 loaded.
Definition endOfRun2 : option nat * Globals float :=
  Eval vm_compute in runFrom random2 afterRun.

(** The state after the first two calls of [stepGen] of a run. *)
Definition afterTwoTimers : option nat * Globals float :=
  Eval vm_compute in
    match bind (runEvolution_begin P1 true "either" random1)
            (timers P1 2 true)
            loaded with
    | Some r => r
    | None => (None, blank)
    end.

(** The best genome so far after the first [k] calls of [stepGen]. *)
Definition bestAfter (k : nat) : Genome float :=
  match bestEverAfter P1 true "either" random1 k loaded with
  | Some b => b
  | None => sampleGenome
  end.
Definition bestAfter0 : Genome float := Eval vm_compute in bestAfter 0.
Definition bestAfter1 : Genome float := Eval vm_compute in bestAfter 1.

(** ** Further notions: genomes, populations and the record of a run *)

Section MoreNotions.
Context {F : Type} `{Number F}.
Local Open Scope js_scope.

(** A genome as [makeGenome] builds it: [ctrlCount] control points, all
    in the XZ plane. *)
Definition wellFormed (PARAMS : Params F) (g : Genome F) : Prop :=
  length (ctrl g) = ctrlCount PARAMS
  /\ Forall (fun p => y p = of_Z 0) (ctrl g).

(** A computation that returns on the state [g]. *)
Definition succeeds {A} (c : M F A) (g : Globals F) : Prop :=
  exists r, c g = Some r.

(** A genome whose fitness field holds what the evaluator returns for
    it in the world [world] with the target [target]. *)
Definition evaluated (world : World F) (target : String.string)
    (g : Genome F) : Prop :=
  evaluateFitness world target g = Some (fitness g, g).
End MoreNotions.

Section RecordNotions.
Context {F : Type} `{Number F}.

(** What holds of the state between two calls of [stepGen] of a run that
    started with nothing shown: the generation counter is [k], the run
    is marked as in progress, the head is hidden and the HUD has shown
    the generations 0 to [k], once each and in order. *)
Definition recorded (k : nat) (g : Globals F) : Prop :=
  gen g = k /\ running g = true /\ headVisible g = false
  /\ map fst (hudPairs (trace g)) = seq 0 (S k).
End RecordNotions.

Section StateNotions.
Context {F : Type} `{Number F}.

(** Every genome of the state, in the population or kept as the best one,
    has [ctrlCount] control points, all in the plane [y = 0]. *)
Definition wellFormedState (PARAMS : Params F) (g : Globals F) : Prop :=
  Forall (wellFormed PARAMS) (population g)
  /\ exists b, lastBest g = Some b /\ wellFormed PARAMS b.
End StateNotions.

Section Picking.
Context {F : Type} `{Number F}.
Variable PARAMS : Params F.
Local Open Scope monad_scope.

(** What the click handler of the canvas does when the ray hits a
    speaker (main.js, lines 680-688): [side] is ["left"] or ["right"]. *)
Definition pickSpeaker (side : String.string) (random : F)
    : M F (option nat) :=
  modify (set_TARGET side) ;;;
  updateHUD ;;;
  runEvolution PARAMS true side random.
End Picking.

Section OrderNotions.
Local Open Scope R_scope.

(** A population in the order the sort leaves: no genome is fitter than
    one before it. *)
Definition descending (pop : list (Genome R)) : Prop :=
  StronglySorted (fun a b => fitness b <= fitness a) pop.

(** What elitism keeps true between two calls of [stepGen]: the
    population is evaluated in the current world for the current target
    and sorted, the best genome kept is as fit as [population[0]], and
    the best fitness the HUD has shown never went down and never
    exceeded that of [population[0]]. *)
Definition elitist (g : Globals R) : Prop :=
  Forall (evaluated (WORLD g) (TARGET g)) (population g)
  /\ descending (population g)
  /\ exists first b,
       nth_error (population g) 0 = Some first
       /\ lastBest g = Some b /\ fitness b = fitness first
       /\ Sorted Rle (map snd (hudPairs (trace g)))
       /\ forall v, In v (map snd (hudPairs (trace g))) -> v <= fitness first.
End OrderNotions.

(** ** The 2D sketch (unnamed/part_000)

    The SVG sketch draws candidate paths through four control points
    with a Catmull-Rom spline of its own. *)

Module Svg.

Record Point (F : Type) : Type := mkPoint { px : F; py : F }.
Arguments mkPoint {F} _ _.
Arguments px {F} _.
Arguments py {F} _.

Section Sketch.
Context {F : Type} `{Number F}.
Local Open Scope js_scope.

(** World points (lines 8-11) *)
Definition A : Point F := mkPoint (of_Z 120) (of_Z 560).
Definition B : Point F := mkPoint (of_Z 1040) (of_Z 160).

(** Unary minus: [-a] is [-1 * a], exactly. *)
Definition neg (a : F) : F := of_Z (-1) * a.

(** [cmp(a,b,c,d)] inside [catmull(i,t)] (line 36) *)
Definition cmp (t a b c d : F) : F :=
  let t2 := t * t in
  let t3 := t2 * t in
  lit 5 10 * ((of_Z 2 * b) + (neg a + c) * t
              + (of_Z 2 * a - of_Z 5 * b + of_Z 4 * c - d) * t2
              + (neg a + of_Z 3 * b - of_Z 3 * c + d) * t3).

(** [catmull(i,t)] (lines 33-38): reading [.x] of an element that is
    not there throws. *)
Definition catmull (p : list (Point F)) (i : nat) (t : F)
    : option (Point F) :=
  match nth_error p (Nat.max 0 (i - 1)), nth_error p i,
        nth_error p (i + 1),
        nth_error p (Nat.min (length p - 1) (i + 2)) with
  | Some p0, Some p1, Some p2, Some p3 =>
      Some (mkPoint (cmp t (px p0) (px p1) (px p2) (px p3))
                    (cmp t (py p0) (py p1) (py p2) (py p3)))
  | _, _, _, _ => None
  end.

(** The inner loop of [bezierPoints] (line 40) from [j] on, where [q] is
    [n/(p.length-1)]; the loop makes at most [n] rounds, and [fuel]
    bounds the rounds left. *)
Fixpoint segmentPoints (p : list (Point F)) (i : nat) (q : F)
    (fuel j : nat) : option (list (Point F)) :=
  match fuel with
  | O => Some []
  | S fuel' =>
      if of_nat j <? q then
        match catmull p i (of_nat j / nmax (of_Z 1) (q - of_Z 1)) with
        | None => None
        | Some pt =>
            match segmentPoints p i q fuel' (S j) with
            | None => None
            | Some rest => Some (pt :: rest)
            end
        end
      else Some []
  end.

(** The outer loop (line 39) over the segments [ids]. *)
Fixpoint segments (p : list (Point F)) (q : F) (n : nat) (ids : list nat)
    : option (list (Point F)) :=
  match ids with
  | [] => Some []
  | i :: rest =>
      match segmentPoints p i q n 0 with
      | None => None
      | Some out =>
          match segments p q n rest with
          | None => None
          | Some more => Some (out ++ more)
          end
      end
  end.

(** [bezierPoints(ctrl, n)] (lines 30-43) *)
Definition bezierPoints (ctrl : list (Point F)) (n : nat)
    : option (list (Point F)) :=
  let p := A :: ctrl ++ [B] in
  let q := of_nat n / of_nat (length p - 1) in
  segments p q n (seq 0 (length p - 1)).
End Sketch.
End Svg.

(** * Properties *)

(** ** The PRNG *)

Lemma xorshift32_zero : xorshift32 0 = 0%Z.
Proof. reflexivity. Qed.

Lemma rand_state_zero (n : nat) : rand_state 0 n = 0%Z.
Proof.
  unfold rand_state. induction n as [|n IH]; simpl.
  - reflexivity.
  - rewrite IH. apply xorshift32_zero.
Qed.

Lemma toUint32_range (z : Z) : (0 <= toUint32 z < two32)%Z.
Proof. unfold toUint32, two32. apply Z.mod_pos_bound. lia. Qed.

(** The numerator of every number [rand()] returns lies in [0, 2^32). *)
Lemma rand_numerator_range (s : Z) : (0 <= ushr32 s 0 < two32)%Z.
Proof. unfold ushr32. rewrite Z.shiftr_0_r. apply toUint32_range. Qed.

(** C10. With seed 0 the state of the generator is 0 after any number of
    calls, every call returns exactly 0 (on binary64 and on the reals
    alike), and 0 lies in [0, 1). *)
Theorem seed_zero_degenerate (n : nat) :
  rand_state (seedRandom 0) n = 0%Z
  /\ rand_nth (F:=float) (seedRandom 0) n = 0%float
  /\ rand_nth (F:=R) (seedRandom 0) n = 0%R
  /\ (PrimFloat.leb 0 (rand_nth (seedRandom 0) n) = true
      /\ PrimFloat.ltb (rand_nth (seedRandom 0) n) 1 = true).
Proof.
  assert (Hs : rand_state (seedRandom 0) n = 0%Z).
  { change (seedRandom 0) with 0%Z. apply rand_state_zero. }
  unfold rand_nth. rewrite Hs.
  split; [reflexivity|].
  split; [vm_compute; reflexivity|].
  split.
  - unfold rand_output. simpl. unfold ushr32, toUint32, two32. simpl.
    unfold Rdiv. apply Rmult_0_l.
  - split; vm_compute; reflexivity.
Qed.

(** A run whose [Math.random()] gives a number below 1e-9 is seeded
    with 0, and then every [rand()] of the run returns 0 and leaves the
    state at 0. *)
Lemma rand_zero_fixed (g : Globals float) :
  rand g = 0%Z -> rand_ g = Some (0%float, g).
Proof.
  intros Hr. unfold rand_, rand_call. rewrite Hr.
  destruct g; simpl in *. subst. reflexivity.
Qed.


(** From here on [xorshift32] is not unfolded: the proofs below do not
    depend on how the generator mixes its bits. *)
(** ** The PRNG away from zero *)

Section Bits.
Local Open Scope Z_scope.

Lemma toUint32_toInt32 (z : Z) : toUint32 (toInt32 z) = toUint32 z.
Proof.
  unfold toUint32, toInt32. cbv zeta.
  destruct (z mod two32 <? 2147483648).
  - apply Z.mod_mod. unfold two32. lia.
  - replace (z mod two32 - two32) with (z mod two32 + (-1) * two32) by ring.
    rewrite Z.mod_add by (unfold two32; lia).
    apply Z.mod_mod. unfold two32. lia.
Qed.

Lemma toUint32_testbit (z n : Z) :
  0 <= n < 32 -> Z.testbit (toUint32 z) n = Z.testbit z n.
Proof.
  intros Hn. unfold toUint32. change two32 with (2 ^ 32).
  apply Z.mod_pow2_bits_low. lia.
Qed.

Lemma toUint32_high (z n : Z) :
  32 <= n -> Z.testbit (toUint32 z) n = false.
Proof.
  intros Hn. unfold toUint32. change two32 with (2 ^ 32).
  apply Z.mod_pow2_bits_high. lia.
Qed.

Lemma toUint32_no_bit (z : Z) :
  (forall n, 0 <= n < 32 -> Z.testbit (toUint32 z) n = false) ->
  toUint32 z = 0.
Proof.
  intros Hbits. apply Z.bits_inj'. intros n Hn. rewrite Z.bits_0.
  destruct (Z.lt_ge_cases n 32).
  - apply Hbits. lia.
  - apply toUint32_high. lia.
Qed.

Lemma bit_xor32 (a b n : Z) :
  0 <= n < 32 ->
  Z.testbit (toUint32 (xor32 a b)) n
  = xorb (Z.testbit (toUint32 a) n) (Z.testbit (toUint32 b) n).
Proof.
  intros Hn. unfold xor32. rewrite toUint32_toInt32.
  rewrite toUint32_testbit by exact Hn. rewrite Z.lxor_spec.
  rewrite <- (toUint32_testbit (toInt32 a)) by exact Hn.
  rewrite <- (toUint32_testbit (toInt32 b)) by exact Hn.
  rewrite !toUint32_toInt32. reflexivity.
Qed.

Lemma bit_shl32 (a k n : Z) :
  0 <= k -> 0 <= n < 32 ->
  Z.testbit (toUint32 (shl32 a k)) n
  = if n <? k then false else Z.testbit (toUint32 a) (n - k).
Proof.
  intros Hk Hn. unfold shl32. rewrite toUint32_toInt32.
  rewrite toUint32_testbit by exact Hn.
  rewrite Z.shiftl_spec by lia.
  destruct (Z.ltb_spec n k).
  - apply Z.testbit_neg_r. lia.
  - rewrite <- (toUint32_testbit (toInt32 a)) by lia.
    rewrite toUint32_toInt32. reflexivity.
Qed.

Lemma ushr32_range (a k : Z) : 0 <= k -> 0 <= ushr32 a k < two32.
Proof.
  intros Hk. unfold ushr32.
  pose proof (toUint32_range a) as Ha.
  rewrite Z.shiftr_div_pow2 by exact Hk.
  assert (0 < 2 ^ k) by (apply Z.pow_pos_nonneg; lia).
  split.
  - apply Z.div_pos; lia.
  - apply Z.le_lt_trans with (toUint32 a); [|lia].
    apply Z.div_le_upper_bound; [lia|]. nia.
Qed.

Lemma bit_ushr32 (a k n : Z) :
  0 <= k -> 0 <= n ->
  Z.testbit (toUint32 (ushr32 a k)) n = Z.testbit (toUint32 a) (n + k).
Proof.
  intros Hk Hn.
  replace (toUint32 (ushr32 a k)) with (ushr32 a k).
  - unfold ushr32. apply Z.shiftr_spec. exact Hn.
  - unfold toUint32 at 1. symmetry. apply Z.mod_small.
    apply ushr32_range. exact Hk.
Qed.

(** [s ^= s << k] sends no other state to zero. *)
Lemma xor_shl_zero (s k : Z) :
  0 < k -> toUint32 (xor32 s (shl32 s k)) = 0 -> toUint32 s = 0.
Proof.
  intros Hk E. apply toUint32_no_bit.
  assert (Hall : forall m : nat, forall n,
             0 <= n < Z.of_nat m -> n < 32 ->
             Z.testbit (toUint32 s) n = false).
  { induction m as [|m IH]; intros n Hn Hn32; [lia|].
    destruct (Z.lt_ge_cases n (Z.of_nat m)) as [Hlt|Hge];
      [apply IH; lia|].
    pose proof (bit_xor32 s (shl32 s k) n ltac:(lia)) as Hx.
    rewrite E, Z.bits_0, bit_shl32 in Hx by lia.
    destruct (Z.ltb_spec n k).
    - destruct (Z.testbit (toUint32 s) n); [discriminate|reflexivity].
    - rewrite (IH (n - k)) in Hx by lia.
      destruct (Z.testbit (toUint32 s) n); [discriminate|reflexivity]. }
  intros n Hn. apply (Hall 32%nat); lia.
Qed.

(** Neither does [s ^= s >>> k]. *)
Lemma xor_ushr_zero (s k : Z) :
  0 < k -> toUint32 (xor32 s (ushr32 s k)) = 0 -> toUint32 s = 0.
Proof.
  intros Hk E. apply toUint32_no_bit.
  assert (Hall : forall m : nat, forall n,
             0 <= n -> 32 - Z.of_nat m <= n ->
             Z.testbit (toUint32 s) n = false).
  { induction m as [|m IH]; intros n Hn Hm;
      [apply toUint32_high; lia|].
    destruct (Z.lt_ge_cases n 32) as [Hlt|Hge];
      [|apply toUint32_high; lia].
    pose proof (bit_xor32 s (ushr32 s k) n ltac:(lia)) as Hx.
    rewrite E, Z.bits_0, bit_ushr32 in Hx by lia.
    rewrite (IH (n + k)) in Hx by lia.
    destruct (Z.testbit (toUint32 s) n); [discriminate|reflexivity]. }
  intros n Hn. apply (Hall 32%nat); lia.
Qed.

Lemma xorshift32_eq (s : Z) :
  xorshift32 s
  = (let s := xor32 s (shl32 s 13) in
     let s := xor32 s (ushr32 s 17) in
     let s := xor32 s (shl32 s 5) in
     s).
Proof. reflexivity. Qed.

Lemma xorshift32_nonzero (s : Z) :
  toUint32 s <> 0 -> toUint32 (xorshift32 s) <> 0.
Proof.
  intros Hs E. apply Hs. rewrite xorshift32_eq in E. cbv zeta in E.
  apply xor_shl_zero in E; [|lia].
  apply xor_ushr_zero in E; [|lia].
  apply xor_shl_zero in E; [|lia]. exact E.
Qed.

Lemma rand_state_nonzero (s : Z) (n : nat) :
  toUint32 s <> 0 -> toUint32 (rand_state s n) <> 0.
Proof.
  intros Hs. unfold rand_state. induction n as [|n IH]; cbn [Nat.iter].
  - exact Hs.
  - apply xorshift32_nonzero. exact IH.
Qed.
End Bits.

#[global] Opaque xorshift32.

(** ** The curve builder *)

Section CurveBuilder.
Context {F : Type} `{Number F}.

Lemma getSpacedPoints_length (curves : list (CubicBezierCurve3 F))
    (divisions : nat) :
  length (getSpacedPoints curves divisions) = S divisions.
Proof.
  unfold getSpacedPoints. rewrite length_map, length_seq. reflexivity.
Qed.

Lemma pathCurves_length (world : World F) (genome : Genome F) :
  length (pathCurves world genome) = S (length (ctrl genome)).
Proof.
  unfold pathCurves. rewrite length_map, length_seq. simpl.
  rewrite length_app. simpl. lia.
Qed.

(** The curves depend on the end points and the control points only. *)
Lemma pathCurves_ext (w1 w2 : World F) (g1 g2 : Genome F) :
  A w1 = A w2 -> B w1 = B w2 -> ctrl g1 = ctrl g2 ->
  pathCurves w1 g1 = pathCurves w2 g2.
Proof.
  intros HA HB Hc. unfold pathCurves. rewrite HA, HB, Hc. reflexivity.
Qed.

Lemma pathPoints_ext (w1 w2 : World F) (g1 g2 : Genome F) (steps : nat) :
  A w1 = A w2 -> B w1 = B w2 -> ctrl g1 = ctrl g2 ->
  pathPoints w1 g1 steps = pathPoints w2 g2 steps.
Proof.
  intros HA HB Hc. unfold pathPoints.
  rewrite (pathCurves_ext w1 w2 g1 g2 HA HB Hc). reflexivity.
Qed.

Lemma bsearch_S (fuel : nat) (a : list F) (target : F) (low high : Z) :
  bsearch (S fuel) a target low high =
  if (low <=? high)%Z then
    let i := (low + (high - low) / 2)%Z in
    let comparison := (index a i - target)%js in
    if (comparison <? of_Z 0)%js then bsearch fuel a target (i + 1)%Z high
    else if (comparison >? of_Z 0)%js then bsearch fuel a target low (i - 1)%Z
    else i
  else high.
Proof. reflexivity. Qed.

(** The binary search does not depend on the fuel it is given beyond
    the width of the interval: it is the loop [while (low <= high)]. *)
Lemma bsearch_fuel (a : list F) (target : F) (fuel : nat) :
  forall low high,
    (high - low + 1 <= Z.of_nat fuel)%Z ->
    bsearch (S fuel) a target low high = bsearch fuel a target low high.
Proof.
  induction fuel as [|fuel IH]; intros low high Hfuel.
  - rewrite bsearch_S. destruct (Z.leb_spec low high); [lia|reflexivity].
  - rewrite (bsearch_S (S fuel)), (bsearch_S fuel).
    destruct (Z.leb_spec low high) as [Hle|_]; [|reflexivity].
    cbv zeta.
    assert (Hi : (low <= low + (high - low) / 2 <= high)%Z).
    { pose proof (Z.div_pos (high - low) 2).
      pose proof (Z.div_le_upper_bound (high - low) 2 (high - low)).
      lia. }
    destruct (nltb _ _); [apply IH; lia|].
    destruct (nltb _ _); [apply IH; lia|reflexivity].
Qed.
End CurveBuilder.

(** On binary64 the sampled path of the sample genome starts at A and
    ends at B, bit for bit. *)
Example path_ends_binary64 :
  hd_error (pathPoints WORLD0 sampleGenome 80) = Some (Some (A WORLD0))
  /\ last (pathPoints WORLD0 sampleGenome 80) None = Some (B WORLD0).
Proof. vm_compute. split; reflexivity. Qed.




(** ** The fitness evaluator *)

Section FitnessProperties.
Context {F : Type} `{Number F}.
Local Open Scope js_scope.

(** The single loop of [evaluateFitness] computes the two sums. *)
Lemma fitness_loop_sums (loud : F -> F -> F) (world : World F)
    (pts : list (option (Vector3 F))) :
  forall prev sum0 len0,
    fitness_loop loud world pts prev sum0 len0 =
    match allPoints pts with
    | Some ps =>
        Some (sumFrom sum0
                (map (fun p => loud
                        (intensityAtPoint p (speakerL world) (of_Z 1))
                        (intensityAtPoint p (speakerR world) (of_Z 1))) ps),
              sumFrom len0 (segmentLengths (withPrev prev ps)))
    | None => None
    end.
Proof.
  induction pts as [|[p|] rest IH]; intros prev sum0 len0; simpl.
  - destruct prev; reflexivity.
  - rewrite IH. destruct (allPoints rest) as [ps|]; [|reflexivity].
    destruct prev as [q|]; simpl; reflexivity.
  - reflexivity.
Qed.

Lemma evaluateFitness_with_ctrl (loud : F -> F -> F) (world : World F)
    (genome : Genome F) (f : F) (g' : Genome F) :
  evaluateFitness_with loud world genome = Some (f, g') ->
  g' = mkGenome (ctrl genome) f.
Proof.
  unfold evaluateFitness_with.
  destruct (fitness_loop _ _ _ _ _ _) as [[s l]|]; [|discriminate].
  intros E. injection E as <- <-. reflexivity.
Qed.

(** The evaluator reads the control points of the genome, not its
    cached fitness. *)
Lemma evaluateFitness_with_ext (loud : F -> F -> F) (world : World F)
    (g1 g2 : Genome F) :
  ctrl g1 = ctrl g2 ->
  option_map fst (evaluateFitness_with loud world g1)
  = option_map fst (evaluateFitness_with loud world g2).
Proof.
  intros Hc. unfold evaluateFitness_with.
  rewrite (pathPoints_ext world world g1 g2 80 eq_refl eq_refl Hc).
  destruct (fitness_loop _ _ _ _ _ _) as [[s l]|]; reflexivity.
Qed.
End FitnessProperties.

(** C6. The fitness evaluator throws when a sampled point is [null], and
    otherwise returns [S - 0.25 * (len / 80) + 1.0], where [S] is the sum
    of the rewards of the sampled points and [len] the sum of the distances
    between consecutive sampled points; it stores the same number in the
    genome. *)
Theorem evaluateFitness_formula {F : Type} `{Number F}
    (world : World F) (TARGET : String.string) (genome : Genome F) :
  evaluateFitness world TARGET genome =
  match allPoints (pathPoints world genome 80) with
  | Some pts =>
      Some (fitnessFormula TARGET world pts,
            mkGenome (ctrl genome) (fitnessFormula TARGET world pts))
  | None => None
  end.
Proof.
  unfold evaluateFitness, evaluateFitness_with.
  rewrite fitness_loop_sums.
  destruct (allPoints (pathPoints world genome 80)) as [pts|]; reflexivity.
Qed.


(** C8. A call of the fitness evaluator that returns [f] leaves the
    control points of the genome as they were and stores [f] in its
    fitness field; a second call, on the genome the first one left,
    returns [f] again and leaves the genome as it is. *)
Theorem evaluateFitness_twice {F : Type} `{Number F}
    (world : World F) (TARGET : String.string) (genome : Genome F)
    (f : F) (genome' : Genome F) :
  evaluateFitness world TARGET genome = Some (f, genome') ->
  ctrl genome' = ctrl genome
  /\ fitness genome' = f
  /\ evaluateFitness world TARGET genome' = Some (f, genome').
Proof.
  intros E. unfold evaluateFitness in *.
  pose proof (evaluateFitness_with_ctrl _ _ _ _ _ E) as ->. simpl.
  repeat split.
  pose proof (evaluateFitness_with_ext (loudness TARGET) world
                (mkGenome (ctrl genome) f) genome eq_refl) as Hext.
  rewrite E in Hext. simpl in Hext.
  destruct (evaluateFitness_with (loudness TARGET) world
              (mkGenome (ctrl genome) f)) as [[f2 g2]|] eqn:E2;
    [|discriminate].
  simpl in Hext. injection Hext as ->.
  rewrite (evaluateFitness_with_ctrl _ _ _ _ _ E2). reflexivity.
Qed.

Lemma evaluateFitness_twice_witness :
  ctrl (mkGenome (ctrl sampleGenome) sampleFitness) = ctrl sampleGenome
  /\ fitness (mkGenome (ctrl sampleGenome) sampleFitness) = sampleFitness
  /\ evaluateFitness WORLD0 "either" (mkGenome (ctrl sampleGenome) sampleFitness)
     = Some (sampleFitness, mkGenome (ctrl sampleGenome) sampleFitness).
Proof.
  apply (evaluateFitness_twice WORLD0 "either" sampleGenome).
  vm_compute. reflexivity.
Defined.

(** ** Reasoning on computations over the module-level state *)

Lemma bind_Some {F A B} (c : M F A) (k : A -> M F B) (g : Globals F)
    (r : B * Globals F) :
  bind c k g = Some r ->
  exists a g1, c g = Some (a, g1) /\ k a g1 = Some r.
Proof.
  unfold bind. destruct (c g) as [[a g1]|]; [|discriminate].
  intros E. exists a, g1. split; [reflexivity|exact E].
Qed.

Lemma bind_ext {F A B} (c : M F A) (k1 k2 : A -> M F B) (g : Globals F) :
  (forall a g1, c g = Some (a, g1) -> k1 a g1 = k2 a g1) ->
  bind c k1 g = bind c k2 g.
Proof.
  intros E. unfold bind. destruct (c g) as [[a g1]|]; [|reflexivity].
  apply E. reflexivity.
Qed.

Lemma bind_assoc {F A B C} (c : M F A) (k1 : A -> M F B) (k2 : B -> M F C)
    (g : Globals F) :
  bind (bind c k1) k2 g = bind c (fun a => bind (k1 a) k2) g.
Proof. unfold bind. destruct (c g) as [[a g1]|]; reflexivity. Qed.

Lemma defined_Some {F A} (o : option A) (g : Globals F) (r : A * Globals F) :
  defined o g = Some r -> o = Some (fst r) /\ snd r = g.
Proof.
  destruct o as [a|]; simpl; [|discriminate].
  unfold ret. intros E. injection E as <-. split; reflexivity.
Qed.

(** Takes a successful computation apart, one [bind] at a time. *)
Ltac inv_M H :=
  lazymatch type of H with
  | bind _ _ _ = Some _ =>
      let a := fresh "a" in let g1 := fresh "g" in
      let H1 := fresh "H" in
      apply bind_Some in H; destruct H as (a & g1 & H1 & H);
      inv_M H1; inv_M H
  | ret _ _ = Some _ => unfold ret in H; injection H as H; subst
  | gets _ _ = Some _ => unfold gets in H; injection H as H; subst
  | modify _ _ = Some _ => unfold modify in H; injection H as H; subst
  | throw _ = Some _ => discriminate H
  | defined _ _ = Some _ =>
      apply defined_Some in H; simpl in H; destruct H as [H ?]; subst
  | _ => idtac
  end.

(** ** Computations that read [rand], [WORLD] and [TARGET] and write [rand]

    Most of the operators only draw random numbers: what they return and
    the state of the PRNG they leave depend on the world, the target and
    the state of the PRNG they find, and they change nothing else. *)

Section RandOnly.
Context {F : Type} `{Number F}.

Lemma reads_same_refl (g : Globals F) : reads_same g g.
Proof. repeat split. Qed.

Lemma reads_same_set_rand (s : Z) (g1 g2 : Globals F) :
  reads_same g1 g2 -> reads_same (set_rand s g1) (set_rand s g2).
Proof. intros (_ & Hw & Ht). repeat split; assumption. Qed.

Lemma set_rand_same (g : Globals F) : set_rand (rand g) g = g.
Proof. destruct g; reflexivity. Qed.

Lemma set_rand_twice (s1 s2 : Z) (g : Globals F) :
  set_rand s2 (set_rand s1 g) = set_rand s2 g.
Proof. reflexivity. Qed.

Lemma rand_only_ret {A} (a : A) : rand_only (F:=F) (ret a).
Proof.
  intros g1 g2 (Hr & _). unfold ret. split; [reflexivity|].
  exists (rand g1). split; [|rewrite Hr]; symmetry; apply set_rand_same.
Qed.

Lemma rand_only_throw {A} : rand_only (F:=F) (@throw F A).
Proof. intros g1 g2 _. exact I. Qed.

Lemma rand_only_defined {A} (o : option A) : rand_only (F:=F) (defined o).
Proof. destruct o; [apply rand_only_ret|apply rand_only_throw]. Qed.

Lemma rand_only_rand_ : rand_only rand_.
Proof.
  intros g1 g2 (Hr & _). unfold rand_, rand_call. rewrite Hr.
  split; [reflexivity|]. eexists. split; reflexivity.
Qed.

Lemma rand_only_gets_WORLD : rand_only (F:=F) (gets WORLD).
Proof.
  intros g1 g2 (Hr & Hw & _). unfold gets. split; [exact Hw|].
  exists (rand g1). split; [|rewrite Hr]; symmetry; apply set_rand_same.
Qed.

Lemma rand_only_gets_TARGET : rand_only (F:=F) (gets TARGET).
Proof.
  intros g1 g2 (Hr & _ & Ht). unfold gets. split; [exact Ht|].
  exists (rand g1). split; [|rewrite Hr]; symmetry; apply set_rand_same.
Qed.

Lemma rand_only_bind {A B} (c : M F A) (k : A -> M F B) :
  rand_only c -> (forall a, rand_only (F:=F) (k a)) -> rand_only (F:=F) (bind c k).
Proof.
  intros Hc Hk g1 g2 Hg. unfold bind.
  specialize (Hc g1 g2 Hg).
  destruct (c g1) as [[a1 g1']|], (c g2) as [[a2 g2']|]; try contradiction;
    [|exact I].
  destruct Hc as (<- & s & -> & ->).
  specialize (Hk a1 _ _ (reads_same_set_rand s g1 g2 Hg)).
  destruct (k a1 (set_rand s g1)) as [[b1 g1'']|],
           (k a1 (set_rand s g2)) as [[b2 g2'']|]; try contradiction;
    [|exact I].
  destruct Hk as (<- & s' & -> & ->).
  split; [reflexivity|]. exists s'. split; reflexivity.
Qed.

Lemma rand_only_if {A} (b : bool) (c1 c2 : M F A) :
  rand_only c1 -> rand_only c2 -> rand_only (F:=F) (if b then c1 else c2).
Proof. destruct b; auto. Qed.

(** What such a computation leaves of the state it found. *)
Lemma rand_only_frame {A} (c : M F A) (g : Globals F) (a : A)
    (g' : Globals F) :
  rand_only c -> c g = Some (a, g') -> exists s, g' = set_rand s g.
Proof.
  intros Hc E. specialize (Hc g g (reads_same_refl g)). rewrite E in Hc.
  destruct Hc as (_ & s & -> & _). exists s. reflexivity.
Qed.

(** Run on two states that agree on what it reads, it gives the same
    result and the same state of the PRNG. *)
Lemma rand_only_same {A} (c : M F A) (g1 g2 : Globals F) :
  rand_only c -> reads_same g1 g2 ->
  match c g1 with
  | Some (a, g1') => exists s, g1' = set_rand s g1
                               /\ c g2 = Some (a, set_rand s g2)
  | None => c g2 = None
  end.
Proof.
  intros Hc Hg. specialize (Hc g1 g2 Hg).
  destruct (c g1) as [[a1 g1']|], (c g2) as [[a2 g2']|]; try contradiction.
  - destruct Hc as (<- & s & -> & ->). exists s. split; reflexivity.
  - reflexivity.
Qed.
End RandOnly.

Create HintDb rand_only.

#[local] Hint Resolve rand_only_ret rand_only_throw rand_only_defined
  rand_only_rand_ rand_only_gets_WORLD rand_only_gets_TARGET : rand_only.

(** Goes through a computation written with [bind]. *)
Ltac rand_only_steps :=
  repeat first
    [ apply rand_only_bind; [|intro]
    | apply rand_only_if
    | solve [auto with rand_only] ].

Section Operators.
Context {F : Type} `{Number F}.
Variable PARAMS : Params F.

Lemma rand_only_makeGenome_loop (n : nat) :
  forall i, rand_only (F:=F) (makeGenome_loop PARAMS n i).
Proof.
  induction n as [|n IH]; intros i; simpl; rand_only_steps.
Qed.

Lemma rand_only_makeGenome : rand_only (F:=F) (makeGenome PARAMS).
Proof.
  unfold makeGenome. rand_only_steps. apply rand_only_makeGenome_loop.
Qed.

Lemma rand_only_makeInitialPopulation :
  rand_only (F:=F) (makeInitialPopulation PARAMS).
Proof.
  unfold makeInitialPopulation.
  induction (popSize PARAMS) as [|n IH]; simpl; rand_only_steps.
  apply rand_only_makeGenome_loop.
Qed.

Lemma rand_only_tournament_loop (pop : list (Genome F)) (k : nat) :
  forall best, rand_only (F:=F) (tournament_loop pop k best).
Proof.
  induction k as [|k IH]; intros best; simpl; rand_only_steps.
Qed.

Lemma rand_only_tournamentSelect (pop : list (Genome F)) :
  rand_only (F:=F) (tournamentSelect pop).
Proof.
  unfold tournamentSelect. rand_only_steps.
Qed.

Lemma rand_only_crossover_loop (a b : Genome F) (n : nat) :
  forall i, rand_only (F:=F) (crossover_loop a b n i).
Proof.
  induction n as [|n IH]; intros i; simpl; rand_only_steps.
Qed.

Lemma rand_only_crossover (a b : Genome F) :
  rand_only (F:=F) (crossover PARAMS a b).
Proof.
  unfold crossover. rand_only_steps. apply rand_only_crossover_loop.
Qed.

Lemma rand_only_mutate_loop (pts : list (Vector3 F)) :
  rand_only (F:=F) (mutate_loop PARAMS pts).
Proof.
  induction pts as [|p rest IH]; simpl; rand_only_steps.
Qed.

Lemma rand_only_mutate (g : Genome F) : rand_only (F:=F) (mutate PARAMS g).
Proof.
  unfold mutate. rand_only_steps. apply rand_only_mutate_loop.
Qed.

Lemma rand_only_evaluateAll (pop : list (Genome F)) :
  rand_only (F:=F) (evaluateAll pop).
Proof. unfold evaluateAll. rand_only_steps. Qed.
End Operators.

#[local] Hint Resolve rand_only_makeGenome rand_only_makeInitialPopulation
  rand_only_tournamentSelect rand_only_crossover rand_only_mutate
  rand_only_evaluateAll : rand_only.

(** ** The size of the population *)

Section PopulationSize.
Context {F : Type} `{Number F}.
Variable PARAMS : Params F.

Lemma makeInitialPopulation_loop_length (n : nat) :
  forall g pop g',
    makeInitialPopulation_loop PARAMS n g = Some (pop, g') ->
    length pop = n.
Proof.
  induction n as [|n IH]; intros g pop g' E; simpl in E.
  - inv_M E. reflexivity.
  - inv_M E. simpl. f_equal. eapply IH. eassumption.
Qed.

Lemma forEach_evaluateFitness_length (world : World F)
    (TARGET : String.string) (pop : list (Genome F)) :
  forall pop',
    forEach_evaluateFitness world TARGET pop = Some pop' ->
    length pop' = length pop.
Proof.
  induction pop as [|g rest IH]; intros pop' E; simpl in E.
  - injection E as <-. reflexivity.
  - destruct (evaluateFitness world TARGET g) as [[f g1]|]; [|discriminate].
    destruct (forEach_evaluateFitness world TARGET rest) as [rest'|];
      [|discriminate].
    injection E as <-. simpl. f_equal. apply IH. reflexivity.
Qed.

Lemma evaluateAll_length (pop : list (Genome F)) (g : Globals F)
    (pop' : list (Genome F)) (g' : Globals F) :
  evaluateAll pop g = Some (pop', g') ->
  length pop' = length pop /\ g' = g.
Proof.
  unfold evaluateAll. intros E. inv_M E. split; [|reflexivity].
  eapply forEach_evaluateFitness_length. eassumption.
Qed.

Lemma insertSorted_length (g : Genome F) (sorted : list (Genome F)) :
  length (insertSorted g sorted) = S (length sorted).
Proof.
  induction sorted as [|h rest IH]; simpl.
  - reflexivity.
  - destruct (nltb _ _); simpl; [reflexivity|]. rewrite IH. reflexivity.
Qed.

Lemma sortByFitness_length (pop : list (Genome F)) :
  length (sortByFitness pop) = length pop.
Proof.
  unfold sortByFitness.
  enough (forall acc, length (fold_left (fun sorted g => insertSorted g sorted)
                                pop acc) = (length pop + length acc)%nat) as E.
  { rewrite E. simpl. lia. }
  induction pop as [|g rest IH]; intros acc; simpl.
  - reflexivity.
  - rewrite IH, insertSorted_length. lia.
Qed.

(** The loop of [stepGen] changes nothing but the state of the PRNG. *)
Lemma breed_loop_frame (fuel : nat) :
  forall newPop g res g',
    breed_loop PARAMS fuel newPop g = Some (res, g') ->
    exists s, g' = set_rand s g.
Proof.
  induction fuel as [|fuel IH]; intros newPop g res g' E; simpl in E.
  - inv_M E. exists (rand g'). symmetry. apply set_rand_same.
  - destruct (length newPop <? popSize PARAMS)%nat.
    + apply bind_Some in E. destruct E as (pop & g1 & Hget & E).
      inv_M Hget.
      apply bind_Some in E. destruct E as (p1 & g2 & Hp1 & E).
      apply bind_Some in E. destruct E as (p2 & g3 & Hp2 & E).
      apply bind_Some in E. destruct E as (r & g4 & Hr & E).
      apply bind_Some in E. destruct E as (c & g5 & Hc & E).
      apply bind_Some in E. destruct E as (c' & g6 & Hc' & E).
      apply IH in E. destruct E as (s6 & ->).
      apply rand_only_frame in Hp1; [|auto with rand_only].
      apply rand_only_frame in Hp2; [|auto with rand_only].
      apply rand_only_frame in Hr; [|auto with rand_only].
      apply rand_only_frame in Hc;
        [|rand_only_steps; apply rand_only_crossover_loop].
      apply rand_only_frame in Hc'; [|auto with rand_only].
      destruct Hp1 as (s1 & ->), Hp2 as (s2 & ->), Hr as (s3 & ->),
               Hc as (s4 & ->), Hc' as (s5 & ->).
      exists s6. reflexivity.
    + inv_M E. exists (rand g'). symmetry. apply set_rand_same.
Qed.

(** It stops with exactly [popSize] genomes. *)
Lemma breed_loop_length (fuel : nat) :
  forall newPop g res g',
    breed_loop PARAMS fuel newPop g = Some (res, g') ->
    (popSize PARAMS - length newPop <= fuel)%nat ->
    (length newPop <= popSize PARAMS)%nat ->
    length res = popSize PARAMS.
Proof.
  induction fuel as [|fuel IH]; intros newPop g res g' E Hfuel Hle;
    simpl in E.
  - inv_M E. lia.
  - destruct (Nat.ltb_spec (length newPop) (popSize PARAMS)) as [Hlt|Hge].
    + apply bind_Some in E. destruct E as (pop & g1 & Hget & E).
      apply bind_Some in E. destruct E as (p1 & g2 & Hp1 & E).
      apply bind_Some in E. destruct E as (p2 & g3 & Hp2 & E).
      apply bind_Some in E. destruct E as (r & g4 & Hr & E).
      apply bind_Some in E. destruct E as (c & g5 & Hc & E).
      apply bind_Some in E. destruct E as (c' & g6 & Hc' & E).
      apply IH in E; [exact E|rewrite length_app; simpl; lia ..].
    + inv_M E. lia.
Qed.

(** The loop does not depend on the fuel it is given beyond what the
    guard [newPop.length < popSize] lets it use. *)
Lemma breed_loop_fuel (fuel : nat) :
  forall newPop g,
    (popSize PARAMS - length newPop <= fuel)%nat ->
    breed_loop PARAMS (S fuel) newPop g = breed_loop PARAMS fuel newPop g.
Proof.
  induction fuel as [|fuel IH]; intros newPop g Hfuel.
  - simpl. destruct (Nat.ltb_spec (length newPop) (popSize PARAMS));
      [lia|reflexivity].
  - change (breed_loop PARAMS (S (S fuel)) newPop g)
      with ((if (length newPop <? popSize PARAMS)%nat
             then pop <- gets population ;;
                  p1 <- tournamentSelect pop ;;
                  p2 <- tournamentSelect pop ;;
                  r <- rand_ ;;
                  c <- (if (r <? crossProb PARAMS)%js
                        then crossover PARAMS p1 p2
                        else r' <- rand_ ;;
                             ret (if (r' <? lit 5 10)%js
                                  then cloneGenome p1
                                  else cloneGenome p2)) ;;
                  c <- mutate PARAMS c ;;
                  breed_loop PARAMS (S fuel) (newPop ++ [c])
             else ret newPop)%monad g).
    change (breed_loop PARAMS (S fuel) newPop g)
      with ((if (length newPop <? popSize PARAMS)%nat
             then pop <- gets population ;;
                  p1 <- tournamentSelect pop ;;
                  p2 <- tournamentSelect pop ;;
                  r <- rand_ ;;
                  c <- (if (r <? crossProb PARAMS)%js
                        then crossover PARAMS p1 p2
                        else r' <- rand_ ;;
                             ret (if (r' <? lit 5 10)%js
                                  then cloneGenome p1
                                  else cloneGenome p2)) ;;
                  c <- mutate PARAMS c ;;
                  breed_loop PARAMS fuel (newPop ++ [c])
             else ret newPop)%monad g).
    destruct (length newPop <? popSize PARAMS)%nat eqn:Hlt; [|reflexivity].
    apply Nat.ltb_lt in Hlt.
    repeat (apply bind_ext; intros).
    apply IH. rewrite length_app. simpl. lia.
Qed.

Lemma showBest_frame (genome : Genome F) (g g' : Globals F) :
  showBest genome g = Some (tt, g') ->
  population g' = population g /\ gen g' = gen g
  /\ lastBest g' = lastBest g.
Proof.
  unfold showBest. intros E. inv_M E. repeat split.
Qed.

Lemma updateHUD_frame (g g' : Globals F) :
  updateHUD g = Some (tt, g') ->
  population g' = population g /\ gen g' = gen g
  /\ lastBest g' = lastBest g.
Proof.
  unfold updateHUD. intros E. inv_M E. repeat split.
Qed.
End PopulationSize.

(** ** One call of [stepGen] *)

Section StepGen.
Context {F : Type} `{Number F}.
Variable PARAMS : Params F.
Local Open Scope js_scope.

(** The call after the last generation ends the run and changes neither
    the population nor the best genome. *)
Lemma stepGen_done (play : bool) (i : nat) (g : Globals F)
    (next : option nat) (g' : Globals F) :
  (generations PARAMS <= i)%nat ->
  stepGen PARAMS play i g = Some (next, g') ->
  next = None /\ population g' = population g /\ gen g' = gen g
  /\ lastBest g' = lastBest g /\ log g' = log g.
Proof.
  intros Hi E. unfold stepGen in E.
  destruct (Nat.leb_spec (generations PARAMS) i) as [_|Hlt]; [|lia].
  destruct play; unfold playBestPath in E; inv_M E; repeat split.
Qed.

(** A call that runs a generation. *)
Lemma stepGen_generation (play : bool) (i : nat) (g : Globals F)
    (next : option nat) (g' : Globals F) :
  (i < generations PARAMS)%nat ->
  stepGen PARAMS play i g = Some (next, g') ->
  next = Some (i + 1)%nat
  /\ gen g' = (gen g + 1)%nat
  /\ ((1 <= popSize PARAMS)%nat -> length (population g') = popSize PARAMS)
  /\ exists first,
       nth_error (population g') 0 = Some first
       /\ lastBest g' =
          match lastBest g with
          | Some b => if fitness first >? fitness b
                      then Some (cloneGenome first) else Some b
          | None => Some (cloneGenome first)
          end.
Proof.
  intros Hi E. unfold stepGen in E.
  destruct (Nat.leb_spec (generations PARAMS) i) as [Hge|_]; [lia|].
  inv_M E.
  pose proof (breed_loop_frame PARAMS _ _ _ _ _ H1) as (s & Hs).
  assert (Hlen : (1 <= popSize PARAMS)%nat -> length a0 = popSize PARAMS).
  { intros HN. apply breed_loop_length in H1; [|simpl; lia ..].
    exact H1. }
  clear H1. subst g0.
  apply evaluateAll_length in H2. destruct H2 as (Hlen1 & ->).
  destruct a4. apply updateHUD_frame in H5.
  destruct H5 as (Hp & Hg & Hb). rewrite Hp, Hg, Hb. clear Hp Hg Hb g'.
  assert (Hfirst : nth_error (sortByFitness a1) 0 = Some a2) by exact H3.
  clear H3. simpl in H4.
  assert (Hshow : forall genome g3,
             (modify (set_lastBest (Some genome)) ;;; showBest genome)%monad
               (set_population (sortByFitness a1)
                  (set_rand s (set_gen (gen g + 1) g))) = Some (a3, g3) ->
             population g3 = sortByFitness a1
             /\ gen g3 = (gen g + 1)%nat /\ lastBest g3 = Some genome).
  { intros genome g3 E. inv_M E. destruct a3.
    apply showBest_frame in E. destruct E as (-> & -> & ->).
    repeat split. }
  assert (Hlen2 : (1 <= popSize PARAMS)%nat ->
                  length (sortByFitness a1) = popSize PARAMS).
  { intros HN. rewrite sortByFitness_length, Hlen1. exact (Hlen HN). }
  split; [reflexivity|].
  enough (population g2 = sortByFitness a1 /\ gen g2 = (gen g + 1)%nat
          /\ lastBest g2 =
              match lastBest g with
              | Some b => if fitness a2 >? fitness b
                          then Some (cloneGenome a2) else Some b
              | None => Some (cloneGenome a2)
              end) as (-> & -> & ->).
  { split; [reflexivity|]. split; [assumption|]. exists a2.
    split; [assumption|reflexivity]. }
  destruct (lastBest g) as [b|] eqn:Hbest.
  - destruct (fitness a2 >? fitness b).
    + apply Hshow in H4. exact H4.
    + inv_M H4. simpl. repeat split. exact Hbest.
  - apply Hshow in H4. exact H4.
Qed.
End StepGen.

(** ** The run *)

Section Run.
Context {F : Type} `{Number F}.
Variable PARAMS : Params F.
Local Open Scope js_scope.

Lemma stepGen_between_steps (play : bool) (i : nat) (g : Globals F)
    (next : option nat) (g' : Globals F) :
  (1 <= popSize PARAMS)%nat ->
  between_steps PARAMS (Some i) g ->
  stepGen PARAMS play i g = Some (next, g') ->
  between_steps PARAMS next g'.
Proof.
  intros HN (Hlen & Hgen & Hi) E.
  destruct (Nat.le_gt_cases (generations PARAMS) i) as [Hge|Hlt].
  - apply stepGen_done in E; [|exact Hge].
    destruct E as (-> & Hp & Hg & _). split; [congruence|]. lia.
  - apply stepGen_generation in E; [|assumption].
    destruct E as (-> & Hg & Hp & _). split; [exact (Hp HN)|]. lia.
Qed.

Lemma timers_between_steps (play : bool) (k : nat) :
  forall next g next' g',
    (1 <= popSize PARAMS)%nat ->
    between_steps PARAMS next g ->
    timers PARAMS k play next g = Some (next', g') ->
    between_steps PARAMS next' g'.
Proof.
  induction k as [|k IH]; intros next g next' g' HN Hb E.
  - destruct next; simpl in E; inv_M E; exact Hb.
  - destruct next as [i|]; simpl in E.
    + apply bind_Some in E. destruct E as (n1 & g1 & E1 & E).
      eapply IH; [exact HN| |exact E].
      eapply stepGen_between_steps; eassumption.
    + inv_M E. exact Hb.
Qed.

Lemma jitterSpeakers_frame (amount : F) (g g' : Globals F) :
  jitterSpeakers amount g = Some (tt, g') ->
  exists s w, g' = set_WORLD w (set_rand s g).
Proof.
  unfold jitterSpeakers. intros E. inv_M E.
  unfold rand_ in *. unfold rand_call in *.
  repeat match goal with
         | E : Some _ = Some _ |- _ => injection E as ? ?; subst
         end.
  eexists. eexists. reflexivity.
Qed.

Lemma evolveInitial_spec (g g' : Globals F) :
  evolveInitial PARAMS g = Some (tt, g') ->
  length (population g') = popSize PARAMS
  /\ gen g' = gen g
  /\ exists first, lastBest g' = Some (cloneGenome first).
Proof.
  unfold evolveInitial. intros E. inv_M E.
  pose proof (makeInitialPopulation_loop_length PARAMS _ _ _ _ H0) as Hpop.
  apply rand_only_frame in H0; [|auto with rand_only].
  destruct a2.
  apply showBest_frame in H3. apply updateHUD_frame in E.
  destruct E as (-> & -> & ->), H3 as (-> & -> & ->).
  apply evaluateAll_length in H1. destruct H1 as (Hlen & ->).
  destruct H0 as (s & ->). simpl.
  split; [|split; [reflexivity|eexists; reflexivity]].
  rewrite sortByFitness_length, Hlen. exact Hpop.
Qed.

Lemma runEvolution_begin_between_steps (play : bool)
    (target : String.string) (random : F) (g : Globals F)
    (next : option nat) (g' : Globals F) :
  running g = false ->
  runEvolution_begin PARAMS play target random g = Some (next, g') ->
  between_steps PARAMS next g'.
Proof.
  intros Hrun E. unfold runEvolution_begin in E.
  apply bind_Some in E. destruct E as (busy & g0 & Hbusy & E).
  inv_M Hbusy. rewrite Hrun in E.
  apply bind_Some in E. destruct E as ([] & g1 & E1 & E). inv_M E1.
  apply bind_Some in E. destruct E as ([] & g2 & E2 & E). inv_M E2.
  apply bind_Some in E. destruct E as ([] & g3 & E3 & E). inv_M E3.
  apply bind_Some in E. destruct E as ([] & g4 & E4 & E).
  apply bind_Some in E. destruct E as ([] & g5 & E5 & E). inv_M E5.
  apply bind_Some in E. destruct E as ([] & g6 & E6 & E). inv_M E.
  apply evolveInitial_spec in E6. destruct E6 as (Hlen & Hgen & _).
  split; [exact Hlen|]. split; [|lia].
  rewrite Hgen. simpl.
  destruct play.
  - inv_M E4. reflexivity.
  - apply jitterSpeakers_frame in E4. destruct E4 as (s & w & ->).
    reflexivity.
Qed.
End Run.

(** C2. In a run with a population size of at least 1, once the initial
    population is evaluated ([k = 0]) and after each of the first [k]
    calls of [stepGen], the population holds exactly [popSize] genomes,
    and the generation counter does not pass the generation budget. *)
Theorem population_size_invariant {F : Type} `{Number F}
    (PARAMS : Params F) (play : bool) (target : String.string) (random : F)
    (k : nat) (g : Globals F) (next : option nat) (g' : Globals F) :
  (1 <= popSize PARAMS)%nat ->
  running g = false ->
  bind (runEvolution_begin PARAMS play target random)
    (timers PARAMS k play) g
  = Some (next, g') ->
  length (population g') = popSize PARAMS
  /\ (gen g' <= generations PARAMS)%nat.
Proof.
  intros HN Hrun E.
  apply bind_Some in E. destruct E as (n1 & g1 & E1 & E).
  apply runEvolution_begin_between_steps in E1; [|assumption].
  apply timers_between_steps in E; [|assumption ..].
  destruct E as (Hlen & Hgen). split; [exact Hlen|].
  destruct next as [i|]; lia.
Qed.

Lemma population_size_invariant_witness :
  length (population (snd afterTwoTimers)) = popSize P1
  /\ (gen (snd afterTwoTimers) <= generations P1)%nat.
Proof.
  apply (population_size_invariant P1 true "either" random1 2 loaded
           (fst afterTwoTimers)).
  - vm_compute. lia.
  - reflexivity.
  - vm_compute. reflexivity.
Defined.

(** ** The best genome so far *)

Section BestEver.
Context {F : Type} `{Number F}.
Variable PARAMS : Params F.
Local Open Scope js_scope.

(** A call of [stepGen] keeps the best genome so far, or replaces it by
    a genome of strictly greater fitness. *)
Lemma stepGen_lastBest (play : bool) (i : nat) (g : Globals F)
    (next : option nat) (g' : Globals F) (b : Genome F) :
  stepGen PARAMS play i g = Some (next, g') ->
  lastBest g = Some b ->
  exists b', lastBest g' = Some b'
             /\ (b' = b \/ (fitness b <? fitness b') = true).
Proof.
  intros E Hb.
  destruct (Nat.le_gt_cases (generations PARAMS) i) as [Hge|Hlt].
  - apply stepGen_done in E; [|exact Hge].
    destruct E as (_ & _ & _ & Hl & _). exists b. split; [congruence|].
    left. reflexivity.
  - apply stepGen_generation in E; [|exact Hlt].
    destruct E as (_ & _ & _ & first & _ & Hl). rewrite Hb in Hl.
    destruct (fitness first >? fitness b) eqn:Hcmp.
    + exists (cloneGenome first). split; [exact Hl|]. right. exact Hcmp.
    + exists b. split; [exact Hl|]. left. reflexivity.
Qed.

Lemma timers_succ (play : bool) (k : nat) :
  forall next g,
    timers PARAMS (S k) play next g
    = bind (timers PARAMS k play next) (timers PARAMS 1 play) g.
Proof.
  induction k as [|k IH]; intros next g.
  - destruct next; reflexivity.
  - destruct next as [i|]; [|reflexivity].
    change (timers PARAMS (S (S k)) play (Some i) g)
      with (bind (stepGen PARAMS play i) (timers PARAMS (S k) play) g).
    change (timers PARAMS (S k) play (Some i))
      with (bind (stepGen PARAMS play i) (timers PARAMS k play)).
    rewrite bind_assoc. apply bind_ext. intros n1 g1 _. apply IH.
Qed.
End BestEver.

(** C3. From one call of [stepGen] to the next the best genome so far is
    kept, or replaced by one of strictly greater fitness: the fitness of
    the best genome so far never decreases in a run. *)
Theorem best_ever_monotone {F : Type} `{Number F}
    (PARAMS : Params F) (play : bool) (target : String.string) (random : F)
    (k : nat) (g : Globals F) (a b : Genome F) :
  bestEverAfter PARAMS play target random k g = Some a ->
  bestEverAfter PARAMS play target random (S k) g = Some b ->
  (b = a \/ nltb (fitness a) (fitness b) = true)
  /\ stays_or_rises (fitness a) (fitness b).
Proof.
  unfold bestEverAfter. intros Ea Eb.
  assert (E : bind (runEvolution_begin PARAMS play target random)
                (timers PARAMS (S k) play) g
              = bind (bind (runEvolution_begin PARAMS play target random)
                        (timers PARAMS k play))
                  (timers PARAMS 1 play) g).
  { rewrite bind_assoc. apply bind_ext. intros n0 g0 _. apply timers_succ. }
  rewrite E in Eb. clear E.
  destruct (bind (runEvolution_begin PARAMS play target random)
              (timers PARAMS k play) g) as [[n1 g1]|] eqn:Ek;
    [|discriminate].
  destruct (bind (bind (runEvolution_begin PARAMS play target random)
                    (timers PARAMS k play))
              (timers PARAMS 1 play) g) as [[n2 g2]|] eqn:Ek1;
    [|discriminate].
  apply bind_Some in Ek1. destruct Ek1 as (n1' & g1' & Ek' & Estep).
  rewrite Ek in Ek'. injection Ek' as <- <-.
  enough (b = a \/ nltb (fitness a) (fitness b) = true) as Hs.
  { split; [exact Hs|]. destruct Hs as [->|Hlt]; [left|right]; auto. }
  destruct n1 as [i|]; simpl in Estep.
  - apply bind_Some in Estep. destruct Estep as (n3 & g3 & Hstep & Hret).
    destruct (stepGen_lastBest PARAMS _ _ _ _ _ _ Hstep Ea)
      as (b' & Hb' & Hcases).
    destruct n3; simpl in Hret; inv_M Hret;
      rewrite Hb' in Eb; injection Eb as <-; exact Hcases.
  - inv_M Estep. left. congruence.
Qed.

Lemma best_ever_monotone_witness :
  (bestAfter1 = bestAfter0
   \/ nltb (fitness bestAfter0) (fitness bestAfter1) = true)
  /\ stays_or_rises (fitness bestAfter0) (fitness bestAfter1).
Proof.
  apply (best_ever_monotone P1 true "either" random1 0 loaded);
    vm_compute; reflexivity.
Defined.

(** Reduces the projections of states built by the setters. *)
Ltac fields :=
  cbn [population gen rand TARGET WORLD running animPath headVisible
       lastBest log set_population set_gen set_rand set_TARGET set_WORLD
       set_running set_animPath set_headVisible set_lastBest emit clearLog
       fst snd] in *.

(** ** Two runs from the same seed *)

Section Determinism.
Context {F : Type} `{Number F}.
Variable PARAMS : Params F.
Local Open Scope js_scope.

Lemma respects_ret {A} (a : A) : respects (F:=F) (ret a).
Proof. intros g1 g2 Hag. unfold ret. repeat split; apply Hag. Qed.

Lemma respects_bind {A B} (c : M F A) (k : A -> M F B) :
  respects c -> (forall a, respects (F:=F) (k a)) -> respects (F:=F) (bind c k).
Proof.
  intros Hc Hk g1 g2 Hg. unfold bind. specialize (Hc g1 g2 Hg).
  destruct (c g1) as [[a1 g1']|], (c g2) as [[a2 g2']|]; try contradiction;
    [|exact I].
  destruct Hc as (<- & Hag & Ht1 & Ht2).
  specialize (Hk a1 g1' g2' Hag).
  destruct (k a1 g1') as [[b1 g1'']|], (k a1 g2') as [[b2 g2'']|];
    try contradiction; [|exact I].
  destruct Hk as (<- & Hag' & Ht1' & Ht2').
  repeat split; try apply Hag'; congruence.
Qed.

Lemma respects_rand_ : respects rand_.
Proof.
  intros g1 g2 (Hg & Hr & Hw & Hrun & Hlog). unfold rand_, rand_call.
  rewrite Hr. generalize (xorshift32 (rand g2)). intros s.
  repeat split; assumption.
Qed.

Lemma respects_gets_WORLD : respects (F:=F) (gets WORLD).
Proof.
  intros g1 g2 Hag. unfold gets. repeat split; apply Hag.
Qed.

Lemma respects_set_WORLD (f : World F -> World F) :
  respects (F:=F) (modify (fun g => set_WORLD (f (WORLD g)) g)).
Proof.
  intros g1 g2 (Hg & Hr & Hw & Hrun & Hlog). unfold modify.
  repeat split; simpl; try assumption. rewrite Hw. reflexivity.
Qed.

Lemma respects_jitterSpeakers (amount : F) :
  respects (F:=F) (jitterSpeakers amount).
Proof.
  unfold jitterSpeakers. cbv zeta.
  apply respects_bind; [apply respects_gets_WORLD|]. intros w.
  repeat (apply respects_bind;
          [apply respects_bind;
           [apply respects_rand_|intro; apply respects_ret]|intro]).
  apply (respects_set_WORLD (set_speakers _ _)).
Qed.

Lemma agree_reads_same (g1 g2 : Globals F) :
  agree g1 g2 -> reads_same g1 g2.
Proof. intros ((_ & Hr & Hw & _) & Ht). repeat split; assumption. Qed.

Lemma agree_set_rand (s : Z) (g1 g2 : Globals F) :
  agree g1 g2 -> agree (set_rand s g1) (set_rand s g2).
Proof. intros ((? & ? & ? & ? & ?) & ?). repeat split; assumption. Qed.

(** A step that only draws random numbers, in front of steps that give
    the same on two states that agree. *)
Lemma bind_rand_only_agree {A B} (c : M F A) (k : A -> M F B)
    (g1 g2 : Globals F) :
  rand_only c -> agree g1 g2 ->
  (forall a g1' g2', agree g1' g2' -> k a g1' = k a g2') ->
  bind c k g1 = bind c k g2.
Proof.
  intros Hc Hag Hk. unfold bind.
  pose proof (rand_only_same c g1 g2 Hc (agree_reads_same _ _ Hag)) as Hs.
  destruct (c g1) as [[a g1']|].
  - destruct Hs as (s & -> & ->). apply Hk. apply agree_set_rand. exact Hag.
  - rewrite Hs. reflexivity.
Qed.

Lemma showBest_eq (genome : Genome F) (g : Globals F) :
  showBest genome g =
  match allPoints (pathPoints (WORLD g) genome 180) with
  | Some pts =>
      Some (tt, set_headVisible false
                  (emit (ShowBest genome) (set_animPath pts g)))
  | None => None
  end.
Proof.
  unfold showBest, bind, gets, defined, modify.
  destruct (allPoints _); reflexivity.
Qed.

(** After [evolveInitial] nothing is left of the difference. *)
Lemma evolveInitial_agree (g1 g2 : Globals F) :
  agree g1 g2 -> evolveInitial PARAMS g1 = evolveInitial PARAMS g2.
Proof.
  intros Hag. unfold evolveInitial.
  apply bind_rand_only_agree;
    [apply rand_only_makeInitialPopulation|exact Hag|].
  clear g1 g2 Hag. intros pop g1 g2 Hag.
  apply bind_rand_only_agree; [apply rand_only_evaluateAll|exact Hag|].
  clear g1 g2 Hag. intros pop' g1 g2 Hag.
  destruct Hag as ((Hg & Hr & Hw & Hrun & Hlog) & Ht).
  unfold bind, modify, defined.
  destruct (nth_error (sortByFitness pop') 0) as [first|];
    [|reflexivity].
  unfold ret. rewrite !showBest_eq. fields. rewrite Hw.
  destruct (allPoints _) as [pts|]; [|reflexivity].
  unfold updateHUD, bind, gets, modify, emit, set_headVisible,
    set_animPath, set_lastBest, set_population. fields.
  rewrite Hg, Hr, Ht, Hw, Hrun, Hlog. reflexivity.
Qed.

Lemma bind_modify {B} (f : Globals F -> Globals F) (k : unit -> M F B)
    (g : Globals F) :
  bind (modify f) k g = k tt (f g).
Proof. reflexivity. Qed.

Lemma bind_respects {A B} (c : M F A) (k : A -> M F B)
    (g1 g2 : Globals F) :
  respects c -> agree_but_target g1 g2 ->
  (forall a g1' g2',
      agree_but_target g1' g2' ->
      TARGET g1' = TARGET g1 -> TARGET g2' = TARGET g2 ->
      k a g1' = k a g2') ->
  bind c k g1 = bind c k g2.
Proof.
  intros Hc Hag Hk. unfold bind. specialize (Hc g1 g2 Hag).
  destruct (c g1) as [[a1 g1']|], (c g2) as [[a2 g2']|];
    try contradiction; [|reflexivity].
  destruct Hc as (<- & Hag' & Ht1 & Ht2). apply Hk; assumption.
Qed.

(** A run reads of the state it starts from nothing but the world and,
    when no target is given, the target; of [Math.random()] it reads
    nothing but the seed. *)
Lemma runEvolution_begin_same (play : bool) (target : String.string)
    (random1 random2 : F) (g1 g2 : Globals F) :
  running g1 = false -> running g2 = false ->
  WORLD g1 = WORLD g2 ->
  (target = ""%string -> TARGET g1 = TARGET g2) ->
  to_int32 (random1 * of_Z 1000000000)
  = to_int32 (random2 * of_Z 1000000000) ->
  runEvolution_begin PARAMS play target random1 (clearLog g1)
  = runEvolution_begin PARAMS play target random2 (clearLog g2).
Proof.
  intros Hr1 Hr2 Hw Ht Hseed. unfold runEvolution_begin.
  unfold bind at 1. unfold bind at 7. unfold gets. fields.
  rewrite Hr1, Hr2, <- Hseed.
  generalize (seedRandom (to_int32 (random1 * of_Z 1000000000))).
  intros seed. rewrite !bind_modify.
  apply bind_respects.
  - destruct play; [apply respects_ret|apply respects_jitterSpeakers].
  - repeat split; fields; try reflexivity. exact Hw.
  - intros [] g1' g2' Hag Ht1 Ht2. rewrite !bind_modify.
    unfold bind.
    rewrite (evolveInitial_agree
               (set_TARGET (if (target =? "")%string then TARGET g1'
                            else target) g1')
               (set_TARGET (if (target =? "")%string then TARGET g2'
                            else target) g2')).
    + reflexivity.
    + destruct Hag as (Hg & Hr & Hw' & Hrun & Hlog).
      repeat split; fields; try assumption.
      destruct (String.eqb_spec target "") as [He|_]; [|reflexivity].
      rewrite Ht1, Ht2. fields. apply Ht. exact He.
Qed.

Lemma run_same (play : bool) (target : String.string)
    (random1 random2 : F) (g1 g2 : Globals F) :
  running g1 = false -> running g2 = false ->
  WORLD g1 = WORLD g2 ->
  (target = ""%string -> TARGET g1 = TARGET g2) ->
  to_int32 (random1 * of_Z 1000000000)
  = to_int32 (random2 * of_Z 1000000000) ->
  run PARAMS play target random1 (clearLog g1)
  = run PARAMS play target random2 (clearLog g2).
Proof.
  intros Hr1 Hr2 Hw Ht Hseed. unfold run, runEvolution, bind.
  rewrite (runEvolution_begin_same play target random1 random2 g1 g2);
    auto.
Qed.

(** The same for the first version of [runEvolution], which has neither
    jitter nor target. *)
Lemma runEvolution_v1_same (play : bool) (random1 random2 : F)
    (g1 g2 : Globals F) :
  running g1 = false -> running g2 = false ->
  WORLD g1 = WORLD g2 -> TARGET g1 = TARGET g2 ->
  to_int32 (random1 * of_Z 1000000000)
  = to_int32 (random2 * of_Z 1000000000) ->
  runEvolution_v1 PARAMS play random1 (clearLog g1)
  = runEvolution_v1 PARAMS play random2 (clearLog g2).
Proof.
  intros Hr1 Hr2 Hw Ht Hseed.
  assert (Hbegin : runEvolution_v1_begin PARAMS play random1 (clearLog g1)
                   = runEvolution_v1_begin PARAMS play random2 (clearLog g2)).
  { unfold runEvolution_v1_begin.
    unfold bind at 1. unfold bind at 5. unfold gets. fields.
    rewrite Hr1, Hr2, <- Hseed.
    generalize (seedRandom (to_int32 (random1 * of_Z 1000000000))).
    intros seed. rewrite !bind_modify. unfold bind.
    rewrite (evolveInitial_agree
               (set_rand seed (set_gen 0 (set_running true (clearLog g1))))
               (set_rand seed (set_gen 0 (set_running true (clearLog g2))))).
    - reflexivity.
    - repeat split; fields; try reflexivity; assumption. }
  unfold runEvolution_v1, bind. rewrite Hbegin. reflexivity.
Qed.
End Determinism.

(** C1. Two runs with the same parameters, the same target and the same
    world, whose calls of [Math.random()] give the same seed, show the
    same (generation, best fitness) pairs and end with the same best
    genome; they end in the same state altogether, whatever population,
    best genome and shown path the two runs found when they started. *)
Theorem same_seed_same_run {F : Type} `{Number F}
    (PARAMS : Params F) (play : bool) (target : String.string)
    (random1 random2 : F) (g1 g2 : Globals F)
    (r1 r2 : option nat) (g1' g2' : Globals F) :
  running g1 = false -> running g2 = false ->
  WORLD g1 = WORLD g2 ->
  (target = ""%string -> TARGET g1 = TARGET g2) ->
  to_int32 (random1 * of_Z 1000000000)%js
  = to_int32 (random2 * of_Z 1000000000)%js ->
  run PARAMS play target random1 (clearLog g1) = Some (r1, g1') ->
  run PARAMS play target random2 (clearLog g2) = Some (r2, g2') ->
  hudPairs (trace g1') = hudPairs (trace g2')
  /\ option_map ctrl (lastBest g1') = option_map ctrl (lastBest g2')
  /\ g1' = g2'.
Proof.
  intros Hr1 Hr2 Hw Ht Hseed E1 E2.
  rewrite (run_same PARAMS play target random1 random2 g1 g2) in E1;
    try assumption.
  rewrite E1 in E2. injection E2 as <- <-. repeat split.
Qed.

Lemma same_seed_same_run_witness :
  hudPairs (trace (snd endOfRun1)) = hudPairs (trace (snd endOfRun2))
  /\ option_map ctrl (lastBest (snd endOfRun1))
     = option_map ctrl (lastBest (snd endOfRun2))
  /\ snd endOfRun1 = snd endOfRun2.
Proof.
  apply (same_seed_same_run P1 true "either" random1 random2 loaded afterRun
           (fst endOfRun1) (fst endOfRun2));
    try (vm_compute; reflexivity).
  intros He. discriminate He.
Defined.

(** ** The speakers after a jitter *)

Section JitterSpec.
Context {F : Type} `{Number F}.
Local Open Scope js_scope.

Lemma jitterSpeakers_eq (amount : F) (g : Globals F) :
  jitterSpeakers amount g =
  Some (tt, set_WORLD
              (set_speakers (jitteredL amount g)
                 (separated (jitteredL amount g) (jitteredR amount g))
                 (WORLD g))
              (set_rand (rand_state (rand g) 4) g)).
Proof. reflexivity. Qed.
End JitterSpec.

(** ** The distance between the speakers, over the reals *)

Lemma R_ltb_true (a b : R) : R_ltb a b = true <-> (a < b)%R.
Proof. unfold R_ltb. destruct (Rlt_dec a b); split; intros; auto; discriminate. Qed.

Lemma R_ltb_false (a b : R) : R_ltb a b = false <-> (b <= a)%R.
Proof.
  unfold R_ltb. destruct (Rlt_dec a b); split; intros; auto;
    try discriminate; lra.
Qed.

Lemma R_leb_true (a b : R) : R_leb a b = true <-> (a <= b)%R.
Proof. unfold R_leb. destruct (Rle_dec a b); split; intros; auto; discriminate. Qed.

Lemma R_leb_false (a b : R) : R_leb a b = false <-> (b < a)%R.
Proof.
  unfold R_leb. destruct (Rle_dec a b); split; intros; auto;
    try discriminate; lra.
Qed.

Lemma sqrt_at_least_6 (q : R) : (36 <= q)%R -> (6 <= R_sqrt.sqrt q)%R.
Proof.
  intros Hq. replace 6%R with (R_sqrt.sqrt (6 * 6)).
  - apply sqrt_le_1_alt. lra.
  - apply sqrt_square. lra.
Qed.

(** Two points whose x coordinates are 6 apart are at least 6 apart. *)
Lemma distanceTo_x_apart (L R' : Vector3 R) :
  (x R' = x L + 6 \/ x R' = x L - 6)%R -> (6 <= distanceTo L R')%R.
Proof.
  intros Hx. unfold distanceTo, distanceToSquared. simpl.
  apply sqrt_at_least_6.
  pose proof (Rle_0_sqr (y L - y R')) as Hy.
  pose proof (Rle_0_sqr (z L - z R')) as Hz.
  unfold Rsqr in Hy, Hz.
  destruct Hx as [-> | ->].
  - replace (x L - (x L + 6))%R with (- (6))%R by lra. lra.
  - replace (x L - (x L - 6))%R with 6%R by lra. lra.
Qed.

Lemma separated_apart (L R0 : Vector3 R) :
  (6 <= distanceTo L (separated L R0))%R.
Proof.
  unfold separated.
  destruct (distanceTo L R0 <? of_Z 6)%js eqn:Hd.
  - destruct (x R0 <=? x L)%js; apply distanceTo_x_apart; cbn [x];
      [left|right]; reflexivity.
  - apply (R_ltb_false (distanceTo L R0) 6). exact Hd.
Qed.

(** On binary64, a jitter of the speakers of the page as loaded leaves
    them more than 6 apart, without the clamp. *)
Example jitter_binary64 :
  match jitterSpeakers (lit 25 10) loaded with
  | Some (_, g) =>
      nleb 6%float
        (distanceTo (speakerL (WORLD g)) (speakerR (WORLD g))) = true
      /\ speakerR (WORLD g) = jitteredR (lit 25 10) loaded
  | None => False
  end.
Proof. vm_compute. split; reflexivity. Qed.


(** ** The end points of the sampled path, over the reals *)

Section EndPoints.
Local Open Scope R_scope.

Lemma vector_eta (p : Vector3 R) : mkVector3 (x p) (y p) (z p) = p.
Proof. destruct p; reflexivity. Qed.

Lemma CubicBezier_0 (p0 p1 p2 p3 : R) : CubicBezier 0 p0 p1 p2 p3 = p0.
Proof.
  unfold CubicBezier, CubicBezierP0, CubicBezierP1, CubicBezierP2,
    CubicBezierP3. simpl. ring.
Qed.

Lemma CubicBezier_1 (p0 p1 p2 p3 : R) : CubicBezier 1 p0 p1 p2 p3 = p3.
Proof.
  unfold CubicBezier, CubicBezierP0, CubicBezierP1, CubicBezierP2,
    CubicBezierP3. simpl. ring.
Qed.

(** A Bezier curve starts at [v0] and ends at [v3]. *)
Lemma getPoint_0 (c : CubicBezierCurve3 R) : getPoint c 0 = v0 c.
Proof.
  unfold getPoint. rewrite !CubicBezier_0. apply vector_eta.
Qed.

Lemma getPoint_1 (c : CubicBezierCurve3 R) : getPoint c 1 = v3 c.
Proof.
  unfold getPoint. rewrite !CubicBezier_1. apply vector_eta.
Qed.

Lemma distanceTo_nonneg (p q : Vector3 R) : 0 <= distanceTo p q.
Proof. unfold distanceTo. apply sqrt_pos. Qed.

Lemma distanceTo_zero (p q : Vector3 R) : distanceTo p q = 0 -> p = q.
Proof.
  unfold distanceTo, distanceToSquared. simpl. intros E.
  pose proof (Rle_0_sqr (x p - x q)) as Hx.
  pose proof (Rle_0_sqr (y p - y q)) as Hy.
  pose proof (Rle_0_sqr (z p - z q)) as Hz.
  unfold Rsqr in Hx, Hy, Hz.
  apply sqrt_eq_0 in E; [|lra].
  assert (Ex : (x p - x q) * (x p - x q) = 0) by lra.
  assert (Ey : (y p - y q) * (y p - y q) = 0) by lra.
  assert (Ez : (z p - z q) * (z p - z q) = 0) by lra.
  apply Rmult_integral in Ex, Ey, Ez.
  destruct p as [xp yp zp], q as [xq yq zq]. simpl in *.
  f_equal; lra.
Qed.

(** *** The arc lengths of a curve *)

Lemma getLengths_loop_length (c : CubicBezierCurve3 R) (n : nat) :
  forall p last sum,
    length (getLengths_loop c n p last sum) = n.
Proof.
  induction n as [|n IH]; intros p last sum; simpl.
  - reflexivity.
  - rewrite IH. reflexivity.
Qed.

Lemma getLengths_loop_S (c : CubicBezierCurve3 R) (n p : nat)
    (last : Vector3 R) (sum : R) :
  getLengths_loop c (S n) p last sum
  = (sum + distanceTo (sample c p) last)
      :: getLengths_loop c n (S p) (sample c p)
           (sum + distanceTo (sample c p) last).
Proof. reflexivity. Qed.

(** The sums do not go below the sum the loop starts from, and they do
    not decrease. *)
Lemma getLengths_loop_above (c : CubicBezierCurve3 R) (n : nat) :
  forall p last sum j,
    (j < n)%nat ->
    sum <= nth j (getLengths_loop c n p last sum) 0.
Proof.
  induction n as [|n IH]; intros p last sum j Hj; [lia|].
  rewrite getLengths_loop_S.
  pose proof (distanceTo_nonneg (sample c p) last) as Hd.
  destruct j as [|j]; cbn [nth].
  - lra.
  - eapply Rle_trans; [|apply IH; lia]. lra.
Qed.

Lemma getLengths_loop_monotone (c : CubicBezierCurve3 R) (n : nat) :
  forall p last sum i j,
    (i <= j < n)%nat ->
    nth i (getLengths_loop c n p last sum) 0
    <= nth j (getLengths_loop c n p last sum) 0.
Proof.
  induction n as [|n IH]; intros p last sum i j Hij; [lia|].
  rewrite getLengths_loop_S.
  destruct i as [|i], j as [|j]; cbn [nth]; try lia.
  - lra.
  - apply getLengths_loop_above. lia.
  - apply IH. lia.
Qed.

(** A sum that is still the starting sum: the curve has not moved. *)
Lemma getLengths_loop_still (c : CubicBezierCurve3 R) (n : nat) :
  forall p last sum j,
    (j < n)%nat ->
    nth j (getLengths_loop c n p last sum) 0 = sum ->
    sample c (p + j) = last.
Proof.
  induction n as [|n IH]; intros p last sum j Hj E; [lia|].
  rewrite getLengths_loop_S in E.
  pose proof (distanceTo_nonneg (sample c p) last) as Hd.
  destruct j as [|j]; cbn [nth] in E.
  - rewrite Nat.add_0_r. apply distanceTo_zero. lra.
  - pose proof (getLengths_loop_above c n (S p) (sample c p)
                  (sum + distanceTo (sample c p) last) j ltac:(lia))
      as Habove.
    assert (Hzero : distanceTo (sample c p) last = 0) by lra.
    replace (p + S j)%nat with (S p + j)%nat by lia.
    rewrite (IH (S p) (sample c p)
               (sum + distanceTo (sample c p) last) j ltac:(lia)).
    + apply distanceTo_zero. exact Hzero.
    + lra.
Qed.

(** A sum that is already the last sum: the curve will not move. *)
Lemma getLengths_loop_done (c : CubicBezierCurve3 R) (n : nat) :
  forall p last sum j,
    (j < n)%nat ->
    nth j (getLengths_loop c n p last sum) 0
    = nth (n - 1) (getLengths_loop c n p last sum) 0 ->
    sample c (p + j) = sample c (p + (n - 1)).
Proof.
  induction n as [|n IH]; intros p last sum j Hj E; [lia|].
  rewrite getLengths_loop_S in E.
  destruct j as [|j].
  - cbn [nth] in E. destruct n as [|n].
    + reflexivity.
    + replace (S (S n) - 1)%nat with (S n) in * by lia.
      cbn [nth] in E. symmetry.
      replace (p + S n)%nat with (S p + n)%nat by lia.
      rewrite Nat.add_0_r.
      apply (getLengths_loop_still c (S n) (S p) (sample c p)
               (sum + distanceTo (sample c p) last) n ltac:(lia)).
      symmetry. exact E.
  - destruct n as [|n]; [lia|].
    replace (S (S n) - 1)%nat with (S n) in * by lia.
    cbn [nth] in E.
    replace (p + S j)%nat with (S p + j)%nat by lia.
    replace (p + S n)%nat with (S p + (S n - 1))%nat by lia.
    apply (IH (S p) (sample c p)
             (sum + distanceTo (sample c p) last) j ltac:(lia)).
    replace (S n - 1)%nat with n by lia. exact E.
Qed.

Lemma divisions_positive : 0 < of_nat arcLengthDivisions.
Proof. unfold arcLengthDivisions, of_nat. simpl. lra. Qed.

Lemma sample_0 (c : CubicBezierCurve3 R) : sample c 0 = v0 c.
Proof.
  unfold sample.
  replace (of_nat 0 / of_nat arcLengthDivisions)%js with 0.
  - apply getPoint_0.
  - unfold of_nat. simpl. unfold Rdiv. ring.
Qed.

Lemma sample_last (c : CubicBezierCurve3 R) :
  sample c arcLengthDivisions = v3 c.
Proof.
  unfold sample.
  replace (of_nat arcLengthDivisions / of_nat arcLengthDivisions)%js with 1.
  - apply getPoint_1.
  - pose proof divisions_positive as Hpos. simpl. field; lra.
Qed.

Lemma getLengths_eq (c : CubicBezierCurve3 R) :
  getLengths c
  = 0 :: getLengths_loop c arcLengthDivisions 1 (getPoint c 0) 0.
Proof. reflexivity. Qed.

Lemma getLengths_length (c : CubicBezierCurve3 R) :
  length (getLengths c) = S arcLengthDivisions.
Proof.
  rewrite getLengths_eq. cbn [length]. rewrite getLengths_loop_length.
  reflexivity.
Qed.

Lemma getLengths_monotone (c : CubicBezierCurve3 R) (i j : nat) :
  (i <= j < length (getLengths c))%nat ->
  nth i (getLengths c) 0 <= nth j (getLengths c) 0.
Proof.
  rewrite getLengths_length, getLengths_eq. intros Hij.
  destruct i as [|i], j as [|j]; cbn [nth]; try lia.
  - lra.
  - apply getLengths_loop_above. lia.
  - apply getLengths_loop_monotone. lia.
Qed.

(** Where the arc length is still 0 the curve is at its start, and
    where it is the whole length the curve is at its end. *)
Lemma getLengths_still (c : CubicBezierCurve3 R) (k : nat) :
  (k <= arcLengthDivisions)%nat ->
  nth k (getLengths c) 0 = 0 ->
  sample c k = v0 c.
Proof.
  rewrite getLengths_eq. intros Hk E. destruct k as [|k].
  - apply sample_0.
  - cbn [nth] in E. rewrite <- getPoint_0.
    apply (getLengths_loop_still c arcLengthDivisions 1 _ 0 k);
      [lia|exact E].
Qed.

Lemma getLengths_done (c : CubicBezierCurve3 R) (k : nat) :
  (k <= arcLengthDivisions)%nat ->
  nth k (getLengths c) 0 = nth arcLengthDivisions (getLengths c) 0 ->
  sample c k = v3 c.
Proof.
  rewrite getLengths_eq. intros Hk E. rewrite <- sample_last.
  pose proof divisions_positive as Hpos.
  destruct arcLengthDivisions as [|n] eqn:En.
  { unfold of_nat in Hpos. simpl in Hpos. lra. }
  cbn [nth] in E. destruct k as [|k].
  - rewrite sample_0, <- getPoint_0.
    symmetry.
    apply (getLengths_loop_still c (S n) 1 (getPoint c 0) 0 n);
      [lia|]. symmetry. exact E.
  - pose proof (getLengths_loop_done c (S n) 1 (getPoint c 0) 0 k
                  ltac:(lia)) as Hdone.
    replace (S n - 1)%nat with n in Hdone by lia.
    exact (Hdone E).
Qed.

(** *** The binary search *)

Lemma index_nth (a : list R) (i : Z) :
  (0 <= i)%Z -> index a i = nth (Z.to_nat i) a 0.
Proof.
  intros Hi. unfold index.
  destruct (Z.ltb_spec i 0); [lia|reflexivity].
Qed.

(** In an array that does not decrease, the search finds a value that
    occurs between [low] and [high]. *)
Lemma bsearch_finds (a : list R) (target : R) :
  (forall i j, (i <= j < length a)%nat -> nth i a 0 <= nth j a 0) ->
  forall fuel low high,
    (0 <= low)%Z -> (high < Z.of_nat (length a))%Z ->
    (high - low + 1 <= Z.of_nat fuel)%Z ->
    (exists j, (low <= j <= high)%Z /\ nth (Z.to_nat j) a 0 = target) ->
    (low <= bsearch fuel a target low high <= high)%Z
    /\ nth (Z.to_nat (bsearch fuel a target low high)) a 0 = target.
Proof.
  intros Hmono fuel.
  induction fuel as [|fuel IH]; intros low high Hlow Hhigh Hfuel
    (j & Hj & Ej).
  - lia.
  - cbn [bsearch].
    destruct (Z.leb_spec low high) as [Hle|Hgt]; [|lia].
    set (i := (low + (high - low) / 2)%Z).
    assert (Hi : (low <= i <= high)%Z).
    { unfold i. pose proof (Z.div_pos (high - low) 2).
      pose proof (Z.div_le_upper_bound (high - low) 2 (high - low)).
      lia. }
    rewrite (index_nth a i) by lia.
    change ((nth (Z.to_nat i) a 0 - target <? of_Z 0)%js)
      with (R_ltb (nth (Z.to_nat i) a 0 - target) 0).
    change ((nth (Z.to_nat i) a 0 - target >? of_Z 0)%js)
      with (R_ltb 0 (nth (Z.to_nat i) a 0 - target)).
    destruct (R_ltb (nth (Z.to_nat i) a 0 - target) 0) eqn:Hlt.
    + apply R_ltb_true in Hlt.
      assert (Hji : (i < j)%Z).
      { destruct (Z.lt_ge_cases i j) as [|Hge]; [assumption|].
        pose proof (Hmono (Z.to_nat j) (Z.to_nat i) ltac:(lia)). lra. }
      destruct (IH (i + 1)%Z high ltac:(lia) Hhigh ltac:(lia)) as (Hr & Er).
      { exists j. split; [lia|exact Ej]. }
      split; [lia|exact Er].
    + destruct (R_ltb 0 (nth (Z.to_nat i) a 0 - target)) eqn:Hgt.
      * apply R_ltb_true in Hgt.
        assert (Hji : (j < i)%Z).
        { destruct (Z.lt_ge_cases j i) as [|Hge]; [assumption|].
          pose proof (Hmono (Z.to_nat i) (Z.to_nat j) ltac:(lia)). lra. }
        destruct (IH low (i - 1)%Z Hlow ltac:(lia) ltac:(lia))
          as (Hr & Er).
        { exists j. split; [lia|exact Ej]. }
        split; [lia|exact Er].
      * apply R_ltb_false in Hlt, Hgt. split; [exact Hi|]. lra.
Qed.

Lemma R_eqb_refl (a : R) : R_eqb a a = true.
Proof. unfold R_eqb. destruct (Req_dec_T a a); [reflexivity|contradiction]. Qed.

(** When the target arc length [u * length] occurs among the arc
    lengths, [getUtoTmapping] returns [k / n] for an index [k] at which
    it occurs. *)
Lemma getUtoTmapping_exact (arcs : list R) (n : nat) (u : R) :
  length arcs = S n ->
  (forall i j, (i <= j < length arcs)%nat -> nth i arcs 0 <= nth j arcs 0) ->
  (exists j, (j <= n)%nat /\ nth j arcs 0 = u * nth n arcs 0) ->
  exists k, (k <= n)%nat /\ nth k arcs 0 = u * nth n arcs 0
            /\ getUtoTmapping arcs u = (of_nat k / of_nat n)%js.
Proof.
  intros Hlen Hmono (j & Hj & Ej).
  unfold getUtoTmapping. cbv zeta.
  assert (Hil : (Z.of_nat (length arcs) - 1 = Z.of_nat n)%Z)
    by (rewrite Hlen; lia).
  rewrite Hil. rewrite (index_nth arcs (Z.of_nat n)) by lia.
  rewrite Nat2Z.id.
  change (u * nth n arcs 0)%js with (u * nth n arcs 0).
  destruct (bsearch_finds arcs (u * nth n arcs 0) Hmono (length arcs)
              0%Z (Z.of_nat n) ltac:(lia) ltac:(lia) ltac:(lia))
    as (Hrange & Efound).
  { exists (Z.of_nat j). split; [lia|]. rewrite Nat2Z.id. exact Ej. }
  set (i := bsearch (length arcs) arcs (u * nth n arcs 0) 0 (Z.of_nat n))
    in *.
  rewrite (index_nth arcs i) by lia. rewrite Efound.
  change ((u * nth n arcs 0 =? u * nth n arcs 0)%js)
    with (R_eqb (u * nth n arcs 0) (u * nth n arcs 0)).
  rewrite R_eqb_refl.
  exists (Z.to_nat i). split; [lia|]. split; [exact Efound|].
  unfold of_nat. rewrite Z2Nat.id by lia. reflexivity.
Qed.

(** [curve.getPointAt(0)] is the start of the curve and
    [curve.getPointAt(1)] its end. *)
Lemma getPointAt_start (c : CubicBezierCurve3 R) :
  getPointAt c (getLengths c) 0 = v0 c.
Proof.
  unfold getPointAt.
  destruct (getUtoTmapping_exact (getLengths c) arcLengthDivisions 0
              (getLengths_length c) (getLengths_monotone c))
    as (k & Hk & Ek & ->).
  { exists 0%nat. split; [lia|]. rewrite getLengths_eq. cbn [nth]. ring. }
  apply getLengths_still; [exact Hk|]. rewrite Ek. ring.
Qed.

Lemma getPointAt_end (c : CubicBezierCurve3 R) :
  getPointAt c (getLengths c) 1 = v3 c.
Proof.
  unfold getPointAt.
  destruct (getUtoTmapping_exact (getLengths c) arcLengthDivisions 1
              (getLengths_length c) (getLengths_monotone c))
    as (k & Hk & Ek & ->).
  { exists arcLengthDivisions. split; [lia|]. ring. }
  apply getLengths_done; [exact Hk|]. rewrite Ek. ring.
Qed.

(** The length of a curve, and a curve of length 0. *)
Lemma lastLength_getLengths (c : CubicBezierCurve3 R) :
  lastLength (getLengths c) = nth arcLengthDivisions (getLengths c) 0.
Proof.
  unfold lastLength. rewrite getLengths_length.
  rewrite index_nth by lia. f_equal; lia.
Qed.

Lemma curve_length_nonneg (c : CubicBezierCurve3 R) :
  0 <= lastLength (getLengths c).
Proof.
  rewrite lastLength_getLengths.
  replace 0 with (nth 0 (getLengths c) 0) at 1
    by (rewrite getLengths_eq; reflexivity).
  apply getLengths_monotone. rewrite getLengths_length. lia.
Qed.

Lemma curve_length_zero (c : CubicBezierCurve3 R) :
  lastLength (getLengths c) = 0 -> v0 c = v3 c.
Proof.
  rewrite lastLength_getLengths. intros E.
  rewrite <- (getLengths_still c arcLengthDivisions (Nat.le_refl _) E).
  apply sample_last.
Qed.

(** *** The path of curves *)

Lemma totalLength_above (cs : list (CubicBezierCurve3 R)) :
  forall sums, sums <= totalLength cs sums.
Proof.
  induction cs as [|c rest IH]; intros sums; cbn [totalLength].
  - lra.
  - pose proof (curve_length_nonneg c). pose proof (IH (sums + lastLength (getLengths c))).
    lra.
Qed.

(** Curves that add nothing to the length do not move. *)
Lemma chained_no_length (cs : list (CubicBezierCurve3 R)) :
  forall sums a b,
    totalLength cs sums = sums -> chained a cs b -> a = b.
Proof.
  induction cs as [|c rest IH]; intros sums a b E Hch;
    cbn [totalLength chained] in *.
  - exact Hch.
  - destruct Hch as (<- & Hch).
    pose proof (curve_length_nonneg c) as Hc.
    pose proof (totalLength_above rest (sums + lastLength (getLengths c)))
      as Hr.
    assert (Hzero : lastLength (getLengths c) = 0) by lra.
    rewrite (curve_length_zero c Hzero).
    apply (IH (sums + lastLength (getLengths c))); [lra|exact Hch].
Qed.

Lemma lastLength_cons (a : R) (l : list R) :
  l <> [] -> lastLength (a :: l) = lastLength l.
Proof.
  intros Hl. unfold lastLength. destruct l as [|b l]; [contradiction|].
  rewrite !index_nth by (cbn [length]; lia).
  replace (Z.to_nat (Z.of_nat (length (a :: b :: l)) - 1))
    with (S (length l)) by (cbn [length]; lia).
  replace (Z.to_nat (Z.of_nat (length (b :: l)) - 1))
    with (length l) by (cbn [length]; lia).
  reflexivity.
Qed.

Lemma getCurveLengths_loop_cons (c : CubicBezierCurve3 R)
    (rest : list (CubicBezierCurve3 R)) (sums : R) :
  getCurveLengths_loop (map getLengths (c :: rest)) sums
  = (sums + lastLength (getLengths c))
      :: getCurveLengths_loop (map getLengths rest)
           (sums + lastLength (getLengths c)).
Proof. reflexivity. Qed.

Lemma lastLength_getCurveLengths (cs : list (CubicBezierCurve3 R)) :
  forall sums,
    cs <> [] ->
    lastLength (getCurveLengths_loop (map getLengths cs) sums)
    = totalLength cs sums.
Proof.
  induction cs as [|c rest IH]; intros sums Hne; [contradiction|].
  rewrite getCurveLengths_loop_cons. cbn [totalLength].
  destruct rest as [|c2 rest].
  - unfold lastLength. cbn [map getCurveLengths_loop length].
    rewrite index_nth by lia. reflexivity.
  - rewrite lastLength_cons.
    + apply IH. discriminate.
    + rewrite getCurveLengths_loop_cons. discriminate.
Qed.

Lemma getPoint_from_cons (c : CubicBezierCurve3 R)
    (rest : list (CubicBezierCurve3 R)) (sums d : R) :
  getPoint_from (c :: rest) sums d
  = if R_leb d (sums + lastLength (getLengths c)) then
      Some (getPointAt c (getLengths c)
              (if R_eqb (lastLength (getLengths c)) 0 then 0
               else 1 - (sums + lastLength (getLengths c) - d)
                        / lastLength (getLengths c)))
    else getPoint_from rest (sums + lastLength (getLengths c)) d.
Proof. reflexivity. Qed.

Lemma R_eqb_true (a b : R) : R_eqb a b = true <-> a = b.
Proof. unfold R_eqb. destruct (Req_dec_T a b); split; intros; auto; discriminate. Qed.

Lemma R_eqb_false (a b : R) : R_eqb a b = false <-> a <> b.
Proof.
  unfold R_eqb. destruct (Req_dec_T a b); split; intros; auto;
    try discriminate; contradiction.
Qed.

(** At distance 0 the path is at the start of its first curve. *)
Lemma getPoint_from_start (c : CubicBezierCurve3 R)
    (rest : list (CubicBezierCurve3 R)) :
  getPoint_from (c :: rest) 0 0 = Some (v0 c).
Proof.
  rewrite getPoint_from_cons.
  pose proof (curve_length_nonneg c) as Hc.
  destruct (R_leb 0 (0 + lastLength (getLengths c))) eqn:Hle.
  2:{ apply R_leb_false in Hle. lra. }
  f_equal.
  destruct (R_eqb (lastLength (getLengths c)) 0) eqn:Hz.
  - apply getPointAt_start.
  - apply R_eqb_false in Hz.
    replace (1 - (0 + lastLength (getLengths c) - 0)
                 / lastLength (getLengths c)) with 0 by (field; exact Hz).
    apply getPointAt_start.
Qed.

(** At the distance of its whole length the path is at the end of its
    last curve. *)
Lemma getPoint_from_end (cs : list (CubicBezierCurve3 R)) :
  forall sums a b,
    cs <> [] -> chained a cs b ->
    getPoint_from cs sums (totalLength cs sums) = Some b.
Proof.
  induction cs as [|c rest IH]; intros sums a b Hne Hch; [contradiction|].
  rewrite getPoint_from_cons. cbn [totalLength chained] in *.
  destruct Hch as (Ha & Hch).
  pose proof (curve_length_nonneg c) as Hc.
  pose proof (totalLength_above rest (sums + lastLength (getLengths c)))
    as Hr.
  set (s' := sums + lastLength (getLengths c)) in *.
  destruct (R_leb (totalLength rest s') s') eqn:Hle.
  - apply R_leb_true in Hle.
    assert (Eend : v3 c = b).
    { apply (chained_no_length rest s'); [lra|exact Hch]. }
    f_equal.
    destruct (R_eqb (lastLength (getLengths c)) 0) eqn:Hz.
    + apply R_eqb_true in Hz. rewrite getPointAt_start.
      rewrite (curve_length_zero c Hz). exact Eend.
    + apply R_eqb_false in Hz.
      replace (1 - (s' - totalLength rest s') / lastLength (getLengths c))
        with 1.
      * rewrite getPointAt_end. exact Eend.
      * replace (totalLength rest s') with s' by lra. field. exact Hz.
  - apply R_leb_false in Hle.
    apply (IH s' (v3 c) b); [|exact Hch].
    intros ->. cbn [totalLength] in Hle. lra.
Qed.

Lemma CurvePath_getPoint_eq (curves : list (CubicBezierCurve3 R)) (t : R) :
  curves <> [] ->
  CurvePath_getPoint curves (map getLengths curves)
    (getCurveLengths (map getLengths curves)) t
  = getPoint_from curves 0 (t * totalLength curves 0).
Proof.
  intros Hne. unfold CurvePath_getPoint, getCurveLengths. cbv zeta.
  change (of_Z 0) with 0.
  rewrite (lastLength_getCurveLengths curves 0 Hne). reflexivity.
Qed.

Lemma last_map_seq {T} (f : nat -> T) (n : nat) (d : T) :
  last (map f (seq 0 (S n))) d = f n.
Proof.
  rewrite seq_S, map_app. cbn [map]. apply last_last.
Qed.

(** The first of the spaced points of a path is the start of its first
    curve and the last one the end of its last curve. *)
Lemma getSpacedPoints_ends (curves : list (CubicBezierCurve3 R))
    (a b : Vector3 R) (divisions : nat) :
  curves <> [] -> chained a curves b -> (0 < divisions)%nat ->
  hd_error (getSpacedPoints curves divisions) = Some (Some a)
  /\ last (getSpacedPoints curves divisions) None = Some b.
Proof.
  intros Hne Hch Hdiv. unfold getSpacedPoints. cbv zeta. split.
  - cbn [seq map hd_error]. rewrite CurvePath_getPoint_eq by exact Hne.
    replace (of_nat 0 / of_nat divisions)%js with 0
      by (unfold of_nat; simpl; unfold Rdiv; ring).
    rewrite Rmult_0_l.
    destruct curves as [|c rest]; [contradiction|].
    destruct Hch as (<- & _). rewrite getPoint_from_start. reflexivity.
  - rewrite last_map_seq. rewrite CurvePath_getPoint_eq by exact Hne.
    assert (Hpos : 0 < of_nat divisions).
    { unfold of_nat. simpl. apply IZR_lt. lia. }
    replace (of_nat divisions / of_nat divisions)%js with 1.
    + rewrite Rmult_1_l. apply (getPoint_from_end curves 0 a b Hne Hch).
    + generalize dependent (of_nat (F:=R) divisions). intros n Hpos.
      change (1 = n / n). field. lra.
Qed.

(** *** The curves of a genome *)

Lemma chained_segments (pts : list (Vector3 R)) (m : nat) :
  forall k,
    chained (at_index pts k) (map (segmentCurve pts) (seq k m))
      (at_index pts (k + m)).
Proof.
  induction m as [|m IH]; intros k; cbn [seq map chained].
  - rewrite Nat.add_0_r. reflexivity.
  - split; [reflexivity|].
    cbn [segmentCurve v3].
    replace (k + S m)%nat with (S k + m)%nat by lia.
    replace (k + 1)%nat with (S k) by lia. apply IH.
Qed.

Lemma pathCurves_chained (world : World R) (genome : Genome R) :
  pathCurves world genome <> []
  /\ chained (A world) (pathCurves world genome) (B world).
Proof.
  unfold pathCurves. cbv zeta.
  set (pts := A world :: ctrl genome ++ [B world]).
  assert (Hlen : (length pts - 1 = S (length (ctrl genome)))%nat).
  { unfold pts. cbn [length]. rewrite length_app. cbn [length]. lia. }
  rewrite Hlen. split.
  - cbn [seq map]. discriminate.
  - pose proof (chained_segments pts (S (length (ctrl genome))) 0) as Hch.
    replace (at_index pts 0) with (A world) in Hch by reflexivity.
    replace (at_index pts (0 + S (length (ctrl genome)))) with (B world)
      in Hch; [exact Hch|].
    unfold at_index, pts. cbn [Nat.add nth].
    rewrite app_nth2 by lia. rewrite Nat.sub_diag. reflexivity.
Qed.

Lemma distanceTo_self (p : Vector3 R) : distanceTo p p = 0.
Proof.
  unfold distanceTo, distanceToSquared. simpl.
  replace ((x p - x p) * (x p - x p) + (y p - y p) * (y p - y p)
           + (z p - z p) * (z p - z p)) with 0 by ring.
  apply sqrt_0.
Qed.
End EndPoints.

(** Over the reals [CurvePath.getPoint] never returns [null] on a path
    that has a curve, for [t] between 0 and 1: the fitness evaluator
    returns for every genome. *)
Section NoNull.
Local Open Scope R_scope.

Lemma getPoint_from_some (cs : list (CubicBezierCurve3 R)) :
  forall sums d,
    cs <> [] -> d <= totalLength cs sums ->
    exists p, getPoint_from cs sums d = Some p.
Proof.
  induction cs as [|c rest IH]; intros sums d Hne Hd; [contradiction|].
  rewrite getPoint_from_cons. cbn [totalLength] in Hd.
  destruct (R_leb d (sums + lastLength (getLengths c))) eqn:Hle.
  - eexists. reflexivity.
  - apply R_leb_false in Hle. apply IH; [|exact Hd].
    intros ->. cbn [totalLength] in Hd. lra.
Qed.

Lemma allPoints_map_some {T} (f : T -> option (Vector3 R)) (l : list T) :
  (forall a, In a l -> exists p, f a = Some p) ->
  exists pts, allPoints (map f l) = Some pts.
Proof.
  induction l as [|a l IH]; intros Hall; cbn [map allPoints].
  - eexists. reflexivity.
  - destruct (Hall a (or_introl eq_refl)) as (p & ->).
    destruct IH as (pts & ->).
    { intros b Hb. apply Hall. right. exact Hb. }
    eexists. reflexivity.
Qed.

Lemma pathPoints_no_null (world : World R) (genome : Genome R)
    (steps : nat) :
  (0 < steps)%nat ->
  exists pts, allPoints (pathPoints world genome steps) = Some pts.
Proof.
  intros Hsteps. unfold pathPoints, getSpacedPoints. cbv zeta.
  destruct (pathCurves_chained world genome) as (Hne & _).
  apply allPoints_map_some. intros i Hi. apply in_seq in Hi.
  rewrite CurvePath_getPoint_eq by exact Hne.
  apply getPoint_from_some; [exact Hne|].
  pose proof (totalLength_above (pathCurves world genome) 0) as HT.
  assert (Hpos : 0 < of_nat steps).
  { unfold of_nat. simpl. apply IZR_lt. lia. }
  assert (Hi' : 0 <= of_nat i <= of_nat steps).
  { unfold of_nat. simpl. split; apply IZR_le; lia. }
  generalize dependent (of_nat (F:=R) steps).
  generalize dependent (of_nat (F:=R) i).
  generalize dependent (totalLength (pathCurves world genome) 0).
  intros T HT ni ns Hpos Hi'.
  change (ni / ns * T <= T).
  assert (ni / ns <= 1).
  { apply (Rmult_le_reg_r ns); [exact Hpos|].
    replace (ni / ns * ns) with ni by (field; lra). lra. }
  assert (0 <= ni / ns).
  { apply Rmult_le_pos; [lra|]. apply Rlt_le, Rinv_0_lt_compat. exact Hpos. }
  nra.
Qed.

Lemma evaluateFitness_returns (world : World R) (TARGET : String.string)
    (genome : Genome R) :
  exists f, evaluateFitness world TARGET genome
            = Some (f, mkGenome (ctrl genome) f).
Proof.
  destruct (pathPoints_no_null world genome 80 ltac:(lia)) as (pts & E).
  exists (fitnessFormula TARGET world pts).
  unfold evaluateFitness, evaluateFitness_with.
  rewrite fitness_loop_sums, E. reflexivity.
Qed.
End NoNull.



(** * Further properties of the code *)

Section RandRange.
Local Open Scope R_scope.

Lemma rand_output_range (s : Z) : 0 <= rand_output (F:=R) s < 1.
Proof.
  unfold rand_output. pose proof (rand_numerator_range s) as Hs.
  change (of_Z (F:=R)) with IZR. change (ndiv (F:=R)) with Rdiv.
  assert (H2 : 0 < IZR two32) by (apply IZR_lt; reflexivity).
  split.
  - apply Rmult_le_pos; [apply IZR_le; lia|].
    apply Rlt_le, Rinv_0_lt_compat. exact H2.
  - apply (Rmult_lt_reg_r (IZR two32)); [exact H2|].
    unfold Rdiv. rewrite Rmult_assoc, Rinv_l by lra.
    rewrite Rmult_1_r, Rmult_1_l. apply IZR_lt. lia.
Qed.

Lemma rand_output_positive (s : Z) :
  toUint32 s <> 0%Z -> 0 < rand_output (F:=R) s.
Proof.
  intros Hs. unfold rand_output. pose proof (rand_numerator_range s) as Hr.
  assert (Hu : ushr32 s 0 = toUint32 s).
  { unfold ushr32. apply Z.shiftr_0_r. }
  change (of_Z (F:=R)) with IZR. change (ndiv (F:=R)) with Rdiv.
  assert (H2 : 0 < IZR two32) by (apply IZR_lt; reflexivity).
  apply Rmult_lt_0_compat; [apply IZR_lt; lia|].
  apply Rinv_0_lt_compat. exact H2.
Qed.

Lemma rand_range (g : Globals R) (r : R) (g' : Globals R) :
  rand_ g = Some (r, g') -> 0 <= r < 1.
Proof.
  unfold rand_, rand_call. intros E. injection E as <- _.
  apply rand_output_range.
Qed.
End RandRange.

(** X1. A generator seeded with a number that is not a multiple of 2^32
    never reaches the state 0, and over the reals every number it returns
    lies strictly between 0 and 1: the three xorshift updates send no
    state but 0 to 0. *)
Theorem nonzero_seed_never_degenerates (seed : Z) (n : nat) :
  toUint32 seed <> 0%Z ->
  rand_state (seedRandom seed) n <> 0%Z
  /\ (0 < rand_nth (F:=R) (seedRandom seed) n < 1)%R.
Proof.
  intros Hseed.
  assert (Hs : toUint32 (seedRandom seed) <> 0%Z).
  { unfold seedRandom, ushr32. rewrite Z.shiftr_0_r.
    unfold toUint32 in *. rewrite Z.mod_mod by (unfold two32; lia).
    exact Hseed. }
  pose proof (rand_state_nonzero _ n Hs) as Hn.
  split.
  - intros E. rewrite E in Hn. apply Hn. reflexivity.
  - unfold rand_nth. split.
    + apply rand_output_positive. exact Hn.
    + apply rand_output_range.
Qed.

Lemma nonzero_seed_never_degenerates_witness :
  rand_state (seedRandom 500000000) 7 <> 0%Z
  /\ (0 < rand_nth (F:=R) (seedRandom 500000000) 7 < 1)%R.
Proof.
  apply (nonzero_seed_never_degenerates 500000000 7).
  vm_compute. discriminate.
Defined.

(** ** Clones *)

Section Clones.
Context {F : Type} `{Number F}.

Lemma clone_id (p : Vector3 F) : clone p = p.
Proof. destruct p; reflexivity. Qed.

Lemma map_clone_id (pts : list (Vector3 F)) : map clone pts = pts.
Proof.
  induction pts as [|p rest IH]; simpl; [reflexivity|].
  rewrite clone_id, IH. reflexivity.
Qed.

(** [cloneGenome] copies every control point and the fitness: as a
    value the clone is the genome. *)
Lemma cloneGenome_id (g : Genome F) : cloneGenome g = g.
Proof.
  unfold cloneGenome. rewrite map_clone_id. destruct g; reflexivity.
Qed.
End Clones.

(** ** The sort of the population *)

Section SortPermutation.
Context {F : Type} `{Number F}.

Lemma insertSorted_Permutation (g : Genome F) (sorted : list (Genome F)) :
  Permutation (insertSorted g sorted) (g :: sorted).
Proof.
  induction sorted as [|h rest IH]; simpl.
  - apply Permutation_refl.
  - destruct (nltb _ _).
    + apply Permutation_refl.
    + eapply Permutation_trans; [apply perm_skip; exact IH|].
      apply perm_swap.
Qed.

Lemma fold_insertSorted_Permutation (pop : list (Genome F)) :
  forall acc,
    Permutation (fold_left (fun sorted g => insertSorted g sorted) pop acc)
                (pop ++ acc).
Proof.
  induction pop as [|g rest IH]; intros acc; simpl.
  - apply Permutation_refl.
  - eapply Permutation_trans; [apply IH|].
    eapply Permutation_trans;
      [apply Permutation_app_head; apply insertSorted_Permutation|].
    apply Permutation_sym. apply Permutation_middle.
Qed.
End SortPermutation.

(** X4. The sort of the population by fitness loses and invents no
    genome: the sorted array is a permutation of the array. *)
Theorem sortByFitness_Permutation {F : Type} `{Number F}
    (pop : list (Genome F)) :
  Permutation (sortByFitness pop) pop.
Proof.
  unfold sortByFitness.
  eapply Permutation_trans; [apply fold_insertSorted_Permutation|].
  rewrite app_nil_r. apply Permutation_refl.
Qed.

(** ** What a generation does to the state *)

Section Shape.
Context {F : Type} `{Number F}.
Variable PARAMS : Params F.
Local Open Scope js_scope.

(** A call of [stepGen] that runs a generation, taken apart. *)
Lemma stepGen_shape (play : bool) (i : nat) (g : Globals F)
    (next : option nat) (g' : Globals F) :
  (i < generations PARAMS)%nat ->
  stepGen PARAMS play i g = Some (next, g') ->
  exists elite bred s evald first tgt,
    nth_error (population g) 0 = Some elite
    /\ breed_loop PARAMS (popSize PARAMS) [cloneGenome elite]
         (set_gen (gen g + 1) g)
       = Some (bred, set_rand s (set_gen (gen g + 1) g))
    /\ forEach_evaluateFitness (WORLD g) (TARGET g) bred = Some evald
    /\ nth_error (sortByFitness evald) 0 = Some first
    /\ next = Some (i + 1)%nat
    /\ population g' = sortByFitness evald
    /\ gen g' = (gen g + 1)%nat
    /\ WORLD g' = WORLD g /\ TARGET g' = TARGET g
    /\ running g' = running g
    /\ let shown := match lastBest g with
                    | Some b => fitness first >? fitness b
                    | None => true
                    end in
       lastBest g' = (if shown then Some (cloneGenome first) else lastBest g)
       /\ headVisible g' = (if shown then false else headVisible g)
       /\ log g' = HUD (gen g + 1) (fitness first) tgt
                     :: (if shown then ShowBest (cloneGenome first) :: log g
                         else log g).
Proof.
  intros Hi E. unfold stepGen in E.
  destruct (Nat.leb_spec (generations PARAMS) i) as [Hge|_]; [lia|].
  inv_M E.
  pose proof (breed_loop_frame PARAMS _ _ _ _ _ H1) as (s & Hs). subst g0.
  unfold evaluateAll in H2. inv_M H2. fields.
  exists a, a0, s, a1, a2.
  assert (Hshow : forall genome g3,
             (modify (set_lastBest (Some genome)) ;;; showBest genome)%monad
               (set_population (sortByFitness a1)
                  (set_rand s (set_gen (gen g + 1) g))) = Some (a3, g3) ->
             exists pts,
               g3 = set_headVisible false
                      (emit (ShowBest genome)
                         (set_animPath pts
                            (set_lastBest (Some genome)
                               (set_population (sortByFitness a1)
                                  (set_rand s (set_gen (gen g + 1) g))))))).
  { intros genome g3 E. inv_M E. unfold showBest in E. inv_M E.
    eexists. reflexivity. }
  unfold updateHUD in H5. inv_M H5.
  exists (if String.eqb (TARGET g) "left" then "Left"%string
          else if String.eqb (TARGET g) "right" then "Right"%string
               else "Either"%string).
  assert (Hhead : match sortByFitness a1 with
                  | [] => of_Z 0
                  | g0 :: _ => fitness g0
                  end = fitness a2).
  { destruct (sortByFitness a1); [discriminate|].
    injection H3 as ->. reflexivity. }
  repeat (split; [first [exact H0 | exact H1 | exact H2 | exact H3
                        | reflexivity |idtac]|]).
  all: destruct (lastBest g) as [b|] eqn:Hb; fields.
  all: try destruct (fitness a2 >? fitness b) eqn:Hcmp.
  all: try (apply Hshow in H4; destruct H4 as (pts & ->)).
  all: try (inv_M H4).
  all: fields; rewrite ?Hb, ?Hhead; repeat split; try reflexivity.
  all: try exact H0; try exact H1; try exact H2; try exact H3.
Qed.
End Shape.

Section ShapeBegin.
Context {F : Type} `{Number F}.
Variable PARAMS : Params F.
Local Open Scope js_scope.

(** [evolveInitial], taken apart. *)
Lemma evolveInitial_shape (g g' : Globals F) :
  evolveInitial PARAMS g = Some (tt, g') ->
  exists pop s evald first tgt,
    makeInitialPopulation PARAMS g = Some (pop, set_rand s g)
    /\ forEach_evaluateFitness (WORLD g) (TARGET g) pop = Some evald
    /\ nth_error (sortByFitness evald) 0 = Some first
    /\ population g' = sortByFitness evald
    /\ gen g' = gen g
    /\ WORLD g' = WORLD g /\ TARGET g' = TARGET g
    /\ running g' = running g
    /\ lastBest g' = Some (cloneGenome first)
    /\ headVisible g' = false
    /\ log g' = HUD (gen g) (fitness first) tgt
                  :: ShowBest (cloneGenome first) :: log g.
Proof.
  unfold evolveInitial. intros E. inv_M E.
  pose proof (rand_only_frame _ _ _ _
                (rand_only_makeInitialPopulation PARAMS) H0) as (s & Hs).
  subst g0.
  unfold evaluateAll in H1. inv_M H1. fields.
  unfold showBest in H3. inv_M H3.
  unfold updateHUD in E. inv_M E. fields.
  assert (Hhead : match sortByFitness a0 with
                  | [] => of_Z 0
                  | g0 :: _ => fitness g0
                  end = fitness a1).
  { destruct (sortByFitness a0); [discriminate|].
    injection H2 as ->. reflexivity. }
  rewrite Hhead.
  exists a, s, a0, a1.
  eexists. repeat split; try eassumption; reflexivity.
Qed.

(** [runEvolution] up to its call of [stepGen], when no run is in
    progress, taken apart: [g1] is the state before [evolveInitial]. *)
Lemma runEvolution_begin_shape (play : bool) (target : String.string)
    (random : F) (g : Globals F) (next : option nat) (g' : Globals F) :
  running g = false ->
  runEvolution_begin PARAMS play target random g = Some (next, g') ->
  exists g1,
    next = Some 0%nat
    /\ evolveInitial PARAMS g1 = Some (tt, g')
    /\ gen g1 = 0%nat /\ running g1 = true /\ log g1 = log g
    /\ A (WORLD g1) = A (WORLD g) /\ B (WORLD g1) = B (WORLD g)
    /\ (play = true -> WORLD g1 = WORLD g)
    /\ TARGET g1 = (if String.eqb target "" then TARGET g else target).
Proof.
  intros Hrun E. unfold runEvolution_begin in E.
  apply bind_Some in E. destruct E as (busy & g0 & Hbusy & E).
  inv_M Hbusy. rewrite Hrun in E.
  apply bind_Some in E. destruct E as ([] & g1 & E1 & E). inv_M E1.
  apply bind_Some in E. destruct E as ([] & g2 & E2 & E). inv_M E2.
  apply bind_Some in E. destruct E as ([] & g3 & E3 & E). inv_M E3.
  apply bind_Some in E. destruct E as ([] & g4 & E4 & E).
  apply bind_Some in E. destruct E as ([] & g5 & E5 & E). inv_M E5.
  apply bind_Some in E. destruct E as ([] & g6 & E6 & E). inv_M E.
  eexists. split; [reflexivity|]. split; [exact E6|].
  destruct play.
  - inv_M E4. fields. repeat split. 
  - rewrite jitterSpeakers_eq in E4. injection E4 as <-.
    fields. repeat split. discriminate.
Qed.
End ShapeBegin.

(** ** The record of a run *)

Section Record.
Context {F : Type} `{Number F}.
Variable PARAMS : Params F.
Local Open Scope js_scope.

Lemma hudPairs_app (l1 l2 : list (Event F)) :
  hudPairs (l1 ++ l2) = hudPairs l1 ++ hudPairs l2.
Proof.
  induction l1 as [|[n b t|genome] l1 IH]; simpl.
  - reflexivity.
  - rewrite IH. reflexivity.
  - exact IH.
Qed.

(** A whole run is [runEvolution] up to its call of [stepGen], and
    [generations + 1] calls of [stepGen]. *)
Lemma run_timers (play : bool) (target : String.string) (random : F)
    (g : Globals F) :
  run PARAMS play target random g
  = bind (runEvolution_begin PARAMS play target random)
      (timers PARAMS (S (generations PARAMS)) play) g.
Proof.
  unfold run, runEvolution. rewrite bind_assoc. apply bind_ext.
  intros [i|] g1 _; [reflexivity|].
  destruct (generations PARAMS); reflexivity.
Qed.

Lemma stepGen_done_flags (play : bool) (i : nat) (g : Globals F)
    (next : option nat) (g' : Globals F) :
  (generations PARAMS <= i)%nat ->
  stepGen PARAMS play i g = Some (next, g') ->
  running g' = false
  /\ headVisible g' = (if play then true else headVisible g).
Proof.
  intros Hi E. unfold stepGen in E.
  destruct (Nat.leb_spec (generations PARAMS) i) as [_|Hlt]; [|lia].
  destruct play; unfold playBestPath in E; inv_M E; split; reflexivity.
Qed.

Lemma runEvolution_begin_recorded (play : bool) (target : String.string)
    (random : F) (g : Globals F) (next : option nat) (g' : Globals F) :
  running g = false ->
  runEvolution_begin PARAMS play target random (clearLog g)
  = Some (next, g') ->
  next = Some 0%nat /\ recorded 0 g'.
Proof.
  intros Hrun E.
  apply runEvolution_begin_shape in E; [|exact Hrun].
  destruct E as (g1 & -> & E & Hgen & Hr & Hlog & _).
  apply evolveInitial_shape in E.
  destruct E as (pop & s & evald & first & tgt & _ & _ & _ & _ & Hg & _ & _
                 & Hrun' & _ & Hhead & Hlog').
  split; [reflexivity|]. unfold recorded, trace.
  rewrite Hg, Hrun', Hr, Hhead, Hlog', Hlog, Hgen. repeat split.
Qed.

Lemma stepGen_recorded (play : bool) (i : nat) (g : Globals F)
    (next : option nat) (g' : Globals F) :
  (i < generations PARAMS)%nat ->
  recorded i g ->
  stepGen PARAMS play i g = Some (next, g') ->
  next = Some (S i) /\ recorded (S i) g'.
Proof.
  intros Hi (Hgen & Hrun & Hhead & Hhud) E.
  apply stepGen_shape in E; [|exact Hi].
  destruct E as (elite & bred & s & evald & first & tgt & _ & _ & _ & _
                 & -> & _ & Hg & _ & _ & Hrun' & Hbest & Hhead' & Hlog).
  split; [f_equal; lia|]. unfold recorded, trace in *.
  rewrite Hg, Hrun', Hhead', Hlog, Hgen, Hrun, Hhead.
  replace (i + 1)%nat with (S i) by lia.
  repeat split.
  - destruct (match lastBest g with
              | Some b => fitness first >? fitness b
              | None => true
              end); reflexivity.
  - rewrite (seq_S (S i)). cbn [Nat.add].
    destruct (match lastBest g with
              | Some b => fitness first >? fitness b
              | None => true
              end); cbn [rev]; rewrite ?hudPairs_app, ?map_app;
      cbn [hudPairs map fst app]; rewrite ?app_nil_r, Hhud; reflexivity.
Qed.

(** Enough timers take a run to its end. *)
Lemma timers_to_the_end (play : bool) (n : nat) :
  forall i g next g',
    (i <= generations PARAMS)%nat ->
    (generations PARAMS - i < n)%nat ->
    recorded i g ->
    timers PARAMS n play (Some i) g = Some (next, g') ->
    next = None
    /\ running g' = false
    /\ gen g' = generations PARAMS
    /\ headVisible g' = play
    /\ map fst (hudPairs (trace g')) = seq 0 (S (generations PARAMS)).
Proof.
  induction n as [|n IH]; intros i g next g' Hi Hn Hrec E; [lia|].
  cbn [timers] in E.
  apply bind_Some in E. destruct E as (n1 & g1 & Hstep & E).
  destruct (Nat.le_gt_cases (generations PARAMS) i) as [Hge|Hlt].
  - pose proof (stepGen_done PARAMS _ _ _ _ _ Hge Hstep)
      as (-> & _ & Hg & _ & Hlog).
    pose proof (stepGen_done_flags _ _ _ _ _ Hge Hstep) as (Hrun & Hhead).
    destruct Hrec as (Hgen & _ & Hh & Hhud).
    assert (E' : g' = g1 /\ next = None).
    { destruct n; simpl in E; inv_M E; split; reflexivity. }
    destruct E' as (-> & ->).
    assert (i = generations PARAMS) by lia. subst i.
    unfold trace in *. rewrite Hlog, Hg, Hhead, Hh.
    repeat split; try assumption; try (destruct play; reflexivity).
    rewrite Hhud. congruence.
  - pose proof (stepGen_recorded _ _ _ _ _ Hlt Hrec Hstep) as (-> & Hrec').
    apply (IH (S i) g1 next g'); [lia|lia|exact Hrec'|exact E].
Qed.
End Record.

(** X12. A run that starts when no run is in progress, with nothing
    shown yet, ends with the guard [running] released, the generation
    counter at the generation budget, the head visible exactly when the
    run was asked to play, and a HUD that has shown the generations
    0, 1, ..., [generations], once each and in order. *)
Theorem run_record {F : Type} `{Number F}
    (PARAMS : Params F) (play : bool) (target : String.string) (random : F)
    (g : Globals F) (next : option nat) (g' : Globals F) :
  running g = false ->
  run PARAMS play target random (clearLog g) = Some (next, g') ->
  next = None
  /\ running g' = false
  /\ gen g' = generations PARAMS
  /\ headVisible g' = play
  /\ map fst (hudPairs (trace g')) = seq 0 (S (generations PARAMS)).
Proof.
  intros Hrun E. rewrite run_timers in E.
  apply bind_Some in E. destruct E as (n0 & g0 & Hbegin & E).
  apply runEvolution_begin_recorded in Hbegin; [|exact Hrun].
  destruct Hbegin as (-> & Hrec).
  apply (timers_to_the_end PARAMS play (S (generations PARAMS)) 0%nat g0
           next g'); [lia|lia|exact Hrec|exact E].
Qed.

Lemma run_record_witness :
  fst endOfRun1 = None
  /\ running (snd endOfRun1) = false
  /\ gen (snd endOfRun1) = generations P1
  /\ headVisible (snd endOfRun1) = true
  /\ map fst (hudPairs (trace (snd endOfRun1))) = seq 0 (S (generations P1)).
Proof.
  apply (run_record P1 true "either" random1 loaded).
  - reflexivity.
  - vm_compute. reflexivity.
Defined.

(** ** The shape of the genomes *)

Section WellFormed.
Context {F : Type} `{Number F}.
Variable PARAMS : Params F.
Local Open Scope js_scope.

Lemma makeGenome_loop_points (n : nat) :
  forall i g pts g',
    makeGenome_loop PARAMS n i g = Some (pts, g') ->
    length pts = n /\ Forall (fun p => y p = of_Z 0) pts.
Proof.
  induction n as [|n IH]; intros i g pts g' E; simpl in E.
  - inv_M E. split; [reflexivity|constructor].
  - apply bind_Some in E. destruct E as (w & g1 & Hw & E).
    apply bind_Some in E. destruct E as (r1 & g2 & Hr1 & E).
    apply bind_Some in E. destruct E as (r2 & g3 & Hr2 & E).
    apply bind_Some in E. destruct E as (rest & g4 & Hrest & E).
    inv_M E. apply IH in Hrest. destruct Hrest as (Hlen & Hy).
    split; [simpl; f_equal; exact Hlen|].
    constructor; [reflexivity|exact Hy].
Qed.

Lemma makeGenome_wellFormed (g : Globals F) (genome : Genome F)
    (g' : Globals F) :
  makeGenome PARAMS g = Some (genome, g') ->
  wellFormed PARAMS genome /\ fitness genome = neg_infinity.
Proof.
  unfold makeGenome. intros E.
  apply bind_Some in E. destruct E as (pts & g1 & Hpts & E). inv_M E.
  apply makeGenome_loop_points in Hpts. split; [exact Hpts|reflexivity].
Qed.

Lemma makeInitialPopulation_wellFormed (n : nat) :
  forall g pop g',
    makeInitialPopulation_loop PARAMS n g = Some (pop, g') ->
    Forall (wellFormed PARAMS) pop.
Proof.
  induction n as [|n IH]; intros g pop g' E; simpl in E.
  - inv_M E. constructor.
  - apply bind_Some in E. destruct E as (gm & g1 & Hgm & E).
    apply bind_Some in E. destruct E as (rest & g2 & Hrest & E).
    inv_M E. constructor.
    + apply makeGenome_wellFormed in Hgm. apply Hgm.
    + eapply IH. eassumption.
Qed.

Lemma crossover_loop_points (a b : Genome F) (n : nat) :
  forall i g pts g',
    crossover_loop a b n i g = Some (pts, g') ->
    length pts = n /\ Forall (fun p => y p = of_Z 0) pts.
Proof.
  induction n as [|n IH]; intros i g pts g' E; simpl in E.
  - inv_M E. split; [reflexivity|constructor].
  - apply bind_Some in E. destruct E as (r & g1 & Hr & E).
    apply bind_Some in E. destruct E as (t & g2 & Ht & E).
    apply bind_Some in E. destruct E as (pa & g3 & Hpa & E).
    apply bind_Some in E. destruct E as (pb & g4 & Hpb & E).
    apply bind_Some in E. destruct E as (rest & g5 & Hrest & E).
    inv_M E. apply IH in Hrest. destruct Hrest as (Hlen & Hy).
    split; [simpl; f_equal; exact Hlen|].
    constructor; [reflexivity|exact Hy].
Qed.

Lemma crossover_wellFormed (a b : Genome F) (g : Globals F)
    (child : Genome F) (g' : Globals F) :
  crossover PARAMS a b g = Some (child, g') ->
  wellFormed PARAMS child /\ fitness child = neg_infinity.
Proof.
  unfold crossover. intros E.
  apply bind_Some in E. destruct E as (pts & g1 & Hpts & E). inv_M E.
  apply crossover_loop_points in Hpts. split; [exact Hpts|reflexivity].
Qed.

Lemma mutate_loop_points (pts : list (Vector3 F)) :
  forall g pts' g',
    mutate_loop PARAMS pts g = Some (pts', g') ->
    length pts' = length pts /\ map y pts' = map y pts.
Proof.
  induction pts as [|p rest IH]; intros g pts' g' E; simpl in E.
  - inv_M E. split; reflexivity.
  - apply bind_Some in E. destruct E as (r & g1 & Hr & E).
    apply bind_Some in E. destruct E as (p' & g2 & Hp & E).
    apply bind_Some in E. destruct E as (rest' & g3 & Hrest & E).
    inv_M E. apply IH in Hrest. destruct Hrest as (Hlen & Hy).
    assert (Hyp : y p' = y p).
    { destruct (r <? mutationProb PARAMS); inv_M Hp; reflexivity. }
    split; simpl; congruence.
Qed.

Lemma mutate_wellFormed (genome : Genome F) (g : Globals F)
    (m : Genome F) (g' : Globals F) :
  mutate PARAMS genome g = Some (m, g') ->
  (wellFormed PARAMS genome -> wellFormed PARAMS m)
  /\ fitness m = fitness genome.
Proof.
  unfold mutate. intros E.
  apply bind_Some in E. destruct E as (pts & g1 & Hpts & E). inv_M E.
  rewrite cloneGenome_id in *.
  apply mutate_loop_points in Hpts. destruct Hpts as (Hlen & Hy).
  split; [|reflexivity].
  intros (Hl & Hy0). split; simpl; [congruence|].
  apply Forall_forall. intros p Hp.
  assert (Hin : In (y p) (map y pts)) by (apply in_map; exact Hp).
  rewrite Hy in Hin. apply in_map_iff in Hin.
  destruct Hin as (q & Hq & Hqin). rewrite <- Hq.
  rewrite Forall_forall in Hy0. apply Hy0. exact Hqin.
Qed.

(** The tournament returns a member of the array it draws from. *)
Lemma tournament_loop_member (pop : list (Genome F)) (k : nat) :
  forall best g best' g',
    tournament_loop pop k best g = Some (best', g') ->
    best' = best \/ exists m, best' = Some m /\ In m pop.
Proof.
  induction k as [|k IH]; intros best g best' g' E; simpl in E.
  - inv_M E. left. reflexivity.
  - apply bind_Some in E. destruct E as (r & g1 & Hr & E).
    apply bind_Some in E. destruct E as (m & g2 & Hm & E).
    apply defined_Some in Hm. simpl in Hm. destruct Hm as (Hm & ->).
    assert (Hin : In m pop).
    { unfold element in Hm. destruct (Z.ltb _ 0); [discriminate|].
      eapply nth_error_In. exact Hm. }
    apply IH in E. destruct E as [->|(m' & -> & Hin')].
    + destruct best as [b|].
      * destruct (fitness m >? fitness b).
        -- right. exists m. split; [reflexivity|exact Hin].
        -- left. reflexivity.
      * right. exists m. split; [reflexivity|exact Hin].
    + right. exists m'. split; [reflexivity|exact Hin'].
Qed.

Lemma tournamentSelect_member (pop : list (Genome F)) (g : Globals F)
    (p : Genome F) (g' : Globals F) :
  tournamentSelect pop g = Some (p, g') -> In p pop.
Proof.
  unfold tournamentSelect. intros E.
  apply bind_Some in E. destruct E as (best & g1 & Hloop & E).
  inv_M E. rewrite cloneGenome_id.
  apply tournament_loop_member in Hloop.
  destruct Hloop as [Hnone|(m & Hm & Hin)]; [discriminate|].
  injection Hm as <-. exact Hin.
Qed.

Lemma breed_loop_wellFormed (fuel : nat) :
  forall newPop g res g',
    breed_loop PARAMS fuel newPop g = Some (res, g') ->
    Forall (wellFormed PARAMS) (population g) ->
    Forall (wellFormed PARAMS) newPop ->
    Forall (wellFormed PARAMS) res.
Proof.
  induction fuel as [|fuel IH]; intros newPop g res g' E Hpop Hnew;
    simpl in E.
  - inv_M E. exact Hnew.
  - destruct (length newPop <? popSize PARAMS)%nat.
    + apply bind_Some in E. destruct E as (pop & g1 & Hget & E).
      inv_M Hget.
      apply bind_Some in E. destruct E as (p1 & g2 & Hp1 & E).
      apply bind_Some in E. destruct E as (p2 & g3 & Hp2 & E).
      apply bind_Some in E. destruct E as (r & g4 & Hr & E).
      apply bind_Some in E. destruct E as (c & g5 & Hc & E).
      apply bind_Some in E. destruct E as (c' & g6 & Hc' & E).
      pose proof (tournamentSelect_member _ _ _ _ Hp1) as Hin1.
      pose proof (tournamentSelect_member _ _ _ _ Hp2) as Hin2.
      assert (Hwc : wellFormed PARAMS c).
      { rewrite Forall_forall in Hpop.
        destruct (r <? crossProb PARAMS).
        - apply crossover_wellFormed in Hc. exact (proj1 Hc).
        - apply bind_Some in Hc. destruct Hc as (r' & g7 & _ & Hc).
          inv_M Hc.
          destruct (r' <? lit 5 10); rewrite cloneGenome_id; auto. }
      pose proof (mutate_wellFormed _ _ _ _ Hc') as (Hwc' & _).
      apply rand_only_frame in Hp1; [|auto with rand_only].
      apply rand_only_frame in Hp2; [|auto with rand_only].
      apply rand_only_frame in Hr; [|auto with rand_only].
      apply rand_only_frame in Hc;
        [|rand_only_steps; apply rand_only_crossover_loop].
      apply rand_only_frame in Hc'; [|auto with rand_only].
      destruct Hp1 as (s1 & ->), Hp2 as (s2 & ->), Hr as (s3 & ->),
               Hc as (s4 & ->), Hc' as (s5 & ->).
      apply IH in E; [exact E|exact Hpop|].
      apply Forall_app. split; [exact Hnew|]. constructor; auto.
    + inv_M E. exact Hnew.
Qed.

Lemma forEach_evaluateFitness_ctrl (world : World F)
    (target : String.string) (pop : list (Genome F)) :
  forall pop',
    forEach_evaluateFitness world target pop = Some pop' ->
    map ctrl pop' = map ctrl pop.
Proof.
  induction pop as [|gm rest IH]; intros pop' E; simpl in E.
  - injection E as <-. reflexivity.
  - destruct (evaluateFitness world target gm) as [[f gm']|] eqn:Ef;
      [|discriminate].
    destruct (forEach_evaluateFitness world target rest) as [rest'|];
      [|discriminate].
    injection E as <-. simpl. f_equal; [|apply IH; reflexivity].
    apply evaluateFitness_with_ctrl in Ef. rewrite Ef. reflexivity.
Qed.

Lemma wellFormed_ctrl (pop pop' : list (Genome F)) :
  map ctrl pop' = map ctrl pop ->
  Forall (wellFormed PARAMS) pop -> Forall (wellFormed PARAMS) pop'.
Proof.
  revert pop'. induction pop as [|a rest IH]; intros [|a' rest'] E Hwf;
    try discriminate; [constructor|].
  simpl in E. injection E as Ea Erest. inversion Hwf as [|? ? Ha Hrest].
  subst. constructor; [|apply IH; assumption].
  unfold wellFormed in *. rewrite Ea. exact Ha.
Qed.

End WellFormed.

Section SortMembers.
Context {F : Type} `{Number F}.

Lemma sortByFitness_perm (pop : list (Genome F)) :
  Permutation (sortByFitness pop) pop.
Proof.
  unfold sortByFitness.
  eapply Permutation_trans; [apply fold_insertSorted_Permutation|].
  rewrite app_nil_r. apply Permutation_refl.
Qed.

Lemma sortByFitness_Forall (P : Genome F -> Prop) (pop : list (Genome F)) :
  Forall P pop -> Forall P (sortByFitness pop).
Proof.
  intros HP. eapply Permutation_Forall; [|exact HP].
  apply Permutation_sym. apply sortByFitness_perm.
Qed.
End SortMembers.

Section WellFormedRun.
Context {F : Type} `{Number F}.
Variable PARAMS : Params F.
Local Open Scope js_scope.

Lemma evolveInitial_wellFormed (g g' : Globals F) :
  evolveInitial PARAMS g = Some (tt, g') -> wellFormedState PARAMS g'.
Proof.
  intros E. apply evolveInitial_shape in E.
  destruct E as (pop & s & evald & first & tgt & Hpop & Hev & Hfirst & Hp
                 & _ & _ & _ & _ & Hbest & _).
  assert (Hwf : Forall (wellFormed PARAMS) (sortByFitness evald)).
  { apply sortByFitness_Forall.
    apply (wellFormed_ctrl PARAMS pop);
      [eapply forEach_evaluateFitness_ctrl; exact Hev|].
    eapply makeInitialPopulation_wellFormed. exact Hpop. }
  split; [rewrite Hp; exact Hwf|].
  exists first. rewrite Hbest, cloneGenome_id. split; [reflexivity|].
  rewrite Forall_forall in Hwf. apply Hwf.
  eapply nth_error_In. exact Hfirst.
Qed.

Lemma stepGen_wellFormed (play : bool) (i : nat) (g : Globals F)
    (next : option nat) (g' : Globals F) :
  wellFormedState PARAMS g ->
  stepGen PARAMS play i g = Some (next, g') ->
  wellFormedState PARAMS g'.
Proof.
  intros (Hpop & b & Hb & Hwb) E.
  destruct (Nat.le_gt_cases (generations PARAMS) i) as [Hge|Hlt].
  - apply stepGen_done in E; [|exact Hge].
    destruct E as (_ & Hp & _ & Hl & _).
    split; [rewrite Hp; exact Hpop|]. exists b. split; congruence.
  - apply stepGen_shape in E; [|exact Hlt].
    destruct E as (elite & bred & s & evald & first & tgt & Helite & Hbreed
                   & Hev & Hfirst & _ & Hp & _ & _ & _ & _ & Hbest & _).
    assert (Hwf : Forall (wellFormed PARAMS) (sortByFitness evald)).
    { apply sortByFitness_Forall.
      apply (wellFormed_ctrl PARAMS bred);
        [eapply forEach_evaluateFitness_ctrl; exact Hev|].
      eapply breed_loop_wellFormed; [exact Hbreed|exact Hpop|].
      constructor; [|constructor]. rewrite cloneGenome_id.
      rewrite Forall_forall in Hpop. apply Hpop.
      eapply nth_error_In. exact Helite. }
    split; [rewrite Hp; exact Hwf|].
    rewrite Hb in Hbest.
    destruct (fitness first >? fitness b).
    + exists first. rewrite Hbest, cloneGenome_id. split; [reflexivity|].
      rewrite Forall_forall in Hwf. apply Hwf.
      eapply nth_error_In. exact Hfirst.
    + exists b. split; assumption.
Qed.

(** What every call of [stepGen] keeps, the timers keep. *)
Lemma timers_invariant (Inv : Globals F -> Prop) (play : bool) :
  (forall i g next g',
      Inv g -> stepGen PARAMS play i g = Some (next, g') -> Inv g') ->
  forall k next g next' g',
    Inv g -> timers PARAMS k play next g = Some (next', g') -> Inv g'.
Proof.
  intros Hstep. induction k as [|k IH]; intros next g next' g' Hg E.
  - destruct next; simpl in E; inv_M E; exact Hg.
  - destruct next as [i|]; simpl in E.
    + apply bind_Some in E. destruct E as (n1 & g1 & E1 & E).
      eapply IH; [|exact E]. eapply Hstep; eassumption.
    + inv_M E. exact Hg.
Qed.
End WellFormedRun.

(** X6. Whatever the parameters and the numbers drawn, at every moment of
    a run (after [runEvolution] and any number of timers) every genome of
    the population and the best genome kept have exactly [ctrlCount]
    control points, all of them in the plane [y = 0]: neither crossover
    nor mutation nor the evaluation changes the number of points or
    leaves the plane. *)
Theorem run_keeps_genomes_wellFormed {F : Type} `{Number F}
    (PARAMS : Params F) (play : bool) (target : String.string) (random : F)
    (k : nat) (g : Globals F) (next : option nat) (g' : Globals F) :
  running g = false ->
  bind (runEvolution PARAMS play target random) (timers PARAMS k play) g
  = Some (next, g') ->
  wellFormedState PARAMS g'.
Proof.
  intros Hrun E.
  apply bind_Some in E. destruct E as (n1 & g1 & E1 & E).
  eapply timers_invariant; [apply stepGen_wellFormed| |exact E].
  unfold runEvolution in E1.
  apply bind_Some in E1. destruct E1 as (n0 & g0 & E0 & E1).
  apply runEvolution_begin_shape in E0; [|exact Hrun].
  destruct E0 as (g2 & -> & E0 & _).
  apply evolveInitial_wellFormed in E0.
  eapply stepGen_wellFormed; eassumption.
Qed.

Lemma run_keeps_genomes_wellFormed_witness :
  wellFormedState P1 (snd endOfRun1).
Proof.
  apply (run_keeps_genomes_wellFormed P1 true "either" random1
           (generations P1) (clearLog loaded) (fst endOfRun1)).
  - reflexivity.
  - vm_compute. reflexivity.
Defined.

(** ** A run that does not throw *)

Section Succeeds.
Context {F : Type} `{Number F}.
Variable PARAMS : Params F.
Local Open Scope js_scope.

Lemma succeeds_bind {A B} (c : M F A) (k : A -> M F B) (g : Globals F) :
  succeeds c g ->
  (forall a g1, c g = Some (a, g1) -> succeeds (k a) g1) ->
  succeeds (bind c k) g.
Proof.
  intros ([a g1] & E) Hk. unfold succeeds, bind. rewrite E.
  apply (Hk a g1). exact E.
Qed.

Lemma succeeds_ret {A} (a : A) (g : Globals F) : succeeds (ret a) g.
Proof. eexists. reflexivity. Qed.

Lemma succeeds_gets {A} (f : Globals F -> A) (g : Globals F) :
  succeeds (gets f) g.
Proof. eexists. reflexivity. Qed.

Lemma succeeds_modify (f : Globals F -> Globals F) (g : Globals F) :
  succeeds (modify f) g.
Proof. eexists. reflexivity. Qed.

Lemma succeeds_rand_ (g : Globals F) : succeeds rand_ g.
Proof. eexists. reflexivity. Qed.

Lemma succeeds_defined {A} (o : option A) (a : A) (g : Globals F) :
  o = Some a -> succeeds (defined o) g.
Proof. intros ->. eexists. reflexivity. Qed.

Lemma makeGenome_loop_succeeds (n : nat) :
  forall i g, succeeds (makeGenome_loop PARAMS n i) g.
Proof.
  induction n as [|n IH]; intros i g; cbn [makeGenome_loop].
  - apply succeeds_ret.
  - apply succeeds_bind; [apply succeeds_gets|]. intros w g1 _.
    apply succeeds_bind; [apply succeeds_rand_|]. intros r1 g2 _.
    apply succeeds_bind; [apply succeeds_rand_|]. intros r2 g3 _.
    apply succeeds_bind; [apply IH|]. intros pts g4 _. apply succeeds_ret.
Qed.

Lemma makeInitialPopulation_succeeds (g : Globals F) :
  succeeds (makeInitialPopulation PARAMS) g.
Proof.
  unfold makeInitialPopulation. revert g.
  induction (popSize PARAMS) as [|n IH]; intros g;
    cbn [makeInitialPopulation_loop].
  - apply succeeds_ret.
  - apply succeeds_bind.
    + unfold makeGenome. apply succeeds_bind;
        [apply makeGenome_loop_succeeds|].
      intros pts g1 _. apply succeeds_ret.
    + intros gm g1 _. apply succeeds_bind; [apply IH|].
      intros pop g2 _. apply succeeds_ret.
Qed.

(** [crossover] reads the first [ctrlCount] control points of both
    parents. *)
Lemma crossover_loop_succeeds (a b : Genome F) (n : nat) :
  forall i g,
    (i + n <= length (ctrl a))%nat -> (i + n <= length (ctrl b))%nat ->
    succeeds (crossover_loop a b n i) g.
Proof.
  induction n as [|n IH]; intros i g Ha Hb; cbn [crossover_loop].
  - apply succeeds_ret.
  - apply succeeds_bind; [apply succeeds_rand_|]. intros r g1 _.
    apply succeeds_bind; [apply succeeds_rand_|]. intros t g2 _.
    destruct (nth_error (ctrl a) i) as [pa|] eqn:Epa;
      [|apply nth_error_None in Epa; lia].
    destruct (nth_error (ctrl b) i) as [pb|] eqn:Epb;
      [|apply nth_error_None in Epb; lia].
    apply succeeds_bind; [eapply succeeds_defined; reflexivity|].
    intros pa' g3 _.
    apply succeeds_bind; [eapply succeeds_defined; reflexivity|].
    intros pb' g4 _.
    apply succeeds_bind; [apply IH; lia|].
    intros rest g5 _. apply succeeds_ret.
Qed.

Lemma crossover_succeeds (a b : Genome F) (g : Globals F) :
  wellFormed PARAMS a -> wellFormed PARAMS b ->
  succeeds (crossover PARAMS a b) g.
Proof.
  intros (Ha & _) (Hb & _). unfold crossover.
  apply succeeds_bind; [apply crossover_loop_succeeds; simpl; lia|].
  intros pts g1 _. apply succeeds_ret.
Qed.

Lemma mutate_succeeds (genome : Genome F) (g : Globals F) :
  succeeds (mutate PARAMS genome) g.
Proof.
  unfold mutate. cbv zeta. apply succeeds_bind.
  - generalize (ctrl (cloneGenome genome)). intros pts. revert g.
    induction pts as [|p rest IH]; intros g; cbn [mutate_loop].
    + apply succeeds_ret.
    + apply succeeds_bind; [apply succeeds_rand_|]. intros r g1 _.
      apply succeeds_bind.
      * destruct (r <? mutationProb PARAMS); [|apply succeeds_ret].
        apply succeeds_bind; [apply succeeds_rand_|]. intros r1 g2 _.
        apply succeeds_bind; [apply succeeds_rand_|]. intros r2 g3 _.
        apply succeeds_ret.
      * intros p' g2 _. apply succeeds_bind; [apply IH|].
        intros rest' g3 _. apply succeeds_ret.
  - intros pts g1 _. apply succeeds_ret.
Qed.
End Succeeds.

Section NeverThrows.
Variable PARAMS : Params R.
Local Open Scope js_scope.

(** [population[(rand() * population.length) | 0]] is an element of a
    population that is not empty and has fewer than 2^31 genomes. *)
Lemma element_in_range (pop : list (Genome R)) (r : R) :
  pop <> [] -> (Z.of_nat (length pop) < 2147483648)%Z ->
  (0 <= r < 1)%R ->
  exists m, element pop (to_int32 (r * of_nat (length pop))) = Some m.
Proof.
  intros Hne Hlen Hr.
  assert (Hpos : (0 < length pop)%nat).
  { destruct pop; [contradiction|simpl; lia]. }
  set (v := (r * of_nat (length pop))%js).
  assert (Hv : (0 <= v < IZR (Z.of_nat (length pop)))%R).
  { unfold v, of_nat. change (of_Z (F:=R)) with IZR.
    change (nmul (F:=R)) with Rmult.
    assert (0 < IZR (Z.of_nat (length pop)))%R by (apply IZR_lt; lia).
    split; nra. }
  assert (Hi : (0 <= Int_part v < Z.of_nat (length pop))%Z).
  { destruct (base_Int_part v) as (Hlo & Hhi). split.
    - assert (-1 < IZR (Int_part v))%R by lra.
      apply lt_IZR in H. lia.
    - apply lt_IZR. lra. }
  change (to_int32 v) with (toInt32 (R_trunc v)).
  unfold R_trunc. destruct (Rle_dec 0 v) as [_|Hn]; [|lra].
  assert (Ht : toInt32 (Int_part v) = Int_part v).
  { unfold toInt32. cbv zeta.
    rewrite Z.mod_small by (unfold two32; lia).
    destruct (Z.ltb_spec (Int_part v) 2147483648); [reflexivity|lia]. }
  rewrite Ht. unfold element.
  destruct (Z.ltb_spec (Int_part v) 0); [lia|].
  destruct (nth_error pop (Z.to_nat (Int_part v))) as [m|] eqn:Em.
  - exists m. reflexivity.
  - apply nth_error_None in Em. lia.
Qed.

Lemma tournament_loop_succeeds (pop : list (Genome R)) (k : nat) :
  pop <> [] -> (Z.of_nat (length pop) < 2147483648)%Z ->
  forall best g,
    exists best' g',
      tournament_loop pop k best g = Some (best', g')
      /\ (best' = None -> best = None /\ k = 0%nat).
Proof.
  intros Hne Hlen. induction k as [|k IH]; intros best g;
    cbn [tournament_loop].
  - exists best, g. split; [reflexivity|]. intros ->. split; reflexivity.
  - destruct (rand_ g) as [[r g1]|] eqn:Er; [|discriminate].
    pose proof (rand_range _ _ _ Er) as Hr.
    destruct (element_in_range pop r Hne Hlen Hr) as (m & Em).
    unfold bind at 1. rewrite Er. unfold bind at 1. rewrite Em.
    cbn [defined ret].
    destruct (IH (match best with
                  | Some b => if fitness m >? fitness b then Some m
                              else Some b
                  | None => Some m
                  end) g1) as (best' & g' & E & Hnone).
    exists best', g'. split; [exact E|].
    intros Hb. apply Hnone in Hb. destruct Hb as (Hb & _).
    destruct best as [b|]; [destruct (fitness m >? fitness b)|];
      discriminate.
Qed.

Lemma tournamentSelect_succeeds (pop : list (Genome R)) (g : Globals R) :
  pop <> [] -> (Z.of_nat (length pop) < 2147483648)%Z ->
  succeeds (tournamentSelect pop) g.
Proof.
  intros Hne Hlen. unfold tournamentSelect.
  destruct (tournament_loop_succeeds pop 3 Hne Hlen None g)
    as (best & g1 & E & Hnone).
  apply succeeds_bind; [eexists; exact E|].
  intros best0 g0 E0. rewrite E in E0. injection E0 as <- <-.
  destruct best as [b|]; [|destruct (Hnone eq_refl); discriminate].
  apply succeeds_bind; [eapply succeeds_defined; reflexivity|].
  intros b' g2 _. apply succeeds_ret.
Qed.

Lemma breed_loop_succeeds (fuel : nat) :
  forall newPop g,
    population g <> [] ->
    (Z.of_nat (length (population g)) < 2147483648)%Z ->
    Forall (wellFormed PARAMS) (population g) ->
    succeeds (breed_loop PARAMS fuel newPop) g.
Proof.
  induction fuel as [|fuel IH]; intros newPop g Hne Hlen Hwf;
    cbn [breed_loop].
  - apply succeeds_ret.
  - destruct (length newPop <? popSize PARAMS)%nat; [|apply succeeds_ret].
    apply succeeds_bind; [apply succeeds_gets|]. intros pop g0 Eg.
    inv_M Eg.
    apply succeeds_bind; [apply tournamentSelect_succeeds; assumption|].
    intros p1 g1 E1.
    apply succeeds_bind; [apply tournamentSelect_succeeds; assumption|].
    intros p2 g2 E2.
    apply succeeds_bind; [apply succeeds_rand_|]. intros r g3 E3.
    pose proof (tournamentSelect_member _ _ _ _ E1) as Hin1.
    pose proof (tournamentSelect_member _ _ _ _ E2) as Hin2.
    rewrite Forall_forall in Hwf.
    apply rand_only_frame in E1; [|auto with rand_only].
    apply rand_only_frame in E2; [|auto with rand_only].
    apply rand_only_frame in E3; [|auto with rand_only].
    destruct E1 as (s1 & ->), E2 as (s2 & ->), E3 as (s3 & ->).
    apply succeeds_bind.
    + destruct (r <? crossProb PARAMS).
      * apply crossover_succeeds; auto.
      * apply succeeds_bind; [apply succeeds_rand_|]. intros r' g4 _.
        apply succeeds_ret.
    + intros c g4 E4.
      assert (Hg4 : exists s4, g4 = set_rand s4 g0).
      { apply rand_only_frame in E4;
          [|rand_only_steps; apply rand_only_crossover_loop].
        destruct E4 as (s4 & ->). exists s4. reflexivity. }
      destruct Hg4 as (s4 & ->).
      apply succeeds_bind; [apply mutate_succeeds|]. intros c' g5 E5.
      pose proof (rand_only_frame _ _ _ _ (rand_only_mutate PARAMS c) E5)
        as (s5 & ->).
      apply IH; [exact Hne|exact Hlen|]. apply Forall_forall. exact Hwf.
Qed.

Lemma forEach_evaluateFitness_returns (world : World R)
    (target : String.string) (pop : list (Genome R)) :
  exists evald, forEach_evaluateFitness world target pop = Some evald.
Proof.
  induction pop as [|gm rest IH]; cbn [forEach_evaluateFitness].
  - eexists. reflexivity.
  - destruct (evaluateFitness_returns world target gm) as (f & ->).
    destruct IH as (rest' & ->). eexists. reflexivity.
Qed.

Lemma evaluateAll_succeeds (pop : list (Genome R)) (g : Globals R) :
  succeeds (evaluateAll pop) g.
Proof.
  unfold evaluateAll.
  apply succeeds_bind; [apply succeeds_gets|]. intros w g1 _.
  apply succeeds_bind; [apply succeeds_gets|]. intros t g2 _.
  destruct (forEach_evaluateFitness_returns w t pop) as (evald & E).
  eapply succeeds_defined. exact E.
Qed.

Lemma showBest_succeeds (genome : Genome R) (g : Globals R) :
  succeeds (showBest genome) g.
Proof.
  unfold succeeds. rewrite showBest_eq.
  destruct (pathPoints_no_null (WORLD g) genome 180 ltac:(lia)) as (pts & ->).
  eexists. reflexivity.
Qed.

Lemma updateHUD_succeeds (g : Globals R) : succeeds updateHUD g.
Proof.
  unfold succeeds, updateHUD, bind, gets, modify. eexists. reflexivity.
Qed.

Lemma nth_error_0_sorted (pop : list (Genome R)) :
  pop <> [] -> exists first, nth_error (sortByFitness pop) 0 = Some first.
Proof.
  intros Hne. pose proof (sortByFitness_length pop) as Hlen.
  destruct (sortByFitness pop) as [|first rest].
  - destruct pop; [contradiction|discriminate].
  - exists first. reflexivity.
Qed.

Lemma evolveInitial_succeeds (g : Globals R) :
  (1 <= popSize PARAMS)%nat -> succeeds (evolveInitial PARAMS) g.
Proof.
  intros HN. unfold evolveInitial.
  apply succeeds_bind; [apply makeInitialPopulation_succeeds|].
  intros pop g1 E1.
  unfold makeInitialPopulation in E1.
  pose proof (makeInitialPopulation_loop_length PARAMS _ _ _ _ E1) as Hpop.
  apply succeeds_bind; [apply evaluateAll_succeeds|]. intros evald g2 E2.
  pose proof (evaluateAll_length _ _ _ _ E2) as (Hlen & ->).
  apply succeeds_bind; [apply succeeds_modify|]. intros [] g3 _.
  destruct (nth_error_0_sorted evald) as (first & Efirst).
  { intros ->. simpl in Hlen. lia. }
  apply succeeds_bind; [eapply succeeds_defined; exact Efirst|].
  intros first' g4 _.
  apply succeeds_bind; [apply succeeds_modify|]. intros [] g5 _.
  apply succeeds_bind; [apply showBest_succeeds|]. intros [] g6 _.
  apply updateHUD_succeeds.
Qed.

Lemma runEvolution_begin_succeeds (play : bool) (target : String.string)
    (random : R) (g : Globals R) :
  (1 <= popSize PARAMS)%nat ->
  succeeds (runEvolution_begin PARAMS play target random) g.
Proof.
  intros HN. unfold runEvolution_begin.
  apply succeeds_bind; [apply succeeds_gets|]. intros busy g1 _.
  destruct busy; [apply succeeds_ret|].
  apply succeeds_bind; [apply succeeds_modify|]. intros [] g2 _.
  apply succeeds_bind; [apply succeeds_modify|]. intros [] g3 _.
  apply succeeds_bind; [apply succeeds_modify|]. intros [] g4 _.
  apply succeeds_bind.
  { destruct play; [apply succeeds_ret|].
    unfold succeeds. rewrite jitterSpeakers_eq. eexists. reflexivity. }
  intros [] g5 _.
  apply succeeds_bind; [apply succeeds_modify|]. intros [] g6 _.
  apply succeeds_bind; [apply evolveInitial_succeeds; exact HN|].
  intros [] g7 _. apply succeeds_ret.
Qed.

Lemma stepGen_succeeds (play : bool) (i : nat) (g : Globals R) :
  (1 <= popSize PARAMS)%nat ->
  (Z.of_nat (popSize PARAMS) < 2147483648)%Z ->
  length (population g) = popSize PARAMS ->
  Forall (wellFormed PARAMS) (population g) ->
  succeeds (stepGen PARAMS play i) g.
Proof.
  intros HN Hbig Hlen Hwf. unfold stepGen.
  destruct (generations PARAMS <=? i)%nat.
  - apply succeeds_bind; [apply succeeds_modify|]. intros [] g1 _.
    apply succeeds_bind;
      [destruct play; [apply succeeds_modify|apply succeeds_ret]|].
    intros [] g2 _. apply succeeds_ret.
  - apply succeeds_bind; [apply succeeds_modify|]. intros [] g1 E1.
    inv_M E1.
    apply succeeds_bind; [apply succeeds_gets|]. intros pop g2 E2.
    inv_M E2.
    destruct (population g) as [|elite rest] eqn:Epop;
      [simpl in Hlen; lia|].
    apply succeeds_bind; [eapply succeeds_defined; reflexivity|].
    intros elite' g3 E3. inv_M E3.
    apply succeeds_bind.
    { apply breed_loop_succeeds; cbn [population set_gen];
        rewrite ?Epop; [discriminate|rewrite Hlen; exact Hbig|exact Hwf]. }
    intros bred g4 E4.
    pose proof (breed_loop_length PARAMS _ _ _ _ _ E4) as Hbred.
    apply succeeds_bind; [apply evaluateAll_succeeds|]. intros evald g5 E5.
    pose proof (evaluateAll_length _ _ _ _ E5) as (Hev & ->).
    apply succeeds_bind; [apply succeeds_modify|]. intros [] g6 _.
    destruct (nth_error_0_sorted evald) as (first & Efirst).
    { intros ->. simpl in Hev. rewrite Hbred in Hev; simpl; lia. }
    apply succeeds_bind; [eapply succeeds_defined; exact Efirst|].
    intros first' g7 _.
    apply succeeds_bind; [apply succeeds_gets|]. intros best g8 _.
    apply succeeds_bind.
    { destruct best as [b|]; [destruct (fitness first' >? fitness b)|].
      - apply succeeds_bind; [apply succeeds_modify|]. intros [] g9 _.
        apply showBest_succeeds.
      - apply succeeds_ret.
      - apply succeeds_bind; [apply succeeds_modify|]. intros [] g9 _.
        apply showBest_succeeds. }
    intros [] g9 _.
    apply succeeds_bind; [apply updateHUD_succeeds|]. intros [] g10 _.
    apply succeeds_ret.
Qed.

(** After enough timers no further call of [stepGen] is scheduled. *)
Lemma timers_run_out (play : bool) (k : nat) :
  forall i g next g',
    (generations PARAMS - i < k)%nat ->
    timers PARAMS k play (Some i) g = Some (next, g') ->
    next = None.
Proof.
  induction k as [|k IH]; intros i g next g' Hk E; [lia|].
  cbn [timers] in E.
  apply bind_Some in E. destruct E as (n1 & g1 & Hstep & E).
  destruct (Nat.le_gt_cases (generations PARAMS) i) as [Hge|Hlt].
  - apply stepGen_done in Hstep; [|exact Hge]. destruct Hstep as (-> & _).
    destruct k; simpl in E; inv_M E; reflexivity.
  - apply stepGen_generation in Hstep; [|exact Hlt].
    destruct Hstep as (-> & _).
    apply (IH (i + 1)%nat g1 next g'); [lia|exact E].
Qed.

Lemma timers_succeed (play : bool) (k : nat) :
  (1 <= popSize PARAMS)%nat ->
  (Z.of_nat (popSize PARAMS) < 2147483648)%Z ->
  forall next g,
    between_steps PARAMS next g -> wellFormedState PARAMS g ->
    succeeds (timers PARAMS k play next) g.
Proof.
  intros HN Hbig. induction k as [|k IH]; intros next g Hb Hwf.
  - destruct next; apply succeeds_ret.
  - destruct next as [i|]; [|apply succeeds_ret]. cbn [timers].
    apply succeeds_bind.
    + apply stepGen_succeeds; [exact HN|exact Hbig|apply Hb|apply Hwf].
    + intros next' g1 E. apply IH.
      * eapply stepGen_between_steps; eassumption.
      * eapply stepGen_wellFormed; eassumption.
Qed.
Lemma run_succeeds (play : bool) (target : String.string) (random : R)
    (g : Globals R) :
  running g = false ->
  (1 <= popSize PARAMS)%nat ->
  (Z.of_nat (popSize PARAMS) < 2147483648)%Z ->
  succeeds (run PARAMS play target random) g.
Proof.
  intros Hrun HN Hbig. unfold succeeds. rewrite run_timers.
  apply succeeds_bind; [apply runEvolution_begin_succeeds; exact HN|].
  intros next g1 E. apply timers_succeed; [exact HN|exact Hbig| |].
  - eapply runEvolution_begin_between_steps; eassumption.
  - apply runEvolution_begin_shape in E; [|exact Hrun].
    destruct E as (g2 & _ & E & _).
    eapply evolveInitial_wellFormed. exact E.
Qed.
End NeverThrows.



(** ** The order the sort leaves, over the reals *)

Section SortOrder.
Local Open Scope R_scope.

Lemma insertSorted_In (g m : Genome R) (sorted : list (Genome R)) :
  In m (insertSorted g sorted) -> m = g \/ In m sorted.
Proof.
  intros Hin.
  apply (Permutation_in _ (insertSorted_Permutation g sorted)) in Hin.
  destruct Hin as [<-|Hin]; [left; reflexivity|right; exact Hin].
Qed.

Lemma insertSorted_descending (g : Genome R) (sorted : list (Genome R)) :
  descending sorted -> descending (insertSorted g sorted).
Proof.
  unfold descending. induction sorted as [|h rest IH]; intros Hs;
    cbn [insertSorted].
  - constructor; constructor.
  - inversion Hs as [|? ? Hrest Hh]. subst.
    unfold compareFitness. change (nsub (F:=R)) with Rminus.
    change (of_Z (F:=R) 0) with 0. change (nltb (F:=R)) with R_ltb.
    destruct (R_ltb 0 (fitness g - fitness h)) eqn:Hcmp.
    + apply R_ltb_true in Hcmp. constructor; [exact Hs|].
      constructor; [lra|].
      rewrite Forall_forall in *. intros m Hm. specialize (Hh m Hm). lra.
    + apply R_ltb_false in Hcmp. constructor; [apply IH; exact Hrest|].
      apply Forall_forall. intros m Hm.
      apply insertSorted_In in Hm. destruct Hm as [->|Hm]; [lra|].
      rewrite Forall_forall in Hh. apply Hh. exact Hm.
Qed.

Lemma sortByFitness_sorted (pop : list (Genome R)) :
  descending (sortByFitness pop).
Proof.
  unfold sortByFitness.
  enough (forall acc, descending acc ->
            descending (fold_left (fun sorted g => insertSorted g sorted)
                          pop acc)) as E.
  { apply E. constructor. }
  induction pop as [|g rest IH]; intros acc Hacc; cbn [fold_left].
  - exact Hacc.
  - apply IH. apply insertSorted_descending. exact Hacc.
Qed.

Lemma descending_head (pop : list (Genome R)) (first : Genome R) :
  descending pop -> nth_error pop 0 = Some first ->
  Forall (fun g => fitness g <= fitness first) pop.
Proof.
  intros Hs Hfirst. destruct pop as [|h rest]; [discriminate|].
  injection Hfirst as ->. inversion Hs as [|? ? _ Hh]. subst.
  constructor; [lra|exact Hh].
Qed.

Lemma sortByFitness_head (pop : list (Genome R)) (first : Genome R) :
  nth_error (sortByFitness pop) 0 = Some first ->
  In first pop /\ Forall (fun g => fitness g <= fitness first) pop.
Proof.
  intros Hfirst. split.
  - apply (Permutation_in _ (sortByFitness_perm pop)).
    eapply nth_error_In. exact Hfirst.
  - eapply Permutation_Forall; [apply sortByFitness_perm|].
    apply descending_head; [apply sortByFitness_sorted|exact Hfirst].
Qed.
End SortOrder.


(** ** Elitism *)

Section Evaluated.
Context {F : Type} `{Number F}.
Variable PARAMS : Params F.
Local Open Scope js_scope.

(** The genome the evaluator leaves is an evaluated one. *)
Lemma evaluateFitness_evaluated (world : World F) (target : String.string)
    (genome : Genome F) (f : F) (genome' : Genome F) :
  evaluateFitness world target genome = Some (f, genome') ->
  evaluated world target genome'.
Proof.
  intros E. unfold evaluated, evaluateFitness in *.
  pose proof (evaluateFitness_with_ctrl _ _ _ _ _ E) as ->.
  pose proof (evaluateFitness_with_ext (loudness target) world
                (mkGenome (ctrl genome) f) genome eq_refl) as Hext.
  rewrite E in Hext. cbn [option_map fst] in Hext.
  destruct (evaluateFitness_with (loudness target) world
              (mkGenome (ctrl genome) f)) as [[f2 g2]|] eqn:E2;
    [|discriminate].
  cbn [option_map fst] in Hext. injection Hext as ->.
  rewrite (evaluateFitness_with_ctrl _ _ _ _ _ E2). reflexivity.
Qed.

Lemma forEach_evaluated (world : World F) (target : String.string)
    (pop : list (Genome F)) :
  forall evald,
    forEach_evaluateFitness world target pop = Some evald ->
    Forall (evaluated world target) evald.
Proof.
  induction pop as [|gm rest IH]; intros evald E;
    cbn [forEach_evaluateFitness] in E.
  - injection E as <-. constructor.
  - destruct (evaluateFitness world target gm) as [[f gm']|] eqn:Ef;
      [|discriminate].
    destruct (forEach_evaluateFitness world target rest) as [rest'|];
      [|discriminate].
    injection E as <-. constructor; [|apply IH; reflexivity].
    eapply evaluateFitness_evaluated. exact Ef.
Qed.

(** An evaluated genome at the head of the array comes out of the
    evaluation as it went in. *)
Lemma forEach_head_evaluated (world : World F) (target : String.string)
    (elite : Genome F) (rest evald : list (Genome F)) :
  evaluated world target elite ->
  forEach_evaluateFitness world target (elite :: rest) = Some evald ->
  exists rest', evald = elite :: rest'.
Proof.
  intros He E. cbn [forEach_evaluateFitness] in E.
  unfold evaluated in He. rewrite He in E.
  destruct (forEach_evaluateFitness world target rest) as [rest'|];
    [|discriminate].
  injection E as <-. exists rest'. reflexivity.
Qed.

(** The loop of [stepGen] only pushes. *)
Lemma breed_loop_prefix (fuel : nat) :
  forall newPop g res g',
    breed_loop PARAMS fuel newPop g = Some (res, g') ->
    exists more, res = newPop ++ more.
Proof.
  induction fuel as [|fuel IH]; intros newPop g res g' E;
    cbn [breed_loop] in E.
  - inv_M E. exists []. symmetry. apply app_nil_r.
  - destruct (length newPop <? popSize PARAMS)%nat.
    + apply bind_Some in E. destruct E as (pop & g1 & _ & E).
      apply bind_Some in E. destruct E as (p1 & g2 & _ & E).
      apply bind_Some in E. destruct E as (p2 & g3 & _ & E).
      apply bind_Some in E. destruct E as (r & g4 & _ & E).
      apply bind_Some in E. destruct E as (c & g5 & _ & E).
      apply bind_Some in E. destruct E as (c' & g6 & _ & E).
      apply IH in E. destruct E as (more & ->).
      exists (c' :: more). rewrite <- app_assoc. reflexivity.
    + inv_M E. exists []. symmetry. apply app_nil_r.
Qed.

Lemma stepGen_done_world (play : bool) (i : nat) (g : Globals F)
    (next : option nat) (g' : Globals F) :
  (generations PARAMS <= i)%nat ->
  stepGen PARAMS play i g = Some (next, g') ->
  WORLD g' = WORLD g /\ TARGET g' = TARGET g.
Proof.
  intros Hi E. unfold stepGen in E.
  destruct (Nat.leb_spec (generations PARAMS) i) as [_|Hlt]; [|lia].
  destruct play; unfold playBestPath in E; inv_M E; split; reflexivity.
Qed.
End Evaluated.

Section Elitism.
Variable PARAMS : Params R.
Local Open Scope R_scope.

Lemma ascending_snoc (l : list R) (v : R) :
  Sorted Rle l -> (forall u, In u l -> u <= v) -> Sorted Rle (l ++ [v]).
Proof.
  induction l as [|a l IH]; intros Hs Hall; cbn [app].
  - constructor; constructor.
  - inversion Hs as [|? ? Hl Ha]. subst. constructor.
    + apply IH; [exact Hl|]. intros u Hu. apply Hall. right. exact Hu.
    + destruct l as [|b l]; cbn [app]; constructor.
      * apply Hall. left. reflexivity.
      * inversion Ha. assumption.
Qed.

Lemma trace_HUD (g g' : Globals R) (n : nat) (best : R)
    (tgt : String.string) (shown : list (Event R)) :
  log g' = HUD n best tgt :: shown ++ log g ->
  (forall e, In e shown -> exists genome, e = ShowBest genome) ->
  map snd (hudPairs (trace g')) = map snd (hudPairs (trace g)) ++ [best].
Proof.
  intros Hlog Hshown. unfold trace. rewrite Hlog. cbn [rev].
  rewrite rev_app_distr, !hudPairs_app, !map_app. cbn [hudPairs map snd].
  replace (hudPairs (rev shown)) with (@nil (nat * R)).
  - rewrite app_nil_r. reflexivity.
  - symmetry.
    assert (Hrev : forall e, In e (rev shown) -> exists genome,
                     e = ShowBest genome).
    { intros e He. apply Hshown. apply in_rev. exact He. }
    induction (rev shown) as [|e l IH]; [reflexivity|].
    destruct (Hrev e (or_introl eq_refl)) as (genome & ->).
    cbn [hudPairs]. apply IH. intros e He. apply Hrev. right. exact He.
Qed.

Lemma evolveInitial_elitist (g g' : Globals R) :
  log g = [] ->
  evolveInitial PARAMS g = Some (tt, g') -> elitist g'.
Proof.
  intros Hlog E. apply evolveInitial_shape in E.
  destruct E as (pop & s & evald & first & tgt & _ & Hev & Hfirst & Hp
                 & _ & Hw & Ht & _ & Hbest & _ & Hlog').
  unfold elitist. rewrite Hp, Hw, Ht.
  split; [apply sortByFitness_Forall; eapply forEach_evaluated; exact Hev|].
  split; [apply sortByFitness_sorted|].
  exists first, first. rewrite Hbest, cloneGenome_id.
  unfold trace. rewrite Hlog', Hlog. cbn [rev app hudPairs map snd].
  repeat split; try assumption.
  - constructor; constructor.
  - intros v [<-|[]]. lra.
Qed.

Lemma stepGen_elitist (play : bool) (i : nat) (g : Globals R)
    (next : option nat) (g' : Globals R) :
  elitist g -> stepGen PARAMS play i g = Some (next, g') -> elitist g'.
Proof.
  intros (Hev & Hsorted & first & b & Hfirst & Hb & Hfit & Hasc & Hbound) E.
  destruct (Nat.le_gt_cases (generations PARAMS) i) as [Hge|Hlt].
  - pose proof (stepGen_done_world PARAMS _ _ _ _ _ Hge E) as (Hw & Ht).
    apply stepGen_done in E; [|exact Hge].
    destruct E as (_ & Hp & _ & Hl & Hlog).
    unfold elitist, trace in *. rewrite Hw, Ht, Hp, Hl, Hlog.
    split; [exact Hev|]. split; [exact Hsorted|].
    exists first, b. repeat split; assumption.
  - apply stepGen_shape in E; [|exact Hlt].
    destruct E as (elite & bred & s & evald & first' & tgt & Helite & Hbreed
                   & Heval & Hfirst' & _ & Hp & _ & Hw & Ht & _ & Hbest
                   & _ & Hlog).
    rewrite Hfirst in Helite. injection Helite as <-.
    rewrite cloneGenome_id in *.
    apply breed_loop_prefix in Hbreed. destruct Hbreed as (more & ->).
    cbn [app] in Heval.
    assert (Hfe : evaluated (WORLD g) (TARGET g) first).
    { rewrite Forall_forall in Hev. apply Hev.
      eapply nth_error_In. exact Hfirst. }
    destruct (forEach_head_evaluated _ _ _ _ _ Hfe Heval) as (rest' & ->).
    pose proof (sortByFitness_head _ _ Hfirst') as (_ & Hmax).
    assert (Hup : fitness first <= fitness first').
    { inversion Hmax. assumption. }
    rewrite Hb in Hbest, Hlog.
    change (nltb (F:=R)) with R_ltb in Hbest, Hlog.
    unfold elitist. rewrite Hp, Hw, Ht.
    split; [apply sortByFitness_Forall; eapply forEach_evaluated;
            exact Heval|].
    split; [apply sortByFitness_sorted|].
    assert (Htrace : map snd (hudPairs (trace g'))
                     = map snd (hudPairs (trace g)) ++ [fitness first']).
    { destruct (R_ltb (fitness b) (fitness first')).
      - apply (trace_HUD g g' (gen g + 1)%nat (fitness first') tgt
                 [ShowBest first']); [exact Hlog|].
        intros e [<-|[]]. eexists. reflexivity.
      - apply (trace_HUD g g' (gen g + 1)%nat (fitness first') tgt []);
          [exact Hlog|].
        intros e []. }
    rewrite Htrace.
    assert (Hasc' : Sorted Rle (map snd (hudPairs (trace g))
                                ++ [fitness first'])).
    { apply ascending_snoc; [exact Hasc|].
      intros u Hu. specialize (Hbound u Hu). lra. }
    assert (Hbound' : forall v,
               In v (map snd (hudPairs (trace g)) ++ [fitness first']) ->
               v <= fitness first').
    { intros v Hv. apply in_app_or in Hv. destruct Hv as [Hv|[<-|[]]].
      - specialize (Hbound v Hv). lra.
      - lra. }
    destruct (R_ltb (fitness b) (fitness first')) eqn:Hcmp.
    + exists first', first'. repeat split; assumption.
    + apply R_ltb_false in Hcmp.
      exists first', b. repeat split; try assumption. lra.
Qed.

Lemma run_elitist (play : bool) (target : String.string) (random : R)
    (g : Globals R) (next : option nat) (g' : Globals R) :
  running g = false ->
  run PARAMS play target random (clearLog g) = Some (next, g') ->
  elitist g'.
Proof.
  intros Hrun E. rewrite run_timers in E.
  apply bind_Some in E. destruct E as (n0 & g0 & Hbegin & E).
  eapply timers_invariant; [apply stepGen_elitist| |exact E].
  apply runEvolution_begin_shape in Hbegin; [|exact Hrun].
  destruct Hbegin as (g1 & _ & E0 & _ & _ & Hlog & _).
  eapply evolveInitial_elitist; [|exact E0]. exact Hlog.
Qed.
End Elitism.



(** ** Bounds on the loudness and on the fitness, over the reals *)

Section Bounds.
Local Open Scope R_scope.

(** The 0.2 added to the distance keeps the intensity of a speaker of
    power 1 at or below 25. *)
Lemma intensityAtPoint_bounds (p s : Vector3 R) :
  0 < intensityAtPoint p s 1 <= 25.
Proof.
  unfold intensityAtPoint, lit. cbv zeta.
  change (nadd (F:=R)) with Rplus. change (nmul (F:=R)) with Rmult.
  change (ndiv (F:=R)) with Rdiv. change (of_Z (F:=R) 2) with 2.
  change (of_Z (F:=R) 10) with 10.
  pose proof (distanceTo_nonneg p s) as Hd.
  generalize dependent (distanceTo p s). intros d Hd.
  assert (Hq : 4 / 100 <= (d + 2 / 10) * (d + 2 / 10)) by nra.
  split.
  - apply Rdiv_lt_0_compat; lra.
  - apply (Rmult_le_reg_r ((d + 2 / 10) * (d + 2 / 10))); [lra|].
    unfold Rdiv at 1. rewrite Rmult_assoc, Rinv_l by lra. lra.
Qed.

Lemma reward_bounds (target : String.string) (world : World R)
    (p : Vector3 R) :
  0 < reward target world p <= 25.
Proof.
  unfold reward, loudness.
  pose proof (intensityAtPoint_bounds p (speakerL world)) as Hl.
  pose proof (intensityAtPoint_bounds p (speakerR world)) as Hr.
  change (of_Z (F:=R) 1) with 1.
  destruct (String.eqb target "left"); [exact Hl|].
  destruct (String.eqb target "right"); [exact Hr|].
  change (nmax (F:=R)) with Rmax. unfold Rmax.
  destruct (Rle_dec _ _); assumption.
Qed.

Lemma sumFrom_between (lo hi : R) (l : list R) :
  Forall (fun v => lo <= v <= hi) l ->
  forall start,
    start + lo * INR (length l) <= sumFrom start l
    <= start + hi * INR (length l).
Proof.
  unfold sumFrom. change (nadd (F:=R)) with Rplus.
  induction 1 as [|v l Hv Hl IH]; intros start.
  - cbn [fold_left length INR]. lra.
  - cbn [fold_left]. specialize (IH (start + v)).
    change (length (v :: l)) with (S (length l)). rewrite S_INR. lra.
Qed.

Lemma segmentLengths_nonneg (pts : list (Vector3 R)) :
  Forall (fun v => 0 <= v <= v) (segmentLengths pts).
Proof.
  induction pts as [|p [|q rest] IH]; cbn [segmentLengths];
    try constructor.
  - pose proof (distanceTo_nonneg p q). lra.
  - exact IH.
Qed.

Lemma sum_segmentLengths_nonneg (pts : list (Vector3 R)) :
  0 <= sum (segmentLengths pts).
Proof.
  unfold sum, sumFrom. change (nadd (F:=R)) with Rplus.
  change (of_Z (F:=R) 0) with 0.
  assert (E : forall l start,
             Forall (fun v => 0 <= v) l -> start <= fold_left Rplus l start).
  { induction l as [|v l IH]; intros start Hl; cbn [fold_left]; [lra|].
    inversion Hl. subst. specialize (IH (start + v) H2). lra. }
  apply E. eapply Forall_impl; [|apply segmentLengths_nonneg].
  intros v Hv. lra.
Qed.

Lemma allPoints_length (l : list (option (Vector3 R))) :
  forall pts, allPoints l = Some pts -> length pts = length l.
Proof.
  induction l as [|[p|] l IH]; intros pts E; cbn [allPoints] in E.
  - injection E as <-. reflexivity.
  - destruct (allPoints l) as [rest|]; [|discriminate].
    injection E as <-. cbn [length]. f_equal. apply IH. reflexivity.
  - discriminate.
Qed.
End Bounds.


(** ** The jitter of the speakers of the page *)

Section ShippedJitter.
Local Open Scope R_scope.

Lemma jitter_range (amount : R) (s : Z) (k : nat) :
  0 <= amount -> - amount <= jitter amount s k <= amount.
Proof.
  intros Ha. unfold jitter, rand_nth.
  pose proof (rand_output_range (rand_state s k)) as Hr.
  change (nmul (F:=R)) with Rmult. change (nsub (F:=R)) with Rminus.
  change (of_Z (F:=R) 2) with 2. change (of_Z (F:=R) 1) with 1.
  generalize dependent (rand_output (F:=R) (rand_state s k)).
  intros r Hr. split; nra.
Qed.

Lemma distanceTo_x_far (L R' : Vector3 R) :
  6 <= x R' - x L -> 6 <= distanceTo L R'.
Proof.
  intros Hx. unfold distanceTo, distanceToSquared.
  change (nsqrt (F:=R)) with R_sqrt.sqrt.
  change (nadd (F:=R)) with Rplus. change (nmul (F:=R)) with Rmult.
  change (nsub (F:=R)) with Rminus.
  apply sqrt_at_least_6.
  pose proof (Rle_0_sqr (y L - y R')) as Hy.
  pose proof (Rle_0_sqr (z L - z R')) as Hz.
  unfold Rsqr in Hy, Hz. nra.
Qed.
End ShippedJitter.



(** ** Where the operators put the control points, over the reals *)

Section OperatorBounds.
Variable PARAMS : Params R.
Local Open Scope R_scope.

(** [(rand() * 2 - 1) * scale] lies within [scale] of 0. *)
Lemma offset_range (g : Globals R) (r : R) (g' : Globals R) (scale : R) :
  rand_ g = Some (r, g') -> 0 <= scale ->
  - scale <= (r * 2 - 1) * scale <= scale.
Proof.
  intros E Hs. apply rand_range in E. split; nra.
Qed.

(** [lerp(a, b, t)] for [t] in [0, 1) lies between [a] and [b]. *)
Lemma lerp_between (a b t : R) :
  0 <= t < 1 -> Rmin a b <= lerp a b t <= Rmax a b.
Proof.
  intros Ht. unfold lerp.
  change (nadd (F:=R)) with Rplus. change (nmul (F:=R)) with Rmult.
  change (nsub (F:=R)) with Rminus.
  unfold Rmin, Rmax. destruct (Rle_dec a b); split; nra.
Qed.

Lemma makeGenome_loop_box (n : nat) :
  forall i g pts g',
    makeGenome_loop PARAMS n i g = Some (pts, g') ->
    forall k p,
      nth_error pts k = Some p ->
      let t := (of_nat (i + k + 1) / of_nat (ctrlCount PARAMS + 1))%js in
      Rabs (x p - lerp (x (A (WORLD g))) (x (B (WORLD g))) t) <= 8
      /\ y p = 0
      /\ Rabs (z p - lerp (z (A (WORLD g))) (z (B (WORLD g))) t) <= 6.
Proof.
  induction n as [|n IH]; intros i g pts g' E k p Hp;
    cbn [makeGenome_loop] in E.
  - inv_M E. destruct k; discriminate.
  - apply bind_Some in E. destruct E as (w & g1 & Hw & E). inv_M Hw.
    apply bind_Some in E. destruct E as (r1 & g2 & Hr1 & E).
    apply bind_Some in E. destruct E as (r2 & g3 & Hr2 & E).
    apply bind_Some in E. destruct E as (rest & g4 & Hrest & E).
    inv_M E.
    pose proof (offset_range _ _ _ 8 Hr1 ltac:(lra)) as H1.
    pose proof (offset_range _ _ _ 6 Hr2 ltac:(lra)) as H2.
    assert (Hw2 : WORLD g3 = WORLD g1).
    { apply rand_only_frame in Hr1; [|auto with rand_only].
      apply rand_only_frame in Hr2; [|auto with rand_only].
      destruct Hr1 as (s1 & ->), Hr2 as (s2 & ->). reflexivity. }
    destruct k as [|k].
    + cbn [nth_error] in Hp. injection Hp as <-. cbn [x y z].
      rewrite Nat.add_0_r.
      change (nadd (F:=R)) with Rplus in *.
      change (nmul (F:=R)) with Rmult in *.
      change (nsub (F:=R)) with Rminus in *.
      change (of_Z (F:=R) 2) with 2. change (of_Z (F:=R) 1) with 1.
      change (of_Z (F:=R) 8) with 8. change (of_Z (F:=R) 6) with 6.
      change (of_Z (F:=R) 0) with 0.
      unfold lerp. change (nadd (F:=R)) with Rplus.
      change (nmul (F:=R)) with Rmult. change (nsub (F:=R)) with Rminus.
      change (ndiv (F:=R)) with Rdiv. unfold of_nat.
      change (of_Z (F:=R)) with IZR.
      generalize (IZR (Z.of_nat (i + 1))
                  / IZR (Z.of_nat (ctrlCount PARAMS + 1))).
      intros t.
      generalize dependent ((x (B (WORLD g1)) - x (A (WORLD g1))) * t).
      generalize dependent ((z (B (WORLD g1)) - z (A (WORLD g1))) * t).
      intros dz dx.
      repeat split; try (apply Rabs_le; lra).
    + cbn [nth_error] in Hp.
      specialize (IH (S i) g3 rest _ Hrest k p Hp). cbv zeta in IH.
      rewrite Hw2 in IH.
      replace (S i + k + 1)%nat with (i + S k + 1)%nat in IH by lia.
      exact IH.
Qed.

Lemma crossover_loop_between (a b : Genome R) (n : nat) :
  forall i g pts g',
    crossover_loop a b n i g = Some (pts, g') ->
    forall k pc,
      nth_error pts k = Some pc ->
      exists pa pb,
        nth_error (ctrl a) (i + k) = Some pa
        /\ nth_error (ctrl b) (i + k) = Some pb
        /\ Rmin (x pa) (x pb) <= x pc <= Rmax (x pa) (x pb)
        /\ y pc = 0
        /\ Rmin (z pa) (z pb) <= z pc <= Rmax (z pa) (z pb).
Proof.
  induction n as [|n IH]; intros i g pts g' E k pc Hpc;
    cbn [crossover_loop] in E.
  - inv_M E. destruct k; discriminate.
  - apply bind_Some in E. destruct E as (r & g1 & Hr & E).
    apply bind_Some in E. destruct E as (t & g2 & Ht & E).
    apply bind_Some in E. destruct E as (pa & g3 & Hpa & E).
    apply bind_Some in E. destruct E as (pb & g4 & Hpb & E).
    apply bind_Some in E. destruct E as (rest & g5 & Hrest & E).
    inv_M E. apply defined_Some in Hpa, Hpb.
    cbn [fst snd] in Hpa, Hpb. destruct Hpa as (Hpa & _), Hpb as (Hpb & _).
    apply rand_range in Ht.
    destruct k as [|k].
    + cbn [nth_error] in Hpc. injection Hpc as <-.
      rewrite Nat.add_0_r. exists pa, pb.
      split; [exact Hpa|]. split; [exact Hpb|]. cbn [x y z].
      pose proof (lerp_between (x pa) (x pb) t Ht).
      pose proof (lerp_between (x pb) (x pa) t Ht).
      pose proof (lerp_between (z pa) (z pb) t Ht).
      pose proof (lerp_between (z pb) (z pa) t Ht).
      rewrite (Rmin_comm (x pb)), (Rmax_comm (x pb)) in *.
      rewrite (Rmin_comm (z pb)), (Rmax_comm (z pb)) in *.
      unfold lerp in *.
      change (nadd (F:=R)) with Rplus in *.
      change (nmul (F:=R)) with Rmult in *.
      change (nsub (F:=R)) with Rminus in *.
      repeat split; try reflexivity;
        match goal with
        | |- context [if ?c then _ else _] => destruct c
        end; tauto.
    + cbn [nth_error] in Hpc.
      destruct (IH (S i) _ _ _ Hrest k pc Hpc) as (qa & qb & Hqa & Hqb & Hb).
      exists qa, qb.
      replace (i + S k)%nat with (S i + k)%nat by lia.
      repeat split; tauto.
Qed.

Lemma mutate_loop_near (pts : list (Vector3 R)) :
  0 <= mutationScale PARAMS ->
  forall g pts' g',
    mutate_loop PARAMS pts g = Some (pts', g') ->
    Forall2 (fun p p' =>
               Rabs (x p' - x p) <= mutationScale PARAMS
               /\ y p' = y p
               /\ Rabs (z p' - z p) <= mutationScale PARAMS * (8 / 10))
            pts pts'.
Proof.
  intros Hs. induction pts as [|p rest IH]; intros g pts' g' E;
    cbn [mutate_loop] in E.
  - inv_M E. constructor.
  - apply bind_Some in E. destruct E as (r & g1 & Hr & E).
    apply bind_Some in E. destruct E as (p' & g2 & Hp & E).
    apply bind_Some in E. destruct E as (rest' & g3 & Hrest & E).
    inv_M E. constructor; [|eapply IH; exact Hrest].
    destruct (r <? mutationProb PARAMS)%js.
    + apply bind_Some in Hp. destruct Hp as (r1 & g4 & Hr1 & Hp).
      apply bind_Some in Hp. destruct Hp as (r2 & g5 & Hr2 & Hp).
      inv_M Hp. cbn [x y z].
      apply rand_range in Hr1, Hr2.
      unfold lit.
      change (nadd (F:=R)) with Rplus. change (nmul (F:=R)) with Rmult.
      change (nsub (F:=R)) with Rminus. change (ndiv (F:=R)) with Rdiv.
      change (of_Z (F:=R) 2) with 2. change (of_Z (F:=R) 1) with 1.
      change (of_Z (F:=R) 8) with 8. change (of_Z (F:=R) 10) with 10.
      generalize dependent (mutationScale PARAMS). intros sc Hs.
      repeat split; try reflexivity; apply Rabs_le; split; nra.
    + inv_M Hp.
      repeat split; try reflexivity;
        unfold Rminus; rewrite Rplus_opp_r, Rabs_R0; nra.
Qed.
End OperatorBounds.







(** ** The numbers the first population draws *)

Section Draws.
Context {F : Type} `{Number F}.
Variable PARAMS : Params F.
Local Open Scope js_scope.

Lemma rand_state_add (s : Z) (a b : nat) :
  rand_state (rand_state s a) b = rand_state s (a + b).
Proof.
  unfold rand_state. rewrite Nat.add_comm. symmetry. apply Nat.iter_add.
Qed.

Lemma rand_set_rand (s : Z) (g : Globals F) : rand (set_rand s g) = s.
Proof. reflexivity. Qed.

Lemma rand_advances (g : Globals F) :
  rand_ g = Some (rand_nth (rand g) 1,
                  set_rand (rand_state (rand g) 1) g).
Proof. reflexivity. Qed.

Lemma makeGenome_loop_draws (n : nat) :
  forall i g,
    exists pts,
      makeGenome_loop PARAMS n i g
      = Some (pts, set_rand (rand_state (rand g) (2 * n)) g).
Proof.
  induction n as [|n IH]; intros i g; cbn [makeGenome_loop].
  - exists []. unfold ret.
    change (rand_state (rand g) (2 * 0)) with (rand g).
    rewrite set_rand_same. reflexivity.
  - unfold bind at 1. cbn [gets].
    unfold bind at 1. rewrite rand_advances.
    unfold bind at 1. rewrite rand_advances.
    destruct (IH (S i) (set_rand (rand_state (rand (set_rand
                  (rand_state (rand g) 1) g)) 1)
                  (set_rand (rand_state (rand g) 1) g))) as (pts & E).
    unfold bind at 1. rewrite E. eexists. unfold ret. do 2 f_equal.
    rewrite !set_rand_twice, !rand_set_rand, !rand_state_add.
    f_equal. f_equal. lia.
Qed.

Lemma makeInitialPopulation_loop_draws (n : nat) :
  forall g,
    exists pop,
      makeInitialPopulation_loop PARAMS n g
      = Some (pop, set_rand (rand_state (rand g)
                               (n * (2 * ctrlCount PARAMS))) g).
Proof.
  induction n as [|n IH]; intros g; cbn [makeInitialPopulation_loop].
  - exists []. unfold ret.
    change (rand_state (rand g) (0 * (2 * ctrlCount PARAMS))) with (rand g).
    rewrite set_rand_same. reflexivity.
  - destruct (makeGenome_loop_draws (ctrlCount PARAMS) 0 g) as (pts & Ep).
    unfold bind at 1. unfold makeGenome. unfold bind at 1. rewrite Ep.
    unfold ret at 1.
    destruct (IH (set_rand (rand_state (rand g) (2 * ctrlCount PARAMS)) g))
      as (pop & E).
    unfold bind at 1. rewrite E. eexists. unfold ret. do 2 f_equal.
    rewrite !set_rand_twice, !rand_set_rand, !rand_state_add.
    reflexivity.
Qed.

Lemma makeInitialPopulation_unevaluated (n : nat) :
  forall g pop g',
    makeInitialPopulation_loop PARAMS n g = Some (pop, g') ->
    Forall (fun gm => fitness gm = neg_infinity) pop.
Proof.
  induction n as [|n IH]; intros g pop g' E;
    cbn [makeInitialPopulation_loop] in E.
  - inv_M E. constructor.
  - apply bind_Some in E. destruct E as (gm & g1 & Hgm & E).
    apply bind_Some in E. destruct E as (rest & g2 & Hrest & E).
    inv_M E. constructor.
    + apply makeGenome_wellFormed in Hgm. apply Hgm.
    + eapply IH. exact Hrest.
Qed.
End Draws.

(** X2. [makeInitialPopulation] always returns; it consumes exactly
    [2 * ctrlCount] numbers of the PRNG for each of its [popSize]
    genomes and changes nothing else; the genomes it builds have
    [ctrlCount] control points in the plane [y = 0] and the fitness
    [-Infinity]. *)
Theorem makeInitialPopulation_draws {F : Type} `{Number F}
    (PARAMS : Params F) (g : Globals F) :
  exists pop,
    makeInitialPopulation PARAMS g
    = Some (pop, set_rand (rand_state (rand g)
                             (popSize PARAMS * (2 * ctrlCount PARAMS))) g)
    /\ length pop = popSize PARAMS
    /\ Forall (wellFormed PARAMS) pop
    /\ Forall (fun gm => fitness gm = neg_infinity) pop.
Proof.
  unfold makeInitialPopulation.
  destruct (makeInitialPopulation_loop_draws PARAMS (popSize PARAMS) g)
    as (pop & E).
  exists pop. split; [exact E|]. split; [|split].
  - eapply makeInitialPopulation_loop_length. exact E.
  - eapply makeInitialPopulation_wellFormed. exact E.
  - eapply makeInitialPopulation_unevaluated. exact E.
Qed.

(** X3. [init] always returns. It installs a population that has not
    been evaluated, so the HUD it updates shows the generation with
    [-Infinity] as the best fitness (0 when the population size is 0),
    until the first run. *)
Theorem init_shows_unevaluated {F : Type} `{Number F}
    (PARAMS : Params F) (g : Globals F) :
  exists pop tgt g',
    init PARAMS g = Some (tt, g')
    /\ population g' = pop
    /\ length pop = popSize PARAMS
    /\ Forall (fun gm => fitness gm = neg_infinity) pop
    /\ log g' = HUD (gen g)
                  (match popSize PARAMS with
                   | O => of_Z 0
                   | S _ => neg_infinity
                   end) tgt :: log g
    /\ lastBest g' = lastBest g /\ running g' = running g.
Proof.
  destruct (makeInitialPopulation_loop_draws PARAMS (popSize PARAMS) g)
    as (pop & E).
  pose proof (makeInitialPopulation_loop_length PARAMS _ _ _ _ E) as Hlen.
  pose proof (makeInitialPopulation_unevaluated PARAMS _ _ _ _ E) as Hun.
  exists pop. eexists. eexists.
  split.
  - unfold init, makeInitialPopulation. unfold bind at 1. rewrite E.
    unfold updateHUD, bind, modify, gets. reflexivity.
  - cbn [population log lastBest running emit set_population set_rand gen
         TARGET].
    repeat split; try assumption.
    f_equal. destruct pop as [|gm rest]; cbn [length] in Hlen;
      rewrite <- Hlen; [reflexivity|].
    inversion Hun. f_equal. assumption.
Qed.

(** ** A click on a speaker *)

Section Click.
Context {F : Type} `{Number F}.
Variable PARAMS : Params F.

Lemma pickSpeaker_busy (side : String.string) (random : F)
    (g : Globals F) :
  running g = true ->
  exists best tgt,
    pickSpeaker PARAMS side random g
    = Some (None, emit (HUD (gen g) best tgt) (set_TARGET side g)).
Proof.
  intros Hrun. unfold pickSpeaker. rewrite bind_modify.
  unfold updateHUD, runEvolution, runEvolution_begin, bind, gets, modify.
  cbn [running emit set_TARGET]. rewrite Hrun. eexists. eexists.
  reflexivity.
Qed.

Lemma stepGen_evaluates (play : bool) (i : nat) (g : Globals F)
    (next : option nat) (g' : Globals F) :
  (i < generations PARAMS)%nat ->
  stepGen PARAMS play i g = Some (next, g') ->
  Forall (evaluated (WORLD g) (TARGET g)) (population g').
Proof.
  intros Hi E. apply stepGen_shape in E; [|exact Hi].
  destruct E as (elite & bred & s & evald & first & tgt & _ & _ & Hev & _
                 & _ & Hp & _).
  rewrite Hp. apply sortByFitness_Forall.
  eapply forEach_evaluated. exact Hev.
Qed.
End Click.

(** X17. The guard of [runEvolution] does not keep a click from changing
    the target of a run in progress: a click on a speaker while a run
    is going on starts no run and leaves the population, the generation
    counter, the best genome, the world and the PRNG as they are, but it
    sets [TARGET] to the side clicked, and the next generation of the
    run in progress is evaluated for that side. *)
Theorem click_during_a_run_retargets {F : Type} `{Number F}
    (PARAMS : Params F) (side : String.string) (random : F)
    (g : Globals F) :
  running g = true ->
  exists g',
    pickSpeaker PARAMS side random g = Some (None, g')
    /\ TARGET g' = side /\ running g' = true
    /\ population g' = population g /\ gen g' = gen g
    /\ lastBest g' = lastBest g /\ WORLD g' = WORLD g /\ rand g' = rand g
    /\ forall play i next g2,
         (i < generations PARAMS)%nat ->
         stepGen PARAMS play i g' = Some (next, g2) ->
         Forall (evaluated (WORLD g) side) (population g2).
Proof.
  intros Hrun.
  destruct (pickSpeaker_busy PARAMS side random g Hrun) as (best & tgt & E).
  eexists. split; [exact E|].
  cbn [TARGET running population gen lastBest WORLD rand emit set_TARGET].
  repeat split; try assumption.
  intros play i next g2 Hi Hstep.
  apply (stepGen_evaluates PARAMS _ _ _ _ _ Hi) in Hstep. exact Hstep.
Qed.

Lemma click_during_a_run_retargets_witness :
  exists g',
    pickSpeaker P1 "left" random1 (set_running true loaded)
    = Some (None, g')
    /\ TARGET g' = "left"%string /\ running g' = true
    /\ population g' = population (set_running true loaded)
    /\ gen g' = gen (set_running true loaded)
    /\ lastBest g' = lastBest (set_running true loaded)
    /\ WORLD g' = WORLD (set_running true loaded)
    /\ rand g' = rand (set_running true loaded)
    /\ forall play i next g2,
         (i < generations P1)%nat ->
         stepGen P1 play i g' = Some (next, g2) ->
         Forall (evaluated (WORLD (set_running true loaded)) "left")
                (population g2).
Proof.
  apply (click_during_a_run_retargets P1 "left" random1
           (set_running true loaded)).
  reflexivity.
Defined.

(** ** The spline of the 2D sketch, over the reals *)

Section Spline.
Local Open Scope R_scope.

Lemma cmp_0 (a b c d : R) : Svg.cmp 0 a b c d = b.
Proof.
  unfold Svg.cmp, Svg.neg, lit. cbv zeta.
  change (nadd (F:=R)) with Rplus. change (nmul (F:=R)) with Rmult.
  change (nsub (F:=R)) with Rminus. change (ndiv (F:=R)) with Rdiv.
  change (of_Z (F:=R)) with IZR. field.
Qed.

Lemma cmp_1 (a b c d : R) : Svg.cmp 1 a b c d = c.
Proof.
  unfold Svg.cmp, Svg.neg, lit. cbv zeta.
  change (nadd (F:=R)) with Rplus. change (nmul (F:=R)) with Rmult.
  change (nsub (F:=R)) with Rminus. change (ndiv (F:=R)) with Rdiv.
  change (of_Z (F:=R)) with IZR. field.
Qed.

Lemma last_app_nonempty {T} (l l' : list T) (d : T) :
  l' <> [] -> last (l ++ l') d = last l' d.
Proof.
  intros Hne. induction l as [|a l IH]; [reflexivity|].
  cbn [app]. destruct (l ++ l') as [|b rest] eqn:E.
  - apply app_eq_nil in E. destruct E as (_ & ->). contradiction.
  - exact IH.
Qed.

Lemma point_eta (p : Svg.Point R) : Svg.mkPoint (Svg.px p) (Svg.py p) = p.
Proof. destruct p; reflexivity. Qed.

(** [catmull(i, t)] returns for every segment of the array, whatever
    [t]; at [t = 0] it is [p[i]] and at [t = 1] it is [p[i+1]]. *)
Lemma catmull_segment (p : list (Svg.Point R)) (i : nat)
    (p1 p2 : Svg.Point R) :
  nth_error p i = Some p1 -> nth_error p (i + 1) = Some p2 ->
  (forall t, exists pt, Svg.catmull p i t = Some pt)
  /\ Svg.catmull p i 0 = Some p1
  /\ Svg.catmull p i 1 = Some p2.
Proof.
  intros H1 H2. unfold Svg.catmull. rewrite H1, H2.
  assert (Hlen : (i + 1 < length p)%nat).
  { apply nth_error_Some. rewrite H2. discriminate. }
  destruct (nth_error p (Nat.max 0 (i - 1))) as [p0|] eqn:E0;
    [|apply nth_error_None in E0; lia].
  destruct (nth_error p (Nat.min (length p - 1) (i + 2))) as [p3|] eqn:E3;
    [|apply nth_error_None in E3; lia].
  split; [intros t; eexists; reflexivity|].
  rewrite !cmp_0, !cmp_1, !point_eta. split; reflexivity.
Qed.

Variable p : list (Svg.Point R).
Variable k : nat.
Hypothesis Hk : (2 <= k)%nat.

Lemma of_nat_lt (j : nat) :
  (of_nat j <? IZR (Z.of_nat k))%js = (j <? k)%nat.
Proof.
  unfold of_nat. change (of_Z (F:=R)) with IZR.
  change (nltb (F:=R)) with R_ltb.
  destruct (Nat.ltb_spec j k) as [Hlt|Hge].
  - apply R_ltb_true. apply IZR_lt. lia.
  - apply R_ltb_false. apply IZR_le. lia.
Qed.

Lemma spline_parameter (j : nat) :
  (of_nat j / nmax (of_Z 1) (IZR (Z.of_nat k) - of_Z 1))%js
  = IZR (Z.of_nat j) / IZR (Z.of_nat (k - 1)).
Proof.
  unfold of_nat. change (of_Z (F:=R)) with IZR.
  change (ndiv (F:=R)) with Rdiv. change (nsub (F:=R)) with Rminus.
  change (nmax (F:=R)) with Rmax.
  assert (E : IZR (Z.of_nat k) - 1 = IZR (Z.of_nat (k - 1))).
  { rewrite <- minus_IZR. f_equal. lia. }
  rewrite E. rewrite Rmax_right; [reflexivity|].
  apply IZR_le. lia.
Qed.

(** The inner loop makes [k] rounds when [n/(p.length-1)] is the
    integer [k]. *)
Lemma segmentPoints_rounds (i : nat) (p1 p2 : Svg.Point R) :
  nth_error p i = Some p1 -> nth_error p (i + 1) = Some p2 ->
  forall fuel j,
    (j <= k)%nat -> (k - j <= fuel)%nat ->
    exists out,
      Svg.segmentPoints p i (IZR (Z.of_nat k)) fuel j = Some out
      /\ Forall2 (fun d pt =>
                    Svg.catmull p i
                      (IZR (Z.of_nat d) / IZR (Z.of_nat (k - 1)))
                    = Some pt)
                 (seq j (k - j)) out.
Proof.
  intros H1 H2.
  destruct (catmull_segment p i p1 p2 H1 H2) as (Hall & _).
  induction fuel as [|fuel IH]; intros j Hj Hfuel;
    cbn [Svg.segmentPoints].
  - exists []. split; [reflexivity|].
    replace (k - j)%nat with 0%nat by lia. constructor.
  - rewrite of_nat_lt. destruct (Nat.ltb_spec j k) as [Hlt|Hge].
    + rewrite spline_parameter.
      destruct (Hall (IZR (Z.of_nat j) / IZR (Z.of_nat (k - 1))))
        as (pt & Ept).
      rewrite Ept.
      destruct (IH (S j) ltac:(lia) ltac:(lia)) as (rest & Erest & Hrest).
      rewrite Erest. exists (pt :: rest). split; [reflexivity|].
      replace (k - j)%nat with (S (k - S j)) by lia. cbn [seq].
      constructor; assumption.
    + exists []. split; [reflexivity|].
      replace (k - j)%nat with 0%nat by lia. constructor.
Qed.

(** A segment starts at [p[i]] and ends at [p[i+1]]. *)
Lemma segmentPoints_ends (i fuel : nat) (p1 p2 : Svg.Point R) :
  nth_error p i = Some p1 -> nth_error p (i + 1) = Some p2 ->
  (k <= fuel)%nat ->
  exists out,
    Svg.segmentPoints p i (IZR (Z.of_nat k)) fuel 0 = Some out
    /\ length out = k
    /\ hd_error out = Some p1
    /\ forall d, last out d = p2.
Proof.
  intros H1 H2 Hfuel.
  destruct (segmentPoints_rounds i p1 p2 H1 H2 fuel 0 ltac:(lia)
              ltac:(lia)) as (out & E & Hout).
  destruct (catmull_segment p i p1 p2 H1 H2) as (_ & E0 & E1).
  exists out. split; [exact E|].
  rewrite Nat.sub_0_r in Hout.
  pose proof (Forall2_length Hout) as Hlen. rewrite length_seq in Hlen.
  split; [symmetry; exact Hlen|]. split.
  - destruct k as [|k']; [lia|]. cbn [seq] in Hout.
    inversion Hout as [|? pt ? rest Hpt _]. subst. cbn [hd_error].
    cbn [Z.of_nat] in Hpt. unfold Rdiv in Hpt. rewrite Rmult_0_l in Hpt.
    congruence.
  - intros d. destruct k as [|k']; [lia|].
    rewrite seq_S in Hout. apply Forall2_app_inv_l in Hout.
    destruct Hout as (front & back & _ & Hback & ->).
    inversion Hback as [|? pt ? rest Hpt Hnil]. subst.
    inversion Hnil. subst. rewrite last_last.
    replace (S k' - 1)%nat with (0 + k')%nat in Hpt by lia.
    unfold Rdiv in Hpt. rewrite Rinv_r in Hpt.
    + congruence.
    + apply not_0_IZR. lia.
Qed.

(** The outer loop over segments that are all inside the array. *)
Lemma segments_spec (n : nat) :
  (k <= n)%nat ->
  forall ids,
    (forall i, In i ids -> (i + 1 < length p)%nat) ->
    exists out,
      Svg.segments p (IZR (Z.of_nat k)) n ids = Some out
      /\ length out = (k * length ids)%nat
      /\ (forall i p1, In i ids -> nth_error p i = Some p1 -> In p1 out)
      /\ (forall i rest, ids = i :: rest -> hd_error out = nth_error p i)
      /\ (forall front i d,
             ids = front ++ [i] -> Some (last out d) = nth_error p (i + 1)).
Proof.
  intros Hn. induction ids as [|i rest IH]; intros Hin;
    cbn [Svg.segments].
  - exists []. split; [reflexivity|]. split; [cbn; lia|].
    split; [intros i p1 []|]. split; [discriminate|].
    intros [|? ?] i d E; discriminate.
  - assert (Hi : (i + 1 < length p)%nat) by (apply Hin; left; reflexivity).
    destruct (nth_error p i) as [p1|] eqn:H1;
      [|apply nth_error_None in H1; lia].
    destruct (nth_error p (i + 1)) as [p2|] eqn:H2;
      [|apply nth_error_None in H2; lia].
    destruct (segmentPoints_ends i n p1 p2 H1 H2 Hn)
      as (out & E & Hlen & Hhd & Hlast).
    destruct IH as (more & Emore & Hlenm & Hmem & Hhdm & Hlastm).
    { intros i' Hi'. apply Hin. right. exact Hi'. }
    rewrite E, Emore. exists (out ++ more). split; [reflexivity|].
    split; [rewrite length_app, Hlen, Hlenm; cbn [length]; lia|].
    split; [|split].
    + intros i' q [<-|Hi'] Hq.
      * apply in_or_app. left. rewrite H1 in Hq. injection Hq as <-.
        destruct out as [|o out']; [discriminate|].
        injection Hhd as ->. left. reflexivity.
      * apply in_or_app. right. eapply Hmem; eassumption.
    + intros i' rest' Eids. injection Eids as <- <-.
      destruct out as [|o out']; [discriminate|].
      cbn [app hd_error]. rewrite H1. exact Hhd.
    + intros front i' d Eids.
      destruct rest as [|r rest'].
      * destruct front as [|f front'].
        -- injection Eids as <-.
           assert (more = []) as ->.
           { destruct more; [reflexivity|]. cbn [length] in Hlenm. lia. }
           rewrite app_nil_r, H2. f_equal. apply Hlast.
        -- destruct front'; discriminate.
      * destruct front as [|f front']; [discriminate|].
        injection Eids as <- Erest.
        assert (Hmore : more <> []).
        { intros ->. cbn [length] in Hlenm. nia. }
        rewrite last_app_nonempty by exact Hmore.
        eapply Hlastm. exact Erest.
Qed.
End Spline.



(** ** The tournament, over the reals *)

Section Tournament.
Local Open Scope R_scope.

(** The genome the [k]-th draw of a tournament picks in [pop], for the
    PRNG in the state [s]. *)
Lemma tournament_round (pop : list (Genome R)) (best : option (Genome R))
    (k : nat) (g : Globals R) (res : option (Genome R)) (g' : Globals R) :
  tournament_loop pop (S k) best g = Some (res, g') ->
  exists m,
    element pop (to_int32 (rand_nth (rand g) 1 * of_nat (length pop))%js)
    = Some m
    /\ tournament_loop pop k
         (match best with
          | Some b => if (fitness m >? fitness b)%js then Some m else Some b
          | None => Some m
          end)
         (set_rand (rand_state (rand g) 1) g) = Some (res, g').
Proof.
  cbn [tournament_loop]. intros E.
  apply bind_Some in E. destruct E as (r & g1 & Hr & E).
  rewrite rand_advances in Hr. injection Hr as <- <-.
  apply bind_Some in E. destruct E as (m & g2 & Hm & E).
  apply defined_Some in Hm. cbn [fst snd] in Hm. destruct Hm as (Hm & ->).
  exists m. split; assumption.
Qed.
End Tournament.


